(** * The item ejector system of shapez.io

    A shallow embedding of [src/js/game/systems/item_ejector.js]
    (class [ItemEjectorSystem]) and the properties of its connectivity
    cache, its per-tick transfer loop, its handover dispatcher and the
    drawing of the ejected items.

    Conventions of the embedding.
    - JavaScript objects have identity and are mutated in place.  Entities
      live in a heap indexed by their [uid]; a reference to an entity is
      its [uid], and every reference denotes an object (the heap is a
      total function), also after the entity has been destroyed.
    - The slot objects of an ejector component are owned by its [slots]
      array; a reference to one of them (an element of
      [cachedConnectedSlots]) is its index in that array.
    - Tile coordinates are integers.  The transfer progress and the belt
      speed are JavaScript numbers.  A number is modelled by the rational
      it denotes (the infinities and NaN are left out), and an arithmetic
      operation of the transfer loop gives the exact result rounded to the
      number format: [Number_add], [Number_mul] and [Number_div].  The
      rounding [Number_round] is a parameter of the embedding; what a
      property needs of it is a hypothesis of that property
      ([roundsToFormat]), and [Binary64.round] is the rounding of the
      double-precision format.  [Math_min] and the comparisons are exact
      on numbers.  The positions of the drawing code are computed
      exactly.
    - A method body runs in the monad [M]: it reads and writes the world
      and either returns or throws, and the writes made before a throw stay.
    - [logger.log] calls print only and are left out. *)

From Stdlib Require Import ZArith QArith Qminmax Qround Qpower Lia Lqa.
From Stdlib Require Import String Sorted.
From stdpp Require Import base tactics option list list_numbers functions gmap.

Close Scope Q_scope.
Local Open Scope Z_scope.

(** ** Geometry ([core/vector], [core/rectangle]) *)

Module enumDirection.
Inductive t : Set := top | right | bottom | left.
End enumDirection.

Module Vector.
Record t : Set := mk { x : Z; y : Z }.

Definition add (a b : t) : t := mk (x a + x b) (y a + y b).
End Vector.

(** Modelled from the spec: the table [enumDirectionToVector] of
    [core/vector] is not part of this file.  It gives "the unit vector of
    the world direction"; y grows downwards, east is [(1, 0)] (scenario 1
    of the spec puts the acceptor of an east-facing slot at [(0,0)] on
    tile [(1,0)]). *)
Definition enumDirectionToVector (d : enumDirection.t) : Vector.t :=
  match d with
  | enumDirection.top => Vector.mk 0 (-1)
  | enumDirection.right => Vector.mk 1 0
  | enumDirection.bottom => Vector.mk 0 1
  | enumDirection.left => Vector.mk (-1) 0
  end.

(** Modelled from the spec: the class [Rectangle] of [core/rectangle] is
    not part of this file.  A rectangle is its top-left corner and its
    size; [right] and [bottom] are the exclusive far edges;
    [expandedInAllDirections] grows it by a margin on the four sides and
    [getUnion] is the smallest rectangle covering both ("union of
    rectangles, not a list"). *)
Module Rectangle.
Record t : Set := mk { x : Z; y : Z; w : Z; h : Z }.

Definition right (r : t) : Z := x r + w r.
Definition bottom (r : t) : Z := y r + h r.

Definition fromTRBL (top right bottom left : Z) : t :=
  mk left top (right - left) (bottom - top).

Definition expandedInAllDirections (r : t) (amount : Z) : t :=
  mk (x r - amount) (y r - amount) (w r + 2 * amount) (h r + 2 * amount).

Definition getUnion (r rect : t) : t :=
  fromTRBL (Z.min (y r) (y rect)) (Z.max (right r) (right rect))
           (Z.max (bottom r) (bottom rect)) (Z.min (x r) (x rect)).

(** The tile [(px, py)] lies in the rectangle. *)
Definition containsTile (r : t) (px py : Z) : Prop :=
  x r <= px < right r /\ y r <= py < bottom r.
#[global] Instance containsTile_dec (r : t) (px py : Z) :
  Decision (containsTile r px py).
Proof. unfold containsTile. apply _. Defined.
End Rectangle.

(** ** Collaborators

    The components and services the ejector system calls but does not
    own.  Their state lives in [GameState]: the ejector system reaches it
    only through these methods. *)

(** What [ItemAcceptorComponent.findMatchingSlot] returns on a match. *)
Record MatchingSlot : Set := {
  index : nat;
  acceptedDirection : enumDirection.t
}.

Record GlobalConfig : Set := {
  itemSpacingOnBelts : Q;
  debug_renderChanges : bool;
  debug_instantBelts : bool
}.

Class Collaborators : Type := {
  BaseItem : Type;
  StaticMapEntityComponent : Type;
  ItemAcceptorComponent : Type;
  BeltComponent : Type;
  BeltPath : Type;
  StorageComponent : Type;
  ItemProcessorComponent : Type;
  UndergroundBeltComponent : Type;
  EnergyGeneratorComponent : Type;
  GameState : Type;

  G_IS_DEV : bool;
  globalConfig : GlobalConfig;

  (* the number format: the value an exact result is rounded to *)
  Number_round : Q -> Q;

  (* StaticMapEntityComponent *)
  getTileSpaceBounds : StaticMapEntityComponent -> Rectangle.t;
  localTileToWorld : StaticMapEntityComponent -> Vector.t -> Vector.t;
  localDirectionToWorld :
    StaticMapEntityComponent -> enumDirection.t -> enumDirection.t;
  worldToLocalTile : StaticMapEntityComponent -> Vector.t -> Vector.t;
  worldDirectionToLocal :
    StaticMapEntityComponent -> enumDirection.t -> enumDirection.t;

  (* ItemAcceptorComponent *)
  findMatchingSlot :
    ItemAcceptorComponent -> Vector.t -> enumDirection.t -> option MatchingSlot;
  canAcceptItem : ItemAcceptorComponent -> nat -> BaseItem -> GameState -> bool;
  onItemAccepted :
    ItemAcceptorComponent -> nat -> enumDirection.t -> BaseItem ->
    GameState -> GameState;

  (* BeltComponent and BeltPath *)
  assignedPath : BeltComponent -> GameState -> option BeltPath;
  BeltPath_tryAcceptItem : BeltPath -> BaseItem -> GameState -> bool * GameState;

  (* StorageComponent *)
  Storage_canAcceptItem : StorageComponent -> BaseItem -> GameState -> bool;
  Storage_takeItem : StorageComponent -> BaseItem -> GameState -> GameState;

  (* ItemProcessorComponent *)
  ItemProcessor_tryTakeItem :
    ItemProcessorComponent -> BaseItem -> nat -> GameState -> bool * GameState;

  (* UndergroundBeltComponent *)
  tryAcceptExternalItem :
    UndergroundBeltComponent -> BaseItem -> Q -> GameState -> bool * GameState;

  (* EnergyGeneratorComponent *)
  EnergyGenerator_tryTakeItem :
    EnergyGeneratorComponent -> BaseItem -> GameState -> bool * GameState;

  (* root.hubGoals *)
  getBeltBaseSpeed : GameState -> Q;
  getUndergroundBeltBaseSpeed : GameState -> Q;

  (* root.hud.parts.changesDebugger *)
  renderChange : string -> Rectangle.t -> string -> GameState -> GameState
}.

Definition uid : Set := nat.

Section Model.
Context `{Collaborators}.

(** ** Data model ([components/item_ejector], [entity]) *)

Record EjectorSlot : Type := {
  pos : Vector.t;
  direction : enumDirection.t;
  item : option BaseItem;
  progress : Q;
  cachedDestSlot : option MatchingSlot;
  cachedTargetEntity : option uid
}.

Record ItemEjectorComponent : Type := {
  slots : list EjectorSlot;
  cachedConnectedSlots : option (list nat)
}.

Record Components : Type := {
  StaticMapEntity : option StaticMapEntityComponent;
  ItemEjector : option ItemEjectorComponent;
  ItemAcceptor : option ItemAcceptorComponent;
  Belt : option BeltComponent;
  Storage : option StorageComponent;
  ItemProcessor : option ItemProcessorComponent;
  UndergroundBelt : option UndergroundBeltComponent;
  EnergyGenerator : option EnergyGeneratorComponent
}.

(** Modelled from the spec: the class [Entity] is not part of this file;
    [destroyed] records that the entity has been removed from the game
    while its object may still be referenced. *)
Record Entity : Type := {
  destroyed : bool;
  components : Components
}.

(** The ejector system ([this]) and what it reaches through
    [this.root]. *)
Record World : Type := {
  gameInitialized : bool;                 (* root.gameInitialized *)
  areaToRecompute : option Rectangle.t;   (* this.areaToRecompute *)
  allEntities : list uid;                 (* this.allEntities *)
  tiles : Z -> Z -> option uid;           (* root.map *)
  heap : uid -> Entity;
  game : GameState;
  deltaSeconds : Q                        (* root.dynamicTickrate *)
}.

Definition set_areaToRecompute (a : option Rectangle.t) (w : World) : World :=
  {| gameInitialized := gameInitialized w; areaToRecompute := a;
     allEntities := allEntities w; tiles := tiles w; heap := heap w;
     game := game w; deltaSeconds := deltaSeconds w |}.

Definition set_heap (hp : uid -> Entity) (w : World) : World :=
  {| gameInitialized := gameInitialized w;
     areaToRecompute := areaToRecompute w;
     allEntities := allEntities w; tiles := tiles w; heap := hp;
     game := game w; deltaSeconds := deltaSeconds w |}.

Definition set_game (g : GameState) (w : World) : World :=
  {| gameInitialized := gameInitialized w;
     areaToRecompute := areaToRecompute w;
     allEntities := allEntities w; tiles := tiles w; heap := heap w;
     game := g; deltaSeconds := deltaSeconds w |}.

Definition set_ItemEjector (c : option ItemEjectorComponent) (e : Entity)
  : Entity :=
  {| destroyed := destroyed e;
     components :=
       {| StaticMapEntity := StaticMapEntity (components e);
          ItemEjector := c;
          ItemAcceptor := ItemAcceptor (components e);
          Belt := Belt (components e);
          Storage := Storage (components e);
          ItemProcessor := ItemProcessor (components e);
          UndergroundBelt := UndergroundBelt (components e);
          EnergyGenerator := EnergyGenerator (components e) |} |}.

Definition set_destroyed (b : bool) (e : Entity) : Entity :=
  {| destroyed := b; components := components e |}.

Definition set_cachedConnectedSlots (l : option (list nat))
    (c : ItemEjectorComponent) : ItemEjectorComponent :=
  {| slots := slots c; cachedConnectedSlots := l |}.

Definition set_slots (l : list EjectorSlot) (c : ItemEjectorComponent)
  : ItemEjectorComponent :=
  {| slots := l; cachedConnectedSlots := cachedConnectedSlots c |}.

Definition set_cache (d : option MatchingSlot) (t : option uid)
    (s : EjectorSlot) : EjectorSlot :=
  {| pos := pos s; direction := direction s; item := item s;
     progress := progress s; cachedDestSlot := d; cachedTargetEntity := t |}.

Definition set_progress (p : Q) (s : EjectorSlot) : EjectorSlot :=
  {| pos := pos s; direction := direction s; item := item s;
     progress := p; cachedDestSlot := cachedDestSlot s;
     cachedTargetEntity := cachedTargetEntity s |}.

Definition set_item (i : option BaseItem) (s : EjectorSlot) : EjectorSlot :=
  {| pos := pos s; direction := direction s; item := i;
     progress := progress s; cachedDestSlot := cachedDestSlot s;
     cachedTargetEntity := cachedTargetEntity s |}.

(** ** The monad of method bodies *)

Inductive Exception : Set :=
| TypeError
| AssertionError (msg : string).

Inductive Outcome (A : Type) : Type :=
| Ok (a : A) (w : World)
| Throw (e : Exception) (w : World).
Global Arguments Ok {A} a w.
Global Arguments Throw {A} e w.

Definition M (A : Type) : Type := World -> Outcome A.

Definition ret {A} (a : A) : M A := fun w => Ok a w.

Definition bind {A B} (m : M A) (k : A -> M B) : M B :=
  fun w => match m w with
           | Ok a w' => k a w'
           | Throw e w' => Throw e w'
           end.

Definition throw {A} (e : Exception) : M A := fun w => Throw e w.
Definition gets {A} (f : World -> A) : M A := fun w => Ok (f w) w.
Definition modify (f : World -> World) : M unit := fun w => Ok tt (f w).

(** The world an outcome ends in, returned or thrown. *)
Definition final {A} (o : Outcome A) : World :=
  match o with Ok _ w => w | Throw _ w => w end.
End Model.

Notation "'do' x <- m ; k" := (bind m (fun x => k))
  (at level 10, x name, m at level 100, k at level 200,
   format "'[v' 'do'  x  <-  m ; '/' k ']'").
Notation "m ;; k" := (bind m (fun _ => k))
  (at level 100, k at level 200, right associativity).

Section System.
Context `{Collaborators}.

(** ** Reading and writing objects *)

(** [for (...) { body }] over the values the loop variable takes. *)
Fixpoint forEach {A} (l : list A) (body : A -> M unit) : M unit :=
  match l with
  | [] => ret tt
  | a :: l' => body a ;; forEach l' body
  end.

(** The same with a local variable [s] the body updates. *)
Fixpoint foldEach {A S} (l : list A) (s : S) (body : S -> A -> M S) : M S :=
  match l with
  | [] => ret s
  | a :: l' => do s' <- body s a; foldEach l' s' body
  end.

(** A property access on a value that may be [null] or [undefined]. *)
Definition deref {A} (o : option A) : M A :=
  match o with
  | Some a => ret a
  | None => throw TypeError
  end.

(** [entity.components.C] *)
Definition component {A} (C : Components -> option A) (entity : uid)
  : M (option A) :=
  gets (fun w => C (components (heap w entity))).

(** The fields of [entity.components.ItemEjector]. *)
Definition readEjector (entity : uid) : M ItemEjectorComponent :=
  do c <- component ItemEjector entity;
  deref c.

Definition writeEjector (entity : uid)
    (f : ItemEjectorComponent -> ItemEjectorComponent) : M unit :=
  do c <- readEjector entity;
  modify (fun w =>
    set_heap (<[entity := set_ItemEjector (Some (f c)) (heap w entity)]> (heap w)) w).

(** The fields of the slot object [entity.components.ItemEjector.slots[i]]. *)
Definition readSlot (entity : uid) (i : nat) : M EjectorSlot :=
  do c <- readEjector entity;
  deref (slots c !! i).

Definition writeSlot (entity : uid) (i : nat)
    (f : EjectorSlot -> EjectorSlot) : M unit :=
  do s <- readSlot entity i;
  writeEjector entity (fun c => set_slots (<[i := f s]> (slots c)) c).

(** Calls into the collaborators. *)
Definition query {A} (f : GameState -> A) : M A :=
  gets (fun w => f (game w)).

Definition call {A} (f : GameState -> A * GameState) : M A :=
  fun w => Ok (fst (f (game w))) (set_game (snd (f (game w))) w).

Definition call_ (f : GameState -> GameState) : M unit :=
  modify (fun w => set_game (f (game w)) w).

(** Modelled from the spec: the global [assert] is not part of this file;
    a failed assertion is fatal and "aborts loudly". *)
Definition assert {A} (condition : option A) (msg : string) : M A :=
  match condition with
  | Some a => ret a
  | None => throw (AssertionError msg)
  end.

(** [root.map.getTileContentXY(x, y)] and [root.map.getTileContent(tile)] *)
Definition getTileContentXY (x y : Z) : M (option uid) :=
  gets (fun w => tiles w x y).

Definition getTileContent (tile : Vector.t) : M (option uid) :=
  getTileContentXY (Vector.x tile) (Vector.y tile).

(** The operators [+], [*] and [/] on numbers. *)
Definition Number_add (a b : Q) : Q := Number_round (a + b)%Q.
Definition Number_mul (a b : Q) : Q := Number_round (a * b)%Q.
Definition Number_div (a b : Q) : Q := Number_round (a / b)%Q.

Definition Math_min (a b : Q) : Q := Qmin a b.

Definition Qltb (a b : Q) : bool := negb (Qle_bool b a).

(** ** [ItemEjectorSystem] *)

(** [checkForCacheInvalidation(entity)], the handler of the signals
    [entityAdded] and [entityDestroyed]. *)
Definition checkForCacheInvalidation (entity : uid) : M unit :=
  do initialized <- gets gameInitialized;
  if negb initialized then ret tt else
  do staticComp <- component StaticMapEntity entity;
  match staticComp with
  | None => ret tt
  | Some staticComp =>
      let bounds := getTileSpaceBounds staticComp in
      let expandedBounds := Rectangle.expandedInAllDirections bounds 2 in
      do area <- gets areaToRecompute;
      match area with
      | Some area =>
          modify (set_areaToRecompute
                    (Some (Rectangle.getUnion area expandedBounds)))
      | None => modify (set_areaToRecompute (Some expandedBounds))
      end
  end.

(** The body of the loop of [recomputeSingleEntityCache] over the slots
    of the ejector component; [staticComp] is
    [entity.components.StaticMapEntity]. *)
Definition recomputeSlot (staticComp : option StaticMapEntityComponent)
    (entity : uid) (ejectorSlotIndex : nat) : M unit :=
  (* Clear the old cache. *)
  writeSlot entity ejectorSlotIndex (set_cache None None) ;;
  do ejectorSlot <- readSlot entity ejectorSlotIndex;
  (* Figure out where and into which direction we eject items *)
  do staticComp <- deref staticComp;
  let ejectSlotWsTile := localTileToWorld staticComp (pos ejectorSlot) in
  let ejectSlotWsDirection :=
    localDirectionToWorld staticComp (direction ejectorSlot) in
  let ejectSlotWsDirectionVector :=
    enumDirectionToVector ejectSlotWsDirection in
  let ejectSlotTargetWsTile :=
    Vector.add ejectSlotWsTile ejectSlotWsDirectionVector in
  (* Try to find the given acceptor component to take the item *)
  do targetEntity <- getTileContent ejectSlotTargetWsTile;
  match targetEntity with
  | None => ret tt (* No consumer for item *)
  | Some targetEntity =>
      do targetAcceptorComp <- component ItemAcceptor targetEntity;
      do targetStaticComp <- component StaticMapEntity targetEntity;
      match targetAcceptorComp with
      | None => ret tt (* Entity doesn't accept items *)
      | Some targetAcceptorComp =>
          do targetStaticComp <- deref targetStaticComp;
          match findMatchingSlot targetAcceptorComp
                  (worldToLocalTile targetStaticComp ejectSlotTargetWsTile)
                  (worldDirectionToLocal targetStaticComp ejectSlotWsDirection)
          with
          | None => ret tt (* No matching slot found *)
          | Some matchingSlot =>
              (* Ok we found a connection *)
              do ejectorComp <- readEjector entity;
              match cachedConnectedSlots ejectorComp with
              | Some connected =>
                  writeEjector entity
                    (set_cachedConnectedSlots
                       (Some (connected ++ [ejectorSlotIndex])))
              | None =>
                  writeEjector entity
                    (set_cachedConnectedSlots (Some [ejectorSlotIndex]))
              end ;;
              writeSlot entity ejectorSlotIndex
                (set_cache (Some matchingSlot) (Some targetEntity))
          end
      end
  end.

(** [recomputeSingleEntityCache(entity)] *)
Definition recomputeSingleEntityCache (entity : uid) : M unit :=
  do staticComp <- component StaticMapEntity entity;
  (* Clear the old cache. *)
  writeEjector entity (set_cachedConnectedSlots None) ;;
  do ejectorComp <- readEjector entity;
  forEach (seq 0 (length (slots ejectorComp)))
    (recomputeSlot staticComp entity).

(** The body of the inner loop of [recomputeAreaCache]: the tile
    [(x, y)]; [recomputedEntities] is the set of the [uid]s of the
    entities recomputed so far. *)
Definition recomputeTile (recomputedEntities : gset uid) (x y : Z)
  : M (gset uid) :=
  do entity <- getTileContentXY x y;
  match entity with
  | None => ret recomputedEntities
  | Some entity =>
      (* Recompute the entity in case its relevant for this system
         and it hasn't already been computed *)
      do ejectorComp <- component ItemEjector entity;
      if negb (bool_decide (entity ∈ recomputedEntities))
         && bool_decide (is_Some ejectorComp)
      then recomputeSingleEntityCache entity ;;
           ret ({[entity]} ∪ recomputedEntities)
      else ret recomputedEntities
  end.

(** [recomputeAreaCache(area)] *)
Definition recomputeAreaCache (area : Rectangle.t) : M Z :=
  let entryCount := 0 in
  (* Store the entities we already recomputed, so we don't do work twice *)
  let recomputedEntities : gset uid := ∅ in
  foldEach (seqZ (Rectangle.x area) (Rectangle.right area - Rectangle.x area))
    recomputedEntities (fun recomputedEntities x =>
      foldEach
        (seqZ (Rectangle.y area) (Rectangle.bottom area - Rectangle.y area))
        recomputedEntities (fun recomputedEntities y =>
          recomputeTile recomputedEntities x y)) ;;
  ret entryCount.

(** [recomputeCache()] *)
Definition recomputeCache : M unit :=
  do area <- gets areaToRecompute;
  match area with
  | Some area =>
      (if G_IS_DEV && debug_renderChanges globalConfig
       then call_ (renderChange "ejector-area" area "#fe50a6")
       else ret tt) ;;
      recomputeAreaCache area ;;
      modify (set_areaToRecompute None)
  | None =>
      (if G_IS_DEV && debug_renderChanges globalConfig
       then call_ (renderChange "ejector-full"
                     (Rectangle.mk (-1000) (-1000) 2000 2000) "#fe50a6")
       else ret tt) ;;
      (* Try to find acceptors for every ejector *)
      do entities <- gets allEntities;
      forEach entities recomputeSingleEntityCache
  end.

(** [tryPassOverItem(item, receiver, slotIndex)] *)
Definition tryPassOverItem (item : BaseItem) (receiver : uid)
    (slotIndex : nat) : M bool :=
  do beltComp <- component Belt receiver;
  do accepted <-
    match beltComp with
    | Some beltComp =>
        do path <- query (assignedPath beltComp);
        do path <- assert path "belt has no path";
        call (BeltPath_tryAcceptItem path item)
    | None => ret false
    end;
  if accepted then ret true else
  do storageComp <- component Storage receiver;
  do accepted <-
    match storageComp with
    | Some storageComp =>
        (* It's a storage *)
        do can <- query (Storage_canAcceptItem storageComp item);
        if can
        then call_ (Storage_takeItem storageComp item) ;; ret true
        else ret false
    | None => ret false
    end;
  if accepted then ret true else
  do itemProcessorComp <- component ItemProcessor receiver;
  do accepted <-
    match itemProcessorComp with
    | Some itemProcessorComp =>
        (* Its an item processor .. *)
        call (ItemProcessor_tryTakeItem itemProcessorComp item slotIndex)
    | None => ret false
    end;
  if accepted then ret true else
  do undergroundBeltComp <- component UndergroundBelt receiver;
  do accepted <-
    match undergroundBeltComp with
    | Some undergroundBeltComp =>
        (* Its an underground belt. yay. *)
        do speed <- query getUndergroundBeltBaseSpeed;
        call (tryAcceptExternalItem undergroundBeltComp item speed)
    | None => ret false
    end;
  if accepted then ret true else
  do energyGeneratorComp <- component EnergyGenerator receiver;
  do accepted <-
    match energyGeneratorComp with
    | Some energyGeneratorComp =>
        call (EnergyGenerator_tryTakeItem energyGeneratorComp item)
    | None => ret false
    end;
  if accepted then ret true (* Passed it over *) else
  ret false.

(** The body of the inner loop of [update]: one cached slot of one
    entity.  [sourceSlot] is the reference held by
    [cachedConnectedSlots[j]]. *)
Definition updateSlot (progressGrowth : Q) (sourceEntity : uid)
    (sourceSlot : nat) : M unit :=
  do slot <- readSlot sourceEntity sourceSlot;
  let destSlot := cachedDestSlot slot in
  let targetEntity := cachedTargetEntity slot in
  match item slot with
  | None => ret tt (* No item available to be ejected *)
  | Some item =>
      (* Advance items on the slot *)
      writeSlot sourceEntity sourceSlot
        (set_progress
           (Math_min 1 (Number_add (progress slot) progressGrowth))) ;;
      (* Check if we are still in the process of ejecting, can't proceed then *)
      do slot <- readSlot sourceEntity sourceSlot;
      if Qltb (progress slot) 1 then ret tt else
      (* Check if the target acceptor can actually accept this item *)
      do targetEntity <- deref targetEntity;
      do targetAcceptorComp <- component ItemAcceptor targetEntity;
      do targetAcceptorComp <- deref targetAcceptorComp;
      do destSlot <- deref destSlot;
      do can <- query (canAcceptItem targetAcceptorComp (index destSlot) item);
      if negb can then ret tt else
      (* Try to hand over the item *)
      do passed <- tryPassOverItem item targetEntity (index destSlot);
      if passed
      then (* Handover successful, clear slot *)
        call_ (onItemAccepted targetAcceptorComp (index destSlot)
                 (acceptedDirection destSlot) item) ;;
        writeSlot sourceEntity sourceSlot (set_item None)
      else ret tt
  end.

(** The growth of the progress of every slot in this tick. *)
Definition progressGrowth : M Q :=
  do speed <- query getBeltBaseSpeed;
  (* Precompute effective belt speed *)
  let effectiveBeltSpeed :=
    Number_mul speed (itemSpacingOnBelts globalConfig) in
  do delta <- gets deltaSeconds;
  let progressGrowth :=
    Number_mul (Number_div effectiveBeltSpeed (1 # 2)) delta in
  if G_IS_DEV && debug_instantBelts globalConfig
  then ret 1%Q
  else ret progressGrowth.

(** The loop of [update] over all cache entries. *)
Definition transferItems (progressGrowth : Q) : M unit :=
  do entities <- gets allEntities;
  forEach entities (fun sourceEntity =>
    do sourceEjectorComp <- readEjector sourceEntity;
    match cachedConnectedSlots sourceEjectorComp with
    | None => ret tt
    | Some connected =>
        forEach connected (updateSlot progressGrowth sourceEntity)
    end).

(** [update()] *)
Definition update : M unit :=
  do area <- gets areaToRecompute;
  match area with
  | Some _ => recomputeCache
  | None => ret tt
  end ;;
  do growth <- progressGrowth;
  (* Go over all cache entries *)
  transferItems growth.

End System.

(** ** Presentation

    What [drawSingleEntity] calls beyond the collaborators of the
    simulation: the visibility test and the placement fields of
    [StaticMapEntityComponent], the rotation helpers of [core/vector],
    [globalConfig.tileSize] and the [draw] method of an item, which
    paints on the canvas of the draw parameters; the canvas is part of
    the state of the collaborators.  These methods are taken to return.
    Positions are JavaScript numbers and are modelled, as the progress
    is, by exact rationals.  [draw] itself hands [drawSingleEntity] to
    [forEachMatchingEntityOnScreen] of the base class, which is not part
    of this file, and is left out. *)
Class Drawing `{Collaborators} : Type := {
  DrawParameters : Type;
  shouldBeDrawn :
    StaticMapEntityComponent -> DrawParameters -> GameState -> bool;
  origin : StaticMapEntityComponent -> Vector.t;
  rotation : StaticMapEntityComponent -> Z;
  rotateFastMultipleOf90 : Vector.t -> Z -> Vector.t;
  transformDirectionFromMultipleOf90 :
    enumDirection.t -> Z -> enumDirection.t;
  tileSize : Q;
  BaseItem_draw : BaseItem -> Q -> Q -> DrawParameters -> GameState -> GameState
}.

Section Draw.
Context `{Drawing}.

(** The world position at which [drawSingleEntity] draws the item of a
    slot. *)
Definition ejectedItemPosition (staticComp : StaticMapEntityComponent)
    (slot : EjectorSlot) : Q * Q :=
  let realPosition :=
    rotateFastMultipleOf90 (pos slot) (rotation staticComp) in
  let realDirection :=
    transformDirectionFromMultipleOf90 (direction slot) (rotation staticComp) in
  let realDirectionVector := enumDirectionToVector realDirection in
  let tileX :=
    (inject_Z (Vector.x (origin staticComp))
     + inject_Z (Vector.x realPosition) + (1 # 2)
     + inject_Z (Vector.x realDirectionVector) * (1 # 2) * progress slot)%Q in
  let tileY :=
    (inject_Z (Vector.y (origin staticComp))
     + inject_Z (Vector.y realPosition) + (1 # 2)
     + inject_Z (Vector.y realDirectionVector) * (1 # 2) * progress slot)%Q in
  let worldX := (tileX * tileSize)%Q in
  let worldY := (tileY * tileSize)%Q in
  (worldX, worldY).

(** The body of the loop of [drawSingleEntity] over the slots. *)
Definition drawSlot (parameters : DrawParameters)
    (staticComp : StaticMapEntityComponent) (entity : uid) (i : nat)
  : M unit :=
  do slot <- readSlot entity i;
  match item slot with
  | None => ret tt (* No item *)
  | Some ejectedItem =>
      let position := ejectedItemPosition staticComp slot in
      call_ (BaseItem_draw ejectedItem position.1 position.2 parameters)
  end.

(** [drawSingleEntity(parameters, entity)] *)
Definition drawSingleEntity (parameters : DrawParameters) (entity : uid)
  : M unit :=
  do ejectorComp <- component ItemEjector entity;
  do staticComp <- component StaticMapEntity entity;
  do staticComp <- deref staticComp;
  do visible <- query (shouldBeDrawn staticComp parameters);
  if negb visible then ret tt else
  do ejectorComp <- deref ejectorComp;
  forEach (seq 0 (length (slots ejectorComp)))
    (drawSlot parameters staticComp entity).

End Draw.

(** ** Specification-level definitions

    What the claims say, written without the monad, to be compared with
    the methods above. *)

Section Specification.
Context `{Collaborators}.

(** *** Objects in a world *)

(** [entity.components.ItemEjector] and its slot [i], when they exist. *)
Definition ejectorOf (w : World) (entity : uid) : option ItemEjectorComponent :=
  ItemEjector (components (heap w entity)).

Definition slotOf (w : World) (entity : uid) (i : nat) : option EjectorSlot :=
  c ← ejectorOf w entity; slots c !! i.

(** The world after the fields of the ejector component of [entity], or
    of its slot [i], have been assigned. *)
Definition putEjector (entity : uid) (c : ItemEjectorComponent) (w : World)
  : World :=
  set_heap (<[entity := set_ItemEjector (Some c) (heap w entity)]> (heap w)) w.

Definition putSlot (entity : uid) (i : nat) (s : EjectorSlot) (w : World)
  : World :=
  match ejectorOf w entity with
  | Some c => putEjector entity (set_slots (<[i := s]> (slots c)) c) w
  | None => w
  end.

(** *** The connectivity cache *)

(** Where a slot of an entity placed by [staticComp] ejects: the world
    direction, and the tile next to the slot in that direction. *)
Definition ejectDirection (staticComp : StaticMapEntityComponent)
    (s : EjectorSlot) : enumDirection.t :=
  localDirectionToWorld staticComp (direction s).

Definition targetTile (staticComp : StaticMapEntityComponent)
    (s : EjectorSlot) : Vector.t :=
  Vector.add (localTileToWorld staticComp (pos s))
             (enumDirectionToVector (ejectDirection staticComp s)).

(** The connection of a slot: the entity on the target tile, when it has
    an acceptor component with a slot that matches the target tile and
    the ejection direction, both taken to the local space of that
    entity. *)
Definition connectionOf (w : World) (staticComp : StaticMapEntityComponent)
    (s : EjectorSlot) : option (uid * MatchingSlot) :=
  let tile := targetTile staticComp s in
  targetEntity ← tiles w (Vector.x tile) (Vector.y tile);
  targetAcceptorComp ← ItemAcceptor (components (heap w targetEntity));
  targetStaticComp ← StaticMapEntity (components (heap w targetEntity));
  matchingSlot ← findMatchingSlot targetAcceptorComp
                   (worldToLocalTile targetStaticComp tile)
                   (worldDirectionToLocal targetStaticComp
                      (ejectDirection staticComp s));
  Some (targetEntity, matchingSlot).

(** The slot with its cache fields set to a connection, or cleared. *)
Definition connect (conn : option (uid * MatchingSlot)) (s : EjectorSlot)
  : EjectorSlot :=
  match conn with
  | Some (targetEntity, matchingSlot) =>
      set_cache (Some matchingSlot) (Some targetEntity) s
  | None => set_cache None None s
  end.

(** The indices, counted from [k], of the slots that have a connection. *)
Fixpoint connectedFrom (k : nat) (conns : list (option (uid * MatchingSlot)))
  : list nat :=
  match conns with
  | [] => []
  | Some _ :: conns' => k :: connectedFrom (S k) conns'
  | None :: conns' => connectedFrom (S k) conns'
  end.

(** [cachedConnectedSlots] after the slots [l] have been pushed: the
    array is only created by the first push. *)
Definition pushed (cached : option (list nat)) (l : list nat)
  : option (list nat) :=
  match cached, l with
  | Some connected, _ => Some (connected ++ l)
  | None, [] => None
  | None, _ => Some l
  end.

(** The ejector component with the cache rebuilt from the connections of
    its slots. *)
Definition rebuilt (c : ItemEjectorComponent)
    (conns : list (option (uid * MatchingSlot))) : ItemEjectorComponent :=
  {| slots := zip_with (fun s conn => connect conn s) (slots c) conns;
     cachedConnectedSlots := pushed None (connectedFrom 0 conns) |}.

(** The component after the loop body has run for slot [i]. *)
Definition stepped (c : ItemEjectorComponent) (i : nat) (s : EjectorSlot)
    (conn : option (uid * MatchingSlot)) : ItemEjectorComponent :=
  {| slots := <[i := connect conn s]> (slots c);
     cachedConnectedSlots :=
       match conn with
       | Some _ => pushed (cachedConnectedSlots c) [i]
       | None => cachedConnectedSlots c
       end |}.

(** What the loop body of [recomputeSingleEntityCache] finds for a slot:
    [None] where it throws a [TypeError] (the entity has no
    [StaticMapEntity] component, or the entity on the target tile has an
    acceptor but no [StaticMapEntity] component). *)
Definition resolveSlot (w : World)
    (staticComp : option StaticMapEntityComponent) (s : EjectorSlot)
  : option (option (uid * MatchingSlot)) :=
  staticComp ← staticComp;
  let tile := targetTile staticComp s in
  match tiles w (Vector.x tile) (Vector.y tile) with
  | None => Some None
  | Some targetEntity =>
      match ItemAcceptor (components (heap w targetEntity)) with
      | None => Some None
      | Some targetAcceptorComp =>
          targetStaticComp ← StaticMapEntity (components (heap w targetEntity));
          Some ((fun matchingSlot => (targetEntity, matchingSlot)) <$>
                findMatchingSlot targetAcceptorComp
                  (worldToLocalTile targetStaticComp tile)
                  (worldDirectionToLocal targetStaticComp
                     (ejectDirection staticComp s)))
      end
  end.

(** The ejector component [recomputeSingleEntityCache(entity)] leaves
    behind, [None] where it throws. *)
Definition recomputation (w : World) (entity : uid)
  : option ItemEjectorComponent :=
  c ← ejectorOf w entity;
  conns ← mapM (resolveSlot w (StaticMapEntity (components (heap w entity))))
              (slots c);
  Some (rebuilt c conns).

(** [w'] is [w] with the ejector component of [entity] replaced by [c]. *)
Definition ejectorUpdated (entity : uid) (c : ItemEjectorComponent)
    (w w' : World) : Prop :=
  gameInitialized w' = gameInitialized w /\
  areaToRecompute w' = areaToRecompute w /\
  allEntities w' = allEntities w /\
  tiles w' = tiles w /\
  game w' = game w /\
  deltaSeconds w' = deltaSeconds w /\
  heap w' entity = set_ItemEjector (Some c) (heap w entity) /\
  (forall v, v <> entity -> heap w' v = heap w v).

(** The entity as [recomputeSingleEntityCache] leaves it. *)
Definition recomputedEntity (w : World) (entity : uid) : Entity :=
  match recomputation w entity with
  | Some c => set_ItemEjector (Some c) (heap w entity)
  | None => heap w entity
  end.

(** The heap of [w'] is the heap of [w] with the entities of [done]
    recomputed. *)
Definition recomputedOn (w : World) (done : gset uid) (w' : World) : Prop :=
  forall v, heap w' v
            = if decide (v ∈ done) then recomputedEntity w v else heap w v.

(** The tiles of a rectangle, in the order [recomputeAreaCache] visits
    them. *)
Definition areaTiles (area : Rectangle.t) : list (Z * Z) :=
  x ← seqZ (Rectangle.x area) (Rectangle.right area - Rectangle.x area);
  (fun y => (x, y)) <$>
    seqZ (Rectangle.y area) (Rectangle.bottom area - Rectangle.y area).

(** The entities [recomputeAreaCache] recomputes on the tiles [ps],
    added to [done]; [None] where one of the recomputations throws. *)
Fixpoint areaRun (w : World) (ps : list (Z * Z)) (done : gset uid)
  : option (gset uid) :=
  match ps with
  | [] => Some done
  | (x, y) :: ps' =>
      match tiles w x y with
      | None => areaRun w ps' done
      | Some entity =>
          if negb (bool_decide (entity ∈ done))
             && bool_decide (is_Some (ejectorOf w entity))
          then _ ← recomputation w entity; areaRun w ps' ({[entity]} ∪ done)
          else areaRun w ps' done
      end
  end.

(** The same for the loop of the full recomputation over [allEntities]. *)
Fixpoint fullRun (w : World) (entities : list uid) (done : gset uid)
  : option (gset uid) :=
  match entities with
  | [] => Some done
  | entity :: entities' =>
      _ ← recomputation w entity; fullRun w entities' ({[entity]} ∪ done)
  end.

(** *** Edits of the map

    Modelled from the spec: placing and removing entities is not part of
    this file.  An added entity is a new object with a [uid] that is not
    in use; it occupies the tiles of its tile-space bounds, which were
    free, and is registered with the ejector system when it carries an
    ejector component.  A removed entity leaves the tiles it occupied,
    is marked destroyed and is taken off the list of the system; its
    object stays in the heap.  Either edit is followed by its signal,
    [entityAdded] or [entityDestroyed], which runs
    [checkForCacheInvalidation]. *)

Definition placeEntity (entity : uid) (object : Entity)
    (bounds : Rectangle.t) (w : World) : World :=
  {| gameInitialized := gameInitialized w;
     areaToRecompute := areaToRecompute w;
     allEntities :=
       match ItemEjector (components object) with
       | Some _ => allEntities w ++ [entity]
       | None => allEntities w
       end;
     tiles := fun x y =>
       if decide (Rectangle.containsTile bounds x y) then Some entity
       else tiles w x y;
     heap := <[entity := object]> (heap w);
     game := game w;
     deltaSeconds := deltaSeconds w |}.

Definition removeEntity (entity : uid) (w : World) : World :=
  {| gameInitialized := gameInitialized w;
     areaToRecompute := areaToRecompute w;
     allEntities := filter (fun v => v <> entity) (allEntities w);
     tiles := fun x y =>
       if decide (tiles w x y = Some entity) then None else tiles w x y;
     heap := <[entity := set_destroyed true (heap w entity)]> (heap w);
     game := game w;
     deltaSeconds := deltaSeconds w |}.

Inductive edit : World -> World -> Prop :=
| entity_added w entity object staticComp :
    StaticMapEntity (components object) = Some staticComp ->
    0 < Rectangle.w (getTileSpaceBounds staticComp) ->
    0 < Rectangle.h (getTileSpaceBounds staticComp) ->
    (* the tiles of the entity are free *)
    (forall x y,
       Rectangle.containsTile (getTileSpaceBounds staticComp) x y ->
       tiles w x y = None) ->
    (* its uid is not in use *)
    (forall x y, tiles w x y <> Some entity) ->
    entity ∉ allEntities w ->
    (* its ejector slots lie on its own tiles *)
    (forall c s,
       ItemEjector (components object) = Some c -> s ∈ slots c ->
       Rectangle.containsTile (getTileSpaceBounds staticComp)
         (Vector.x (localTileToWorld staticComp (pos s)))
         (Vector.y (localTileToWorld staticComp (pos s)))) ->
    edit w
      (final (checkForCacheInvalidation entity
                (placeEntity entity object (getTileSpaceBounds staticComp) w)))
| entity_removed w entity staticComp :
    StaticMapEntity (components (heap w entity)) = Some staticComp ->
    (* the entity occupies tiles of its bounds only *)
    (forall x y,
       tiles w x y = Some entity ->
       Rectangle.containsTile (getTileSpaceBounds staticComp) x y) ->
    edit w (final (checkForCacheInvalidation entity (removeEntity entity w))).

(** The entities of the system are placed ejectors whose slots lie on
    tiles of their own, and every entity on the map is placed and, when
    it is an ejector, registered with the system. *)
Definition wellPlaced (w : World) : Prop :=
  (forall v, v ∈ allEntities w ->
     exists c staticComp,
       ejectorOf w v = Some c /\
       StaticMapEntity (components (heap w v)) = Some staticComp /\
       forall s, s ∈ slots c ->
         tiles w (Vector.x (localTileToWorld staticComp (pos s)))
                 (Vector.y (localTileToWorld staticComp (pos s))) = Some v) /\
  (forall x y v, tiles w x y = Some v ->
     is_Some (StaticMapEntity (components (heap w v))) /\
     (is_Some (ejectorOf w v) -> v ∈ allEntities w)).

(** The cache of an entity is what a recomputation would give. *)
Definition upToDate (w : World) (entity : uid) : Prop :=
  recomputation w entity = ejectorOf w entity.

(** Every entity of the system is up to date, or has a tile in the
    pending area. *)
Definition pendingOrUpToDate (w : World) : Prop :=
  forall v, v ∈ allEntities w ->
    upToDate w v \/
    exists area x y,
      areaToRecompute w = Some area /\ Rectangle.containsTile area x y /\
      tiles w x y = Some v.

(** What holds after any sequence of edits. *)
Definition editInvariant (w : World) : Prop :=
  wellPlaced w /\
  (gameInitialized w = true -> pendingOrUpToDate w) /\
  (gameInitialized w = false -> areaToRecompute w = None).

(** The cache state: the cached connected slots of every ejector and the
    cached destination and target of every slot. *)
Definition cacheOf (s : EjectorSlot) : option MatchingSlot * option uid :=
  (cachedDestSlot s, cachedTargetEntity s).

Definition sameCache (w w' : World) : Prop :=
  (forall v, cachedConnectedSlots <$> ejectorOf w' v
             = cachedConnectedSlots <$> ejectorOf w v) /\
  (forall v j, cacheOf <$> slotOf w' v j = cacheOf <$> slotOf w v j).

(** *** The handover dispatcher *)

(** The structural capabilities a receiver may have. *)
Inductive Capability : Set :=
| BeltPathCapability
| StorageCapability
| ItemProcessorCapability
| UndergroundBeltCapability
| EnergyGeneratorCapability.

(** The fixed priority order of the dispatcher. *)
Definition handoverPriority : list Capability :=
  [BeltPathCapability; StorageCapability; ItemProcessorCapability;
   UndergroundBeltCapability; EnergyGeneratorCapability].

(** Offering the item to one capability of the receiver: [None] when the
    receiver does not have it, else whether it accepted and the state of
    the game after the attempt.  The underground belt is given the
    transport speed of [root.hubGoals]. *)
Definition offer (cap : Capability) (receiver : Components) (item : BaseItem)
    (slotIndex : nat) (g : GameState) : option (bool * GameState) :=
  match cap with
  | BeltPathCapability =>
      beltComp ← Belt receiver;
      path ← assignedPath beltComp g;
      Some (BeltPath_tryAcceptItem path item g)
  | StorageCapability =>
      storageComp ← Storage receiver;
      Some (if Storage_canAcceptItem storageComp item g
            then (true, Storage_takeItem storageComp item g)
            else (false, g))
  | ItemProcessorCapability =>
      itemProcessorComp ← ItemProcessor receiver;
      Some (ItemProcessor_tryTakeItem itemProcessorComp item slotIndex g)
  | UndergroundBeltCapability =>
      undergroundBeltComp ← UndergroundBelt receiver;
      Some (tryAcceptExternalItem undergroundBeltComp item
              (getUndergroundBeltBaseSpeed g) g)
  | EnergyGeneratorCapability =>
      energyGeneratorComp ← EnergyGenerator receiver;
      Some (EnergyGenerator_tryTakeItem energyGeneratorComp item g)
  end.

(** Try the capabilities in the order of the list; stop at the first one
    that accepts. *)
Fixpoint firstAccepting (caps : list Capability) (receiver : Components)
    (item : BaseItem) (slotIndex : nat) (g : GameState) : bool * GameState :=
  match caps with
  | [] => (false, g)
  | cap :: caps' =>
      match offer cap receiver item slotIndex g with
      | Some (true, g') => (true, g')
      | Some (false, g') => firstAccepting caps' receiver item slotIndex g'
      | None => firstAccepting caps' receiver item slotIndex g
      end
  end.

(** The precondition of the dispatcher: a belt is registered to a path. *)
Definition beltHasPath (receiver : Components) (g : GameState) : Prop :=
  forall beltComp, Belt receiver = Some beltComp ->
    is_Some (assignedPath beltComp g).

(** *** The transfer scheduler *)

(** The progress growth [update] computes in world [w]. *)
Definition growthOf (w : World) : Q :=
  match progressGrowth w with
  | Ok growth _ => growth
  | Throw _ _ => 0%Q
  end.

(** What the transfer loop needs of the number format: rounding is
    monotone, it leaves 0 and 1 as they are, and it leaves a rounded
    number as it is. *)
Definition roundsToFormat : Prop :=
  (forall x y, (x <= y)%Q -> (Number_round x <= Number_round y)%Q) /\
  (Number_round 0 == 0)%Q /\ (Number_round 1 == 1)%Q /\
  (forall x, (Number_round (Number_round x) == Number_round x)%Q).

(** [x] is a number of the format. *)
Definition representable (x : Q) : Prop := (Number_round x == x)%Q.

(** The first statement of [update]: consume the pending area. *)
Definition consumePending : M unit :=
  do area <- gets areaToRecompute;
  match area with
  | Some _ => recomputeCache
  | None => ret tt
  end.

(** Two entity objects that differ at most in their ejector component. *)
Definition sameReceiver (e e' : Entity) : Prop :=
  destroyed e' = destroyed e /\
  StaticMapEntity (components e') = StaticMapEntity (components e) /\
  ItemAcceptor (components e') = ItemAcceptor (components e) /\
  Belt (components e') = Belt (components e) /\
  Storage (components e') = Storage (components e) /\
  ItemProcessor (components e') = ItemProcessor (components e) /\
  UndergroundBelt (components e') = UndergroundBelt (components e) /\
  EnergyGenerator (components e') = EnergyGenerator (components e).

(** A recomputation of the cache only writes cache fields: it leaves the
    geometry, the item and the progress of every slot. *)
Definition slotFrame (s s' : EjectorSlot) : Prop :=
  pos s' = pos s /\ direction s' = direction s /\
  item s' = item s /\ progress s' = progress s.

Definition cacheStep (w w' : World) : Prop :=
  allEntities w' = allEntities w /\ tiles w' = tiles w /\
  deltaSeconds w' = deltaSeconds w /\
  (forall v, sameReceiver (heap w v) (heap w' v)) /\
  (forall v, is_Some (ejectorOf w' v) <-> is_Some (ejectorOf w v)) /\
  (forall v j s, slotOf w v j = Some s ->
     exists s', slotOf w' v j = Some s' /\ slotFrame s s') /\
  (forall v j, slotOf w v j = None -> slotOf w' v j = None).

(** The body of the outer loop of [update]: the visit of the cached
    slots of one entity. *)
Definition transferEntity (progressGrowth : Q) (sourceEntity : uid)
  : M unit :=
  do sourceEjectorComp <- readEjector sourceEntity;
  match cachedConnectedSlots sourceEjectorComp with
  | None => ret tt
  | Some connected =>
      forEach connected (updateSlot progressGrowth sourceEntity)
  end.

(** Ticks of the game, seen from slot [i] of [entity]: between two runs
    of [update] the other systems may change the world in any way that
    leaves this slot as it is; the time step is not negative. *)
Inductive ticks (entity : uid) (i : nat) : World -> World -> Prop :=
| ticks_none w : ticks entity i w w
| ticks_more w w1 w2 w3 :
    ticks entity i w w1 ->
    slotOf w2 entity i = slotOf w1 entity i ->
    (0 <= deltaSeconds w2)%Q ->
    w3 = final (update w2) ->
    ticks entity i w w3.

(** *** The invalidation tracker *)

(** A rectangle covers another one: every tile of the second is a tile of
    the first. *)
Definition covers (r r' : Rectangle.t) : Prop :=
  forall px py, Rectangle.containsTile r' px py -> Rectangle.containsTile r px py.

(** A sequence of [entityAdded] / [entityDestroyed] signals. *)
Definition notifyAll (entities : list uid) : M unit :=
  forEach entities checkForCacheInvalidation.

(** *** Relations every step of a method maintains *)

(** [m] takes every world to a world related to it by [R], whether it
    returns or throws. *)
Definition maintains {A} (R : World -> World -> Prop) (m : M A) : Prop :=
  forall w, R w (final (m w)).

End Specification.

(** ** Further specification-level definitions *)

Section MoreSpecification.
Context `{Collaborators}.

(** *** Signals *)

(** The pending area after a signal for [entity] has been handled in an
    initialized game. *)
Definition merged (w : World) (area : option Rectangle.t) (entity : uid)
  : option Rectangle.t :=
  match StaticMapEntity (components (heap w entity)) with
  | Some staticComp =>
      let expandedBounds :=
        Rectangle.expandedInAllDirections (getTileSpaceBounds staticComp) 2 in
      Some match area with
           | Some area => Rectangle.getUnion area expandedBounds
           | None => expandedBounds
           end
  | None => area
  end.

(** The edges of [r'] lie within the edges of [r]. *)
Definition encloses (r r' : Rectangle.t) : Prop :=
  Rectangle.x r <= Rectangle.x r' /\ Rectangle.y r <= Rectangle.y r' /\
  Rectangle.right r' <= Rectangle.right r /\
  Rectangle.bottom r' <= Rectangle.bottom r.

(** *** What the methods leave alone *)

(** What no method of the system writes: the map, the list of the
    entities, the clock, and every component but the ejector. *)
Definition mapKept (w w' : World) : Prop :=
  gameInitialized w' = gameInitialized w /\
  allEntities w' = allEntities w /\
  tiles w' = tiles w /\
  deltaSeconds w' = deltaSeconds w /\
  (forall v, sameReceiver (heap w v) (heap w' v)).

(** The pending area is left as it is. *)
Definition pendingKept (w w' : World) : Prop :=
  areaToRecompute w' = areaToRecompute w.

(** The state of the collaborators is left as it is. *)
Definition gameKept (w w' : World) : Prop := game w' = game w.

(** Every ejector keeps its slots, and every slot its place and its
    direction. *)
Definition geometryKept (w w' : World) : Prop :=
  forall v j,
    match slotOf w v j with
    | Some s =>
        exists s', slotOf w' v j = Some s' /\
          pos s' = pos s /\ direction s' = direction s
    | None => slotOf w' v j = None
    end.

(** *** A cache that can be followed *)

(** The cache of the registered entities can be followed: every
    registered entity has an ejector component, and every slot listed in
    [cachedConnectedSlots] exists and has a cached destination slot and a
    cached target entity that has an acceptor component. *)
Definition cacheSound (w : World) : Prop :=
  forall v, v ∈ allEntities w ->
    exists c, ejectorOf w v = Some c /\
      forall connected j,
        cachedConnectedSlots c = Some connected -> j ∈ connected ->
        exists s t d,
          slots c !! j = Some s /\
          cachedTargetEntity s = Some t /\ cachedDestSlot s = Some d /\
          is_Some (ItemAcceptor (components (heap w t))).

(** Every belt is registered to a path, whatever the state of the
    collaborators. *)
Definition pathsAssigned (w : World) : Prop :=
  forall v beltComp g,
    Belt (components (heap w v)) = Some beltComp ->
    is_Some (assignedPath beltComp g).

(** The system with another list of registered entities. *)
Definition set_allEntities (l : list uid) (w : World) : World :=
  {| gameInitialized := gameInitialized w;
     areaToRecompute := areaToRecompute w;
     allEntities := l; tiles := tiles w; heap := heap w;
     game := game w; deltaSeconds := deltaSeconds w |}.

(** *** The progress of an item *)

(** Slot [s'] carries the item [it] on from progress [p]: the item is in
    the slot, with a progress of the format between [p] and 1, or the
    slot has been cleared at progress 1. *)
Definition carries (p : Q) (it : BaseItem) (s' : EjectorSlot) : Prop :=
  (p <= progress s')%Q /\ (progress s' <= 1)%Q /\
  (item s' = Some it /\ representable (progress s') \/
   item s' = None /\ progress s' = 1%Q).

End MoreSpecification.

Section MoreDrawing.
Context `{Drawing}.


End MoreDrawing.

(** ** A concrete game

    Unrotated buildings, acceptors that are open or closed as a whole,
    storages with a capacity, belts whose paths are full.  It is used to
    run the methods on explicit worlds. *)

Module Demo.

Record Placement : Set := { origin : Vector.t; size : Vector.t }.

Record AcceptorSlot : Set := { apos : Vector.t; from : enumDirection.t }.

Record State : Set := {
  accepting : bool;        (* what every canAcceptItem answers *)
  stored : list nat;       (* the items the storages have taken *)
  accepted : list nat      (* the slot indices passed to onItemAccepted *)
}.

Definition invertDirection (d : enumDirection.t) : enumDirection.t :=
  match d with
  | enumDirection.top => enumDirection.bottom
  | enumDirection.right => enumDirection.left
  | enumDirection.bottom => enumDirection.top
  | enumDirection.left => enumDirection.right
  end.

Definition sameTile (a b : Vector.t) : bool :=
  (Vector.x a =? Vector.x b) && (Vector.y a =? Vector.y b).

Definition sameDirection (a b : enumDirection.t) : bool :=
  match a, b with
  | enumDirection.top, enumDirection.top
  | enumDirection.right, enumDirection.right
  | enumDirection.bottom, enumDirection.bottom
  | enumDirection.left, enumDirection.left => true
  | _, _ => false
  end.

Fixpoint findSlot (l : list AcceptorSlot) (i : nat) (tile : Vector.t)
    (d : enumDirection.t) : option MatchingSlot :=
  match l with
  | [] => None
  | s :: l' =>
      if sameTile (apos s) tile && sameDirection (from s) (invertDirection d)
      then Some {| index := i; acceptedDirection := from s |}
      else findSlot l' (S i) tile d
  end.

Definition collaborators : Collaborators := {|
  BaseItem := nat;
  StaticMapEntityComponent := Placement;
  ItemAcceptorComponent := list AcceptorSlot;
  BeltComponent := option nat;
  BeltPath := nat;
  StorageComponent := nat;
  ItemProcessorComponent := unit;
  UndergroundBeltComponent := unit;
  EnergyGeneratorComponent := unit;
  GameState := State;
  G_IS_DEV := false;
  Number_round := fun x => x;
  globalConfig := {| itemSpacingOnBelts := 1 # 2;
                     debug_renderChanges := false;
                     debug_instantBelts := false |};
  getTileSpaceBounds p :=
    Rectangle.mk (Vector.x (origin p)) (Vector.y (origin p))
                 (Vector.x (size p)) (Vector.y (size p));
  localTileToWorld p v := Vector.add (origin p) v;
  localDirectionToWorld p d := d;
  worldToLocalTile p v :=
    Vector.mk (Vector.x v - Vector.x (origin p)) (Vector.y v - Vector.y (origin p));
  worldDirectionToLocal p d := d;
  findMatchingSlot acc tile d := findSlot acc 0 tile d;
  canAcceptItem acc i it st := accepting st;
  onItemAccepted acc i d it st :=
    {| accepting := accepting st; stored := stored st;
       accepted := i :: accepted st |};
  assignedPath b st := b;
  BeltPath_tryAcceptItem p it st := (false, st);
  Storage_canAcceptItem cap it st := Nat.ltb (length (stored st)) cap;
  Storage_takeItem cap it st :=
    {| accepting := accepting st; stored := it :: stored st;
       accepted := accepted st |};
  ItemProcessor_tryTakeItem p it i st := (false, st);
  tryAcceptExternalItem u it speed st := (false, st);
  EnergyGenerator_tryTakeItem e it st := (false, st);
  getBeltBaseSpeed st := 1%Q;
  getUndergroundBeltBaseSpeed st := 1%Q;
  renderChange name r color st := st
|}.

#[local] Existing Instance collaborators.

Definition noComponents : Components := {|
  StaticMapEntity := None; ItemEjector := None; ItemAcceptor := None;
  Belt := None; Storage := None; ItemProcessor := None;
  UndergroundBelt := None; EnergyGenerator := None
|}.

Definition nothing : Entity :=
  {| destroyed := false; components := noComponents |}.

(** An ejector on tile (0,0) with one slot that ejects to the east and
    holds item 7. *)
Definition slotA (p : Q) : EjectorSlot := {|
  pos := Vector.mk 0 0; direction := enumDirection.right;
  item := Some 7%nat; progress := p;
  cachedDestSlot := None; cachedTargetEntity := None
|}.

Definition entityA (p : Q) : Entity := {|
  destroyed := false;
  components := {|
    StaticMapEntity := Some {| origin := Vector.mk 0 0; size := Vector.mk 1 1 |};
    ItemEjector := Some {| slots := [slotA p]; cachedConnectedSlots := None |};
    ItemAcceptor := None; Belt := None; Storage := None;
    ItemProcessor := None; UndergroundBelt := None; EnergyGenerator := None
  |}
|}.

(** A storage on tile (1,0) that accepts from the west. *)
Definition entityB : Entity := {|
  destroyed := false;
  components := {|
    StaticMapEntity := Some {| origin := Vector.mk 1 0; size := Vector.mk 1 1 |};
    ItemEjector := None;
    ItemAcceptor := Some [ {| apos := Vector.mk 0 0; from := enumDirection.left |} ];
    Belt := None; Storage := Some 5%nat;
    ItemProcessor := None; UndergroundBelt := None; EnergyGenerator := None
  |}
|}.

Definition idle : State :=
  {| accepting := true; stored := []; accepted := [] |}.

(** Entity 1 is the ejector, entity 2 the storage next to it. *)
Definition heapAB (p : Q) : uid -> Entity :=
  <[1%nat := entityA p]> (<[2%nat := entityB]> (fun _ => nothing)).

Definition tilesAB : Z -> Z -> option uid :=
  fun x y =>
    if (x =? 0) && (y =? 0) then Some 1%nat
    else if (x =? 1) && (y =? 0) then Some 2%nat
    else None.

Definition worldAB (initialized : bool) (p : Q) : World := {|
  gameInitialized := initialized;
  areaToRecompute := None;
  allEntities := [1%nat];
  tiles := tilesAB;
  heap := heapAB p;
  game := idle;
  deltaSeconds := 1 # 4
|}.

(** The same two entities with the cache of the ejector computed: its
    slot 0 delivers into slot 0 of entity 2. *)
Definition connectedSlotA (p : Q) : EjectorSlot := {|
  pos := Vector.mk 0 0; direction := enumDirection.right;
  item := Some 7%nat; progress := p;
  cachedDestSlot :=
    Some {| index := 0%nat; acceptedDirection := enumDirection.left |};
  cachedTargetEntity := Some 2%nat
|}.

Definition connectedA (p : Q) : Entity := {|
  destroyed := false;
  components := {|
    StaticMapEntity := Some {| origin := Vector.mk 0 0; size := Vector.mk 1 1 |};
    ItemEjector := Some {| slots := [connectedSlotA p];
                           cachedConnectedSlots := Some [0%nat] |};
    ItemAcceptor := None; Belt := None; Storage := None;
    ItemProcessor := None; UndergroundBelt := None; EnergyGenerator := None
  |}
|}.


(** The storage has been destroyed and taken off the map, and the
    recomputation has not run since: the slot of the ejector still
    refers to it. *)
Definition destroyedB : Entity :=
  {| destroyed := true; components := components entityB |}.

Definition staleAB (p : Q) : World := {|
  gameInitialized := false;
  areaToRecompute := None;
  allEntities := [1%nat];
  tiles := fun x y => if (x =? 0) && (y =? 0) then Some 1%nat else None;
  heap := <[1%nat := connectedA p]> (<[2%nat := destroyedB]> (fun _ => nothing));
  game := idle;
  deltaSeconds := 1 # 4
|}.

(** The ejector alone on the map. *)
Definition worldA : World := {|
  gameInitialized := true;
  areaToRecompute := None;
  allEntities := [1%nat];
  tiles := fun x y => if (x =? 0) && (y =? 0) then Some 1%nat else None;
  heap := <[1%nat := entityA 0]> (fun _ => nothing);
  game := idle;
  deltaSeconds := 1 # 4
|}.

(** Entity 3: a belt that is registered to no path, and a storage. *)
Definition strayBelt : Entity := {|
  destroyed := false;
  components := {|
    StaticMapEntity := Some {| origin := Vector.mk 5 5; size := Vector.mk 1 1 |};
    ItemEjector := None; ItemAcceptor := None;
    Belt := Some None; Storage := Some 5%nat;
    ItemProcessor := None; UndergroundBelt := None; EnergyGenerator := None
  |}
|}.

(** Entity 4: a belt on path 9, which is full, and a storage. *)
Definition beltAndStorage : Entity := {|
  destroyed := false;
  components := {|
    StaticMapEntity := Some {| origin := Vector.mk 6 5; size := Vector.mk 1 1 |};
    ItemEjector := None; ItemAcceptor := None;
    Belt := Some (Some 9%nat); Storage := Some 5%nat;
    ItemProcessor := None; UndergroundBelt := None; EnergyGenerator := None
  |}
|}.

Definition worldBelts : World := {|
  gameInitialized := true;
  areaToRecompute := None;
  allEntities := [];
  tiles := fun x y =>
    if (x =? 5) && (y =? 5) then Some 3%nat
    else if (x =? 6) && (y =? 5) then Some 4%nat
    else None;
  heap := <[3%nat := strayBelt]> (<[4%nat := beltAndStorage]> (fun _ => nothing));
  game := idle;
  deltaSeconds := 1 # 4
|}.

(** An empty map on which the ejector and then the storage are placed,
    each followed by its signal. *)
Definition emptyWorld : World := {|
  gameInitialized := true;
  areaToRecompute := None;
  allEntities := [];
  tiles := fun _ _ => None;
  heap := fun _ => nothing;
  game := idle;
  deltaSeconds := 1 # 4
|}.

Definition placementA : Placement :=
  {| origin := Vector.mk 0 0; size := Vector.mk 1 1 |}.

Definition placementB : Placement :=
  {| origin := Vector.mk 1 0; size := Vector.mk 1 1 |}.

Definition afterA : World :=
  final (checkForCacheInvalidation 1%nat
           (placeEntity 1%nat (entityA 0) (getTileSpaceBounds placementA)
              emptyWorld)).

Definition afterAB : World :=
  final (checkForCacheInvalidation 2%nat
           (placeEntity 2%nat entityB (getTileSpaceBounds placementB) afterA)).

End Demo.

(** ** A concrete game with a canvas

    Unrotated buildings whose items are painted on a canvas that records
    what was drawn and where; nothing accepts items. *)

Module Canvas.

Record Painted : Set := { what : nat; atX : Q; atY : Q }.

Definition collaborators : Collaborators := {|
  BaseItem := nat;
  StaticMapEntityComponent := Demo.Placement;
  ItemAcceptorComponent := unit;
  BeltComponent := unit;
  BeltPath := unit;
  StorageComponent := unit;
  ItemProcessorComponent := unit;
  UndergroundBeltComponent := unit;
  EnergyGeneratorComponent := unit;
  GameState := list Painted;
  G_IS_DEV := false;
  Number_round := fun x => x;
  globalConfig := {| itemSpacingOnBelts := 1 # 2;
                     debug_renderChanges := false;
                     debug_instantBelts := false |};
  getTileSpaceBounds p :=
    Rectangle.mk (Vector.x (Demo.origin p)) (Vector.y (Demo.origin p))
                 (Vector.x (Demo.size p)) (Vector.y (Demo.size p));
  localTileToWorld p v := Vector.add (Demo.origin p) v;
  localDirectionToWorld p d := d;
  worldToLocalTile p v :=
    Vector.mk (Vector.x v - Vector.x (Demo.origin p))
              (Vector.y v - Vector.y (Demo.origin p));
  worldDirectionToLocal p d := d;
  findMatchingSlot acc tile d := None;
  canAcceptItem acc i it st := false;
  onItemAccepted acc i d it st := st;
  assignedPath b st := None;
  BeltPath_tryAcceptItem p it st := (false, st);
  Storage_canAcceptItem cap it st := false;
  Storage_takeItem cap it st := st;
  ItemProcessor_tryTakeItem p it i st := (false, st);
  tryAcceptExternalItem u it speed st := (false, st);
  EnergyGenerator_tryTakeItem e it st := (false, st);
  getBeltBaseSpeed st := 1%Q;
  getUndergroundBeltBaseSpeed st := 1%Q;
  renderChange name r color st := st
|}.

#[local] Existing Instance collaborators.

(** The draw parameters say whether the entities are on the screen. *)
Definition drawing : Drawing := {|
  DrawParameters := bool;
  shouldBeDrawn p visible st := visible;
  origin p := Demo.origin p;
  rotation p := 0;
  rotateFastMultipleOf90 v r := v;
  transformDirectionFromMultipleOf90 d r := d;
  tileSize := 32%Q;
  BaseItem_draw it x y visible st :=
    st ++ [ {| what := it; atX := x; atY := y |} ]
|}.

#[local] Existing Instance drawing.

(** A building on tile (2,1) with three slots: item 7 half way out to
    the east, an empty slot, and item 8 at the end of its way south. *)
Definition eastSlot : EjectorSlot := {|
  pos := Vector.mk 0 0; direction := enumDirection.right;
  item := Some 7%nat; progress := 1 # 2;
  cachedDestSlot := None; cachedTargetEntity := None
|}.

Definition emptySlot : EjectorSlot := {|
  pos := Vector.mk 0 0; direction := enumDirection.top;
  item := None; progress := 1 # 4;
  cachedDestSlot := None; cachedTargetEntity := None
|}.

Definition southSlot : EjectorSlot := {|
  pos := Vector.mk 0 0; direction := enumDirection.bottom;
  item := Some 8%nat; progress := 1;
  cachedDestSlot := None; cachedTargetEntity := None
|}.

Definition placement : Demo.Placement :=
  {| Demo.origin := Vector.mk 2 1; Demo.size := Vector.mk 1 1 |}.

Definition building : Entity := {|
  destroyed := false;
  components := {|
    StaticMapEntity := Some placement;
    ItemEjector := Some {| slots := [eastSlot; emptySlot; southSlot];
                           cachedConnectedSlots := None |};
    ItemAcceptor := None; Belt := None; Storage := None;
    ItemProcessor := None; UndergroundBelt := None; EnergyGenerator := None
  |}
|}.

(** An entity that is placed but has no ejector component, and one that
    has an ejector component but is not placed. *)
Definition plain : Entity := {|
  destroyed := false;
  components := {|
    StaticMapEntity := Some {| Demo.origin := Vector.mk 5 5;
                               Demo.size := Vector.mk 1 1 |};
    ItemEjector := None;
    ItemAcceptor := None; Belt := None; Storage := None;
    ItemProcessor := None; UndergroundBelt := None; EnergyGenerator := None
  |}
|}.

Definition unplaced : Entity := {|
  destroyed := false;
  components := {|
    StaticMapEntity := None;
    ItemEjector := Some {| slots := [eastSlot; emptySlot];
                           cachedConnectedSlots := Some [0%nat] |};
    ItemAcceptor := None; Belt := None; Storage := None;
    ItemProcessor := None; UndergroundBelt := None; EnergyGenerator := None
  |}
|}.

Definition bare : Entity := {|
  destroyed := false;
  components := {|
    StaticMapEntity := None; ItemEjector := None;
    ItemAcceptor := None; Belt := None; Storage := None;
    ItemProcessor := None; UndergroundBelt := None; EnergyGenerator := None
  |}
|}.

(** Entity 1 is the building, entity 2 the plain one, entity 3 the
    unplaced one. *)
Definition world : World := {|
  gameInitialized := true;
  areaToRecompute := None;
  allEntities := [1%nat];
  tiles := fun x y =>
    if (x =? 2) && (y =? 1) then Some 1%nat
    else if (x =? 5) && (y =? 5) then Some 2%nat
    else None;
  heap := <[1%nat := building]> (<[2%nat := plain]>
            (<[3%nat := unplaced]> (fun _ => bare)));
  game := [];
  deltaSeconds := 1 # 4
|}.

End Canvas.

(** ** An ejector in front of a belt

    The concrete game of above with, next to the ejector, an entity that
    takes items from the west and is both a belt on path 9, which is
    full, and a storage. *)

Module Conveyor.
#[local] Existing Instance Demo.collaborators.

Definition receiver : Entity := {|
  destroyed := false;
  components := {|
    StaticMapEntity :=
      Some {| Demo.origin := Vector.mk 1 0; Demo.size := Vector.mk 1 1 |};
    ItemEjector := None;
    ItemAcceptor :=
      Some [ {| Demo.apos := Vector.mk 0 0; Demo.from := enumDirection.left |} ];
    Belt := Some (Some 9%nat); Storage := Some 5%nat;
    ItemProcessor := None; UndergroundBelt := None; EnergyGenerator := None
  |}
|}.

(** Entity 1 is the ejector, its cache computed and its item three
    quarters of the way out; entity 2 is the receiver. *)
Definition world : World := {|
  gameInitialized := true;
  areaToRecompute := None;
  allEntities := [1%nat];
  tiles := Demo.tilesAB;
  heap := <[1%nat := Demo.connectedA (3 # 4)]>
            (<[2%nat := receiver]> (fun _ => Demo.nothing));
  game := Demo.idle;
  deltaSeconds := 1 # 4
|}.

End Conveyor.
(** ** The double-precision format

    The rounding of the numbers of the language: to the nearest number
    with 53 significant bits, the one with an even significand of two
    that are equally near, with the exponent of the unit in the last
    place not below that of the subnormal numbers.  The overflow to an
    infinity is left out. *)

Module Binary64.

(** The power of two [2^e]. *)
Definition pow2 (e : Z) : Q := Qpower 2 e.

(** The nearest integer, the even one of two that are equally near. *)
Definition nearestEven (x : Q) : Z :=
  let f := Qfloor x in
  match (x - inject_Z f ?= 1 # 2)%Q with
  | Lt => f
  | Gt => f + 1
  | Eq => if Z.even f then f else f + 1
  end.

(** The largest [l] with [2^l <= x], for a positive [x]. *)
Definition ilog2 (x : Q) : Z :=
  let k := Z.log2 (Qnum x) - Z.log2 (Zpos (Qden x)) in
  if Qle_bool (pow2 k) x then k else k - 1.

(** The exponent of the unit in the last place of a positive number: 53
    significant bits, and no exponent below that of the subnormal
    numbers. *)
Definition ulpExponent (x : Q) : Z := Z.max (ilog2 x - 52) (-1074).

(** A positive number rounded to a multiple of its unit in the last
    place. *)
Definition roundMagnitude (x : Q) : Q :=
  let e := ulpExponent x in
  (inject_Z (nearestEven (x * pow2 (- e))) * pow2 e)%Q.

Definition round (x : Q) : Q :=
  Qred match Qnum x with
       | Z0 => 0
       | Zpos _ => roundMagnitude x
       | Zneg _ => - roundMagnitude (- x)
       end.

End Binary64.

(** ** The concrete game in double precision

    The game of [Demo], its numbers rounded to the double-precision
    format: an ejector on tile (0,0) that delivers item 7 into the
    storage on tile (1,0), with a time step of one tenth of a second,
    which is not a number of the format. *)

Module Doubles.

Definition collaborators : Collaborators := {|
  BaseItem := @BaseItem Demo.collaborators;
  StaticMapEntityComponent := @StaticMapEntityComponent Demo.collaborators;
  ItemAcceptorComponent := @ItemAcceptorComponent Demo.collaborators;
  BeltComponent := @BeltComponent Demo.collaborators;
  BeltPath := @BeltPath Demo.collaborators;
  StorageComponent := @StorageComponent Demo.collaborators;
  ItemProcessorComponent := @ItemProcessorComponent Demo.collaborators;
  UndergroundBeltComponent := @UndergroundBeltComponent Demo.collaborators;
  EnergyGeneratorComponent := @EnergyGeneratorComponent Demo.collaborators;
  GameState := @GameState Demo.collaborators;
  G_IS_DEV := @G_IS_DEV Demo.collaborators;
  globalConfig := @globalConfig Demo.collaborators;
  Number_round := Binary64.round;
  getTileSpaceBounds := @getTileSpaceBounds Demo.collaborators;
  localTileToWorld := @localTileToWorld Demo.collaborators;
  localDirectionToWorld := @localDirectionToWorld Demo.collaborators;
  worldToLocalTile := @worldToLocalTile Demo.collaborators;
  worldDirectionToLocal := @worldDirectionToLocal Demo.collaborators;
  findMatchingSlot := @findMatchingSlot Demo.collaborators;
  canAcceptItem := @canAcceptItem Demo.collaborators;
  onItemAccepted := @onItemAccepted Demo.collaborators;
  assignedPath := @assignedPath Demo.collaborators;
  BeltPath_tryAcceptItem := @BeltPath_tryAcceptItem Demo.collaborators;
  Storage_canAcceptItem := @Storage_canAcceptItem Demo.collaborators;
  Storage_takeItem := @Storage_takeItem Demo.collaborators;
  ItemProcessor_tryTakeItem := @ItemProcessor_tryTakeItem Demo.collaborators;
  tryAcceptExternalItem := @tryAcceptExternalItem Demo.collaborators;
  EnergyGenerator_tryTakeItem :=
    @EnergyGenerator_tryTakeItem Demo.collaborators;
  getBeltBaseSpeed := @getBeltBaseSpeed Demo.collaborators;
  getUndergroundBeltBaseSpeed :=
    @getUndergroundBeltBaseSpeed Demo.collaborators;
  renderChange := @renderChange Demo.collaborators
|}.

#[local] Existing Instance collaborators.

(** The number of the format nearest to one tenth. *)
Definition tenth : Q := Binary64.round (1 # 10).

(** The largest number of the format below 1. *)
Definition almost : Q := 9007199254740991 # 9007199254740992.

Definition slot (p : Q) : EjectorSlot := {|
  pos := Vector.mk 0 0; direction := enumDirection.right;
  item := Some 7%nat; progress := p;
  cachedDestSlot :=
    Some {| index := 0%nat; acceptedDirection := enumDirection.left |};
  cachedTargetEntity := Some 2%nat
|}.

Definition ejector (p : Q) : Entity := {|
  destroyed := false;
  components := {|
    StaticMapEntity :=
      Some {| Demo.origin := Vector.mk 0 0; Demo.size := Vector.mk 1 1 |};
    ItemEjector := Some {| slots := [slot p];
                           cachedConnectedSlots := Some [0%nat] |};
    ItemAcceptor := None; Belt := None; Storage := None;
    ItemProcessor := None; UndergroundBelt := None; EnergyGenerator := None
  |}
|}.

Definition storage : Entity := {|
  destroyed := false;
  components := {|
    StaticMapEntity :=
      Some {| Demo.origin := Vector.mk 1 0; Demo.size := Vector.mk 1 1 |};
    ItemEjector := None;
    ItemAcceptor :=
      Some [ {| Demo.apos := Vector.mk 0 0; Demo.from := enumDirection.left |} ];
    Belt := None; Storage := Some 5%nat;
    ItemProcessor := None; UndergroundBelt := None; EnergyGenerator := None
  |}
|}.

Definition nothing : Entity := {|
  destroyed := false;
  components := {|
    StaticMapEntity := None; ItemEjector := None; ItemAcceptor := None;
    Belt := None; Storage := None; ItemProcessor := None;
    UndergroundBelt := None; EnergyGenerator := None
  |}
|}.

Definition world (p : Q) : World := {|
  gameInitialized := true;
  areaToRecompute := None;
  allEntities := [1%nat];
  tiles := Demo.tilesAB;
  heap := <[1%nat := ejector p]> (<[2%nat := storage]> (fun _ => nothing));
  game := Demo.idle;
  deltaSeconds := tenth
|}.

(** The world after [n] ticks. *)
Definition after (n : nat) (w : World) : World :=
  Nat.iter n (fun w => final (update w)) w.

End Doubles.


(** ** Properties *)

Section Properties.
Context `{Collaborators}.

(** *** The monad *)

Lemma set_game_same (w : World) : set_game (game w) w = w.
Proof. by destruct w. Qed.

Lemma forEach_app {A} (l1 l2 : list A) (body : A -> M unit) w :
  forEach (l1 ++ l2) body w = (forEach l1 body ;; forEach l2 body) w.
Proof.
  revert w. induction l1 as [|a l1 IH]; intros w; simpl.
  - reflexivity.
  - unfold bind in *. destruct (body a w) as [[] w1|e w1]; [|reflexivity].
    apply IH.
Qed.

Lemma forEach_app_Ok {A} (l1 l2 : list A) (body : A -> M unit) w w' :
  forEach (l1 ++ l2) body w = Ok tt w' ->
  exists w1, forEach l1 body w = Ok tt w1 /\ forEach l2 body w1 = Ok tt w'.
Proof.
  rewrite forEach_app. unfold bind.
  destruct (forEach l1 body w) as [[] w1|e w1]; [eauto|discriminate].
Qed.

(** *** Relations every step of a method maintains *)

Section Maintains.
Context (R : World -> World -> Prop).
Context (R_refl : forall w, R w w).
Context (R_trans : forall w1 w2 w3, R w1 w2 -> R w2 w3 -> R w1 w3).

Lemma maintains_ret {A} (a : A) : maintains R (ret a).
Proof. intros w. apply R_refl. Qed.

Lemma maintains_throw {A} e : maintains R (throw (A := A) e).
Proof. intros w. apply R_refl. Qed.

Lemma maintains_gets {A} (f : World -> A) : maintains R (gets f).
Proof. intros w. apply R_refl. Qed.

Lemma maintains_deref {A} (o : option A) : maintains R (deref o).
Proof. destruct o; [apply maintains_ret|apply maintains_throw]. Qed.

Lemma maintains_bind {A B} (m : M A) (k : A -> M B) :
  maintains R m -> (forall a, maintains R (k a)) -> maintains R (bind m k).
Proof.
  intros Hm Hk w. unfold bind. specialize (Hm w).
  destruct (m w) as [a w1|e w1]; simpl in *; [|assumption].
  eapply R_trans; [eassumption|]. apply Hk.
Qed.

Lemma maintains_forEach {A} (l : list A) (body : A -> M unit) :
  (forall a, maintains R (body a)) -> maintains R (forEach l body).
Proof.
  intros Hbody. induction l as [|a l IH]; simpl.
  - apply maintains_ret.
  - apply maintains_bind; [apply Hbody|]. intros _. apply IH.
Qed.

Lemma maintains_forEach_in {A} (l : list A) (body : A -> M unit) :
  (forall a, a ∈ l -> maintains R (body a)) -> maintains R (forEach l body).
Proof.
  induction l as [|a l IH]; intros Hbody; simpl.
  - apply maintains_ret.
  - apply maintains_bind; [apply Hbody; left|].
    intros _. apply IH. intros b Hb. apply Hbody. by right.
Qed.

Lemma maintains_foldEach {A S} (l : list A) (body : S -> A -> M S) :
  (forall s a, maintains R (body s a)) ->
  forall s, maintains R (foldEach l s body).
Proof.
  intros Hbody. induction l as [|a l IH]; intros s; simpl.
  - apply maintains_ret.
  - apply maintains_bind; [apply Hbody|]. intros s'. apply IH.
Qed.

End Maintains.

(** *** Reading and writing the heap *)

Lemma readEjector_eq entity w :
  readEjector entity w =
  match ejectorOf w entity with
  | Some c => Ok c w
  | None => Throw TypeError w
  end.
Proof.
  unfold readEjector, component, bind, gets, deref, ejectorOf.
  by destruct (ItemEjector _).
Qed.

Lemma writeEjector_eq entity f w :
  writeEjector entity f w =
  match ejectorOf w entity with
  | Some c => Ok tt (putEjector entity (f c) w)
  | None => Throw TypeError w
  end.
Proof.
  unfold writeEjector. unfold bind at 1. rewrite readEjector_eq.
  by destruct (ejectorOf w entity).
Qed.

Lemma readSlot_eq entity i w :
  readSlot entity i w =
  match slotOf w entity i with
  | Some s => Ok s w
  | None => Throw TypeError w
  end.
Proof.
  unfold readSlot, slotOf. unfold bind at 1. rewrite readEjector_eq.
  destruct (ejectorOf w entity) as [c|]; simpl; [|reflexivity].
  by destruct (slots c !! i).
Qed.

Lemma writeSlot_eq entity i f w :
  writeSlot entity i f w =
  match slotOf w entity i with
  | Some s => Ok tt (putSlot entity i (f s) w)
  | None => Throw TypeError w
  end.
Proof.
  unfold writeSlot. unfold bind at 1. rewrite readSlot_eq.
  unfold slotOf, putSlot.
  destruct (ejectorOf w entity) as [c|] eqn:Hc; simpl; [|reflexivity].
  destruct (slots c !! i); [|reflexivity].
  rewrite writeEjector_eq, Hc. reflexivity.
Qed.

Lemma heap_putEjector entity c w v :
  heap (putEjector entity c w) v =
  if decide (entity = v) then set_ItemEjector (Some c) (heap w entity)
  else heap w v.
Proof. reflexivity. Qed.

Lemma ejectorOf_putEjector entity c w v :
  ejectorOf (putEjector entity c w) v =
  if decide (entity = v) then Some c else ejectorOf w v.
Proof.
  unfold ejectorOf. rewrite heap_putEjector. by destruct (decide (entity = v)).
Qed.

(** Assigning to the ejector component leaves the other components, and
    the [destroyed] flag, of every entity as they were. *)
Lemma others_putEjector entity c w v :
  destroyed (heap (putEjector entity c w) v) = destroyed (heap w v) /\
  StaticMapEntity (components (heap (putEjector entity c w) v))
    = StaticMapEntity (components (heap w v)) /\
  ItemAcceptor (components (heap (putEjector entity c w) v))
    = ItemAcceptor (components (heap w v)) /\
  Belt (components (heap (putEjector entity c w) v))
    = Belt (components (heap w v)) /\
  Storage (components (heap (putEjector entity c w) v))
    = Storage (components (heap w v)) /\
  ItemProcessor (components (heap (putEjector entity c w) v))
    = ItemProcessor (components (heap w v)) /\
  UndergroundBelt (components (heap (putEjector entity c w) v))
    = UndergroundBelt (components (heap w v)) /\
  EnergyGenerator (components (heap (putEjector entity c w) v))
    = EnergyGenerator (components (heap w v)).
Proof.
  rewrite heap_putEjector. destruct (decide (entity = v)) as [->|]; done.
Qed.

Lemma slotOf_putSlot entity i s w v j :
  is_Some (slotOf w entity i) ->
  slotOf (putSlot entity i s w) v j =
  if decide (entity = v /\ i = j) then Some s else slotOf w v j.
Proof.
  unfold slotOf at 1, putSlot.
  destruct (ejectorOf w entity) as [c|] eqn:Hc; simpl; [|by intros [? ?]].
  intros Hi. apply lookup_lt_is_Some in Hi.
  unfold slotOf. rewrite ejectorOf_putEjector.
  destruct (decide (entity = v)) as [<-|Hne]; simpl.
  - rewrite Hc. simpl. destruct (decide (i = j)) as [<-|Hij].
    + rewrite list_lookup_insert_eq by done.
      by rewrite decide_True.
    + rewrite list_lookup_insert_ne by done.
      rewrite decide_False by tauto. done.
  - rewrite decide_False by tauto. done.
Qed.

Lemma cachedConnectedSlots_putSlot entity i s w v :
  (cachedConnectedSlots <$> ejectorOf (putSlot entity i s w) v)
  = (cachedConnectedSlots <$> ejectorOf w v).
Proof.
  unfold putSlot. destruct (ejectorOf w entity) as [c|] eqn:Hc; [|done].
  rewrite ejectorOf_putEjector. destruct (decide (entity = v)) as [<-|]; [|done].
  by rewrite Hc.
Qed.

End Properties.

Section Invalidation.
Context `{Collaborators}.

(** *** The invalidation tracker *)

Lemma covers_refl r : covers r r.
Proof. by intros px py. Qed.

Lemma covers_trans r1 r2 r3 : covers r1 r2 -> covers r2 r3 -> covers r1 r3.
Proof. intros H12 H23 px py Hin. auto. Qed.

Lemma getUnion_covers_l r rect : covers (Rectangle.getUnion r rect) r.
Proof.
  intros px py. unfold Rectangle.containsTile, Rectangle.getUnion,
    Rectangle.fromTRBL, Rectangle.right, Rectangle.bottom. simpl. lia.
Qed.

Lemma getUnion_covers_r r rect : covers (Rectangle.getUnion r rect) rect.
Proof.
  intros px py. unfold Rectangle.containsTile, Rectangle.getUnion,
    Rectangle.fromTRBL, Rectangle.right, Rectangle.bottom. simpl. lia.
Qed.

(** The margin of [expandedInAllDirections]. *)
Lemma expanded_containsTile r amount px py :
  Rectangle.containsTile (Rectangle.expandedInAllDirections r amount) px py <->
  Rectangle.x r - amount <= px < Rectangle.right r + amount /\
  Rectangle.y r - amount <= py < Rectangle.bottom r + amount.
Proof.
  unfold Rectangle.containsTile, Rectangle.expandedInAllDirections,
    Rectangle.right, Rectangle.bottom. simpl. lia.
Qed.

(** What one signal does to the system. *)
Lemma checkForCacheInvalidation_eq entity w :
  checkForCacheInvalidation entity w =
  Ok tt
    (if gameInitialized w then
       match StaticMapEntity (components (heap w entity)) with
       | Some staticComp =>
           let expandedBounds :=
             Rectangle.expandedInAllDirections (getTileSpaceBounds staticComp) 2 in
           set_areaToRecompute
             (Some match areaToRecompute w with
                   | Some area => Rectangle.getUnion area expandedBounds
                   | None => expandedBounds
                   end) w
       | None => w
       end
     else w).
Proof.
  unfold checkForCacheInvalidation, bind, gets, component, modify, ret. simpl.
  destruct (gameInitialized w); simpl; [|reflexivity].
  destruct (StaticMapEntity (components (heap w entity))); [|reflexivity].
  destruct (areaToRecompute w); reflexivity.
Qed.

(** C10: a signal for an entity without a [StaticMapEntity] component, or
    one that arrives before the game is initialized, is ignored: the
    pending rectangle [areaToRecompute], and the whole world with it, is
    left as it was. *)
Theorem checkForCacheInvalidation_ignored (w : World) (entity : uid) :
  gameInitialized w = false \/
  StaticMapEntity (components (heap w entity)) = None ->
  checkForCacheInvalidation entity w = Ok tt w /\
  areaToRecompute (final (checkForCacheInvalidation entity w))
  = areaToRecompute w.
Proof.
  intros Hignored. rewrite checkForCacheInvalidation_eq.
  destruct Hignored as [-> | ->].
  - split; reflexivity.
  - destruct (gameInitialized w); split; reflexivity.
Qed.

(** While the game is initialized, signals only grow the pending
    rectangle, and leave the rest of the world alone. *)
Lemma notifyAll_initialized entities : forall w,
  gameInitialized w = true ->
  exists w', notifyAll entities w = Ok tt w' /\
    gameInitialized w' = true /\ heap w' = heap w /\
    tiles w' = tiles w /\ allEntities w' = allEntities w /\
    game w' = game w /\
    (forall area, areaToRecompute w = Some area ->
       exists area', areaToRecompute w' = Some area' /\ covers area' area).
Proof.
  induction entities as [|entity entities IH]; intros w Hinit.
  - exists w. split_and!; try done.
    intros area ->. eauto using covers_refl.
  - unfold notifyAll. simpl. unfold bind.
    rewrite checkForCacheInvalidation_eq, Hinit.
    set (w1 := match StaticMapEntity (components (heap w entity)) with
               | Some _ => _ | None => w end).
    assert (Hw1 : gameInitialized w1 = true /\ heap w1 = heap w /\
                  tiles w1 = tiles w /\ allEntities w1 = allEntities w /\
                  game w1 = game w /\
                  forall area, areaToRecompute w = Some area ->
                    exists area', areaToRecompute w1 = Some area' /\
                                  covers area' area).
    { subst w1. destruct (StaticMapEntity (components (heap w entity))).
      - simpl. split_and!; try done.
        intros area ->. eexists; split; [reflexivity|].
        apply getUnion_covers_l.
      - split_and!; try done. intros area ->.
        eauto using covers_refl. }
    destruct Hw1 as (Hi1 & Hh1 & Ht1 & Ha1 & Hg1 & Hc1).
    destruct (IH w1 Hi1) as (w' & Hrun & Hi' & Hh' & Ht' & Ha' & Hg' & Hc').
    exists w'. unfold notifyAll in Hrun. rewrite Hrun.
    split_and!; try congruence.
    intros area Harea. destruct (Hc1 area Harea) as (a1 & Ha1' & Hcov1).
    destruct (Hc' a1 Ha1') as (a' & Ha'' & Hcov').
    exists a'. split; [assumption|]. eauto using covers_trans.
Qed.

(** C7, amended: while the game is initialized, every signal for an
    entity that carries a [StaticMapEntity] component merges the tile-space
    bounds of the entity, expanded by exactly 2 tiles on each of the four
    sides, into the pending area; after any sequence of signals the
    pending area is one rectangle that covers the expanded bounds of every
    such entity of the sequence, and the area that was pending before. *)
Theorem notifyAll_covers (w : World) (entities : list uid) :
  gameInitialized w = true ->
  (* one signal *)
  (forall entity staticComp,
     StaticMapEntity (components (heap w entity)) = Some staticComp ->
     areaToRecompute (final (checkForCacheInvalidation entity w))
     = Some match areaToRecompute w with
            | Some area =>
                Rectangle.getUnion area
                  (Rectangle.expandedInAllDirections
                     (getTileSpaceBounds staticComp) 2)
            | None =>
                Rectangle.expandedInAllDirections
                  (getTileSpaceBounds staticComp) 2
            end) /\
  (* any sequence of signals *)
  exists w', notifyAll entities w = Ok tt w' /\
    (forall area, areaToRecompute w = Some area ->
       exists area', areaToRecompute w' = Some area' /\ covers area' area) /\
    (forall entity staticComp,
       In entity entities ->
       StaticMapEntity (components (heap w entity)) = Some staticComp ->
       exists area', areaToRecompute w' = Some area' /\
         forall px py,
           Rectangle.x (getTileSpaceBounds staticComp) - 2 <= px
             < Rectangle.right (getTileSpaceBounds staticComp) + 2 ->
           Rectangle.y (getTileSpaceBounds staticComp) - 2 <= py
             < Rectangle.bottom (getTileSpaceBounds staticComp) + 2 ->
           Rectangle.containsTile area' px py).
Proof.
  intros Hinit. split.
  { intros entity staticComp Hstatic.
    by rewrite checkForCacheInvalidation_eq, Hinit, Hstatic. }
  destruct (notifyAll_initialized entities w Hinit)
    as (w' & Hrun & _ & _ & _ & _ & _ & Hold).
  exists w'. split; [assumption|]. split; [assumption|].
  clear Hold. revert w w' Hinit Hrun.
  induction entities as [|e entities IH];
    intros w w' Hinit Hrun entity staticComp Hin Hstatic; [destruct Hin|].
  unfold notifyAll in Hrun. simpl in Hrun. unfold bind in Hrun.
  rewrite checkForCacheInvalidation_eq, Hinit in Hrun.
  destruct Hin as [<- | Hin].
  - rewrite Hstatic in Hrun. simpl in Hrun.
    match type of Hrun with forEach _ _ ?w0 = _ => set (w1 := w0) in * end.
    destruct (notifyAll_initialized entities w1 Hinit)
      as (w'' & Hrun' & _ & _ & _ & _ & _ & Hold).
    unfold notifyAll in Hrun'. rewrite Hrun' in Hrun.
    injection Hrun as <-.
    destruct (Hold _ eq_refl) as (area' & Harea' & Hcov).
    exists area'. split; [assumption|]. intros px py Hx Hy. apply Hcov.
    destruct (areaToRecompute w).
    + apply getUnion_covers_r, expanded_containsTile. lia.
    + apply expanded_containsTile. lia.
  - match type of Hrun with forEach _ _ ?w0 = _ => set (w1 := w0) in * end.
    assert (Hw1 : gameInitialized w1 = true /\ heap w1 = heap w).
    { subst w1. destruct (StaticMapEntity (components (heap w e)));
        split; assumption || reflexivity. }
    destruct Hw1 as [Hi1 Hh1].
    apply (IH w1 w' Hi1 Hrun entity staticComp Hin). by rewrite Hh1.
Qed.

End Invalidation.

Section Dispatch.
Context `{Collaborators}.

(** *** The handover dispatcher *)

(** Case analysis on the scrutinee at the head of the left-hand side:
    what the receiver has, then what the capability answers. *)
Ltac head_scrutinee t :=
  lazymatch t with
  | match ?x with _ => _ end => head_scrutinee x
  | (match ?x with _ => _ end) _ => head_scrutinee x
  | @fst _ _ ?p => p
  | _ => t
  end.

Ltac dispatch_step :=
  simpl;
  lazymatch goal with
  | |- ?lhs = _ =>
      let x := head_scrutinee lhs in
      lazymatch type of x with
      | prod bool _ => destruct x as [[] ?]
      | _ => destruct x
      end
  end;
  simpl; try rewrite set_game_same; try reflexivity.

(** The dispatcher in one equation: the failed assertion, or the first
    capability that accepts. *)
Lemma tryPassOverItem_eq item receiver slotIndex w :
  tryPassOverItem item receiver slotIndex w =
  match Belt (components (heap w receiver)) ≫= (fun beltComp =>
          match assignedPath beltComp (game w) with
          | Some _ => None
          | None => Some tt
          end)
  with
  | Some _ => Throw (AssertionError "belt has no path") w
  | None =>
      Ok (fst (firstAccepting handoverPriority (components (heap w receiver))
                 item slotIndex (game w)))
         (set_game
            (snd (firstAccepting handoverPriority
                    (components (heap w receiver)) item slotIndex (game w)))
            w)
  end.
Proof.
  unfold tryPassOverItem, handoverPriority, firstAccepting, offer.
  unfold bind, component, gets, query, call, call_, modify, assert, ret, throw.
  simpl.
  destruct (Belt (components (heap w receiver))) as [beltComp|]; simpl.
  - destruct (assignedPath beltComp (game w)) as [path|]; simpl;
      [|reflexivity].
    repeat dispatch_step.
  - repeat dispatch_step.
Qed.

(** The dispatcher only touches the state of the collaborators. *)
Lemma tryPassOverItem_frame item receiver slotIndex w :
  exists g, final (tryPassOverItem item receiver slotIndex w) = set_game g w.
Proof.
  rewrite tryPassOverItem_eq.
  destruct (_ ≫= _); simpl; eauto using eq_sym, set_game_same.
Qed.

(** C8: when the receiver carries a belt component whose assigned path is
    absent, [tryPassOverItem] does not skip the belt: the assertion
    "belt has no path" fails and the call is aborted, before anything has
    been handed over. *)
Theorem tryPassOverItem_belt_without_path
    (item : BaseItem) (receiver : uid) (slotIndex : nat) (w : World)
    (beltComp : BeltComponent) :
  Belt (components (heap w receiver)) = Some beltComp ->
  assignedPath beltComp (game w) = None ->
  tryPassOverItem item receiver slotIndex w
  = Throw (AssertionError "belt has no path") w.
Proof.
  intros Hbelt Hpath. rewrite tryPassOverItem_eq, Hbelt. simpl.
  rewrite Hpath. reflexivity.
Qed.

(** C5: [tryPassOverItem] offers the item to the capabilities of the
    receiver in the fixed order belt path, storage, item processor,
    underground belt (with the transport speed of [root.hubGoals]), energy
    generator.  It returns [true] at the first capability that accepts,
    without trying the later ones, and returns [false], without throwing,
    when none of the capabilities the receiver has accepts. *)
Theorem tryPassOverItem_priority
    (item : BaseItem) (receiver : uid) (slotIndex : nat) (w : World) :
  beltHasPath (components (heap w receiver)) (game w) ->
  tryPassOverItem item receiver slotIndex w
  = Ok (fst (firstAccepting handoverPriority (components (heap w receiver))
               item slotIndex (game w)))
       (set_game
          (snd (firstAccepting handoverPriority (components (heap w receiver))
                  item slotIndex (game w))) w).
Proof.
  intros Hpath. rewrite tryPassOverItem_eq.
  destruct (Belt (components (heap w receiver))) as [beltComp|] eqn:Hbelt;
    simpl; [|reflexivity].
  destruct (Hpath beltComp Hbelt) as [path ->]. reflexivity.
Qed.

End Dispatch.

Section Transfer.
Context `{Collaborators}.

(** *** The transfer loop *)

Lemma slotOf_set_game g w entity i :
  slotOf (set_game g w) entity i = slotOf w entity i.
Proof. reflexivity. Qed.

Lemma slotOf_putSlot_eq entity i s w :
  is_Some (slotOf w entity i) ->
  slotOf (putSlot entity i s w) entity i = Some s.
Proof. intros Hs. rewrite slotOf_putSlot by done. by rewrite decide_True. Qed.

Lemma ItemAcceptor_putSlot entity i s w v :
  ItemAcceptor (components (heap (putSlot entity i s w) v))
  = ItemAcceptor (components (heap w v)).
Proof.
  unfold putSlot. destruct (ejectorOf w entity); [|done].
  apply others_putEjector.
Qed.

Lemma game_putSlot entity i s w : game (putSlot entity i s w) = game w.
Proof. unfold putSlot. by destruct (ejectorOf w entity). Qed.

(** One visit of the inner loop of [update], in one equation. *)
Lemma updateSlot_eq growth sourceEntity sourceSlot w :
  updateSlot growth sourceEntity sourceSlot w =
  match slotOf w sourceEntity sourceSlot with
  | None => Throw TypeError w
  | Some s =>
      match item s with
      | None => Ok tt w
      | Some it =>
          let s1 := set_progress (Math_min 1 (Number_add (progress s) growth)) s in
          let w1 := putSlot sourceEntity sourceSlot s1 w in
          if Qltb (progress s1) 1 then Ok tt w1 else
          match cachedTargetEntity s with
          | None => Throw TypeError w1
          | Some t =>
          match ItemAcceptor (components (heap w t)) with
          | None => Throw TypeError w1
          | Some acc =>
          match cachedDestSlot s with
          | None => Throw TypeError w1
          | Some d =>
              if negb (canAcceptItem acc (index d) it (game w))
              then Ok tt w1
              else
                match tryPassOverItem it t (index d) w1 with
                | Ok true w2 =>
                    Ok tt
                      (putSlot sourceEntity sourceSlot (set_item None s1)
                         (set_game
                            (onItemAccepted acc (index d)
                               (acceptedDirection d) it (game w2)) w2))
                | Ok false w2 => Ok tt w2
                | Throw e w2 => Throw e w2
                end
          end end end
      end
  end.
Proof.
  unfold updateSlot, bind. rewrite readSlot_eq.
  destruct (slotOf w sourceEntity sourceSlot) as [s|] eqn:Hs; [|reflexivity].
  destruct (item s) as [it|]; [|reflexivity].
  rewrite writeSlot_eq, Hs. simpl.
  rewrite readSlot_eq, slotOf_putSlot_eq by (by rewrite Hs). simpl.
  destruct (Qltb _ 1); [reflexivity|].
  unfold deref, component, gets, query, ret, throw.
  destruct (cachedTargetEntity s) as [t|]; [|reflexivity].
  rewrite ItemAcceptor_putSlot.
  destruct (ItemAcceptor (components (heap w t))) as [acc|]; [|reflexivity].
  destruct (cachedDestSlot s) as [d|]; [|reflexivity].
  rewrite game_putSlot.
  destruct (canAcceptItem acc (index d) it (game w)); [|reflexivity]. simpl.
  destruct (tryPassOverItem_frame it t (index d)
              (putSlot sourceEntity sourceSlot
                 (set_progress (Math_min 1 (Number_add (progress s) growth)) s) w))
    as [g' Hframe].
  destruct (tryPassOverItem it t (index d) _) as [[] w2|e w2]; try reflexivity.
  simpl in Hframe. unfold call_, modify. rewrite writeSlot_eq.
  rewrite slotOf_set_game, Hframe, slotOf_set_game.
  rewrite slotOf_putSlot_eq by (by rewrite Hs). reflexivity.
Qed.

(** Arithmetic of the progress. *)

Lemma Math_min_le_1 x : (Math_min 1 x <= 1)%Q.
Proof. apply Q.le_min_l. Qed.

Lemma representable_Number_round x :
  roundsToFormat -> representable (Number_round x).
Proof. intros (_ & _ & _ & Hidem). apply Hidem. Qed.

Lemma representable_Math_min x :
  roundsToFormat -> representable x -> representable (Math_min 1 x).
Proof.
  intros (_ & _ & Hone & _) Hx. unfold Math_min, Qmin, GenericMinMax.gmin.
  by destruct (1 ?= x)%Q.
Qed.

Lemma Number_round_nonneg x :
  roundsToFormat -> (0 <= x)%Q -> (0 <= Number_round x)%Q.
Proof.
  intros (Hmono & Hzero & _) Hx. rewrite <- Hzero. by apply Hmono.
Qed.

(** Adding a growth that is not negative does not take a number of the
    format below itself. *)
Lemma Number_add_ge p growth :
  roundsToFormat -> representable p -> (0 <= growth)%Q ->
  (p <= Number_add p growth)%Q.
Proof.
  intros (Hmono & _) Hp Hg. unfold Number_add.
  apply Qle_trans with (Number_round p).
  - unfold representable in Hp. rewrite Hp. apply Qle_refl.
  - apply Hmono. rewrite <- (Qplus_0_r p) at 1.
    apply Qplus_le_compat; [apply Qle_refl|done].
Qed.

Lemma Math_min_ge p growth :
  roundsToFormat -> representable p ->
  (p <= 1)%Q -> (0 <= growth)%Q -> (p <= Math_min 1 (Number_add p growth))%Q.
Proof.
  intros Hround Hrep Hp Hg. apply Q.min_glb; [assumption|].
  by apply Number_add_ge.
Qed.

Lemma Math_min_pinned x : Qltb (Math_min 1 x) 1 = false -> Math_min 1 x = 1%Q.
Proof.
  unfold Math_min, Qmin, GenericMinMax.gmin, Qltb.
  destruct (1 ?= x)%Q eqn:Hcmp; try reflexivity.
  intros Hlt. apply negb_false_iff, Qle_bool_iff in Hlt.
  apply Qgt_alt in Hcmp. exfalso. eapply Qlt_not_le; eassumption.
Qed.

(** The dispatcher looks at the capabilities of the receiver only. *)
Lemma firstAccepting_sameReceiver caps e e' it i :
  sameReceiver e e' ->
  forall g, firstAccepting caps (components e') it i g
          = firstAccepting caps (components e) it i g.
Proof.
  intros (_ & _ & _ & Hb & Hs & Hp & Hu & Hg).
  induction caps as [|cap caps IH]; intros g; simpl; [reflexivity|].
  assert (Hoffer : offer cap (components e') it i g
                   = offer cap (components e) it i g).
  { destruct cap; simpl; congruence. }
  rewrite Hoffer. destruct (offer cap (components e) it i g) as [[[] g']|];
    auto.
Qed.

Lemma sameReceiver_refl e : sameReceiver e e.
Proof. by repeat split. Qed.

Lemma sameReceiver_trans e1 e2 e3 :
  sameReceiver e1 e2 -> sameReceiver e2 e3 -> sameReceiver e1 e3.
Proof.
  unfold sameReceiver. intros H12 H23.
  destruct_and!. split_and!; congruence.
Qed.

End Transfer.

Section Recompute.
Context `{Collaborators}.

(** *** The cache builder only writes cache fields *)

Lemma slotFrame_refl s : slotFrame s s.
Proof. by repeat split. Qed.

Lemma slotFrame_trans s1 s2 s3 :
  slotFrame s1 s2 -> slotFrame s2 s3 -> slotFrame s1 s3.
Proof. unfold slotFrame. intros. destruct_and!. split_and!; congruence. Qed.

Lemma cacheStep_refl w : cacheStep w w.
Proof.
  unfold cacheStep. split_and!; try done.
  intros v j s Hs. eauto using slotFrame_refl.
Qed.

Lemma cacheStep_trans w1 w2 w3 :
  cacheStep w1 w2 -> cacheStep w2 w3 -> cacheStep w1 w3.
Proof.
  intros (Ha1 & Ht1 & Hd1 & Hr1 & He1 & Hs1 & Hn1)
         (Ha2 & Ht2 & Hd2 & Hr2 & He2 & Hs2 & Hn2).
  unfold cacheStep. split_and!; try congruence.
  - intros v. eapply sameReceiver_trans; eauto.
  - intros v. by rewrite He2.
  - intros v j s Hs. destruct (Hs1 v j s Hs) as (s' & Hs' & Hf1).
    destruct (Hs2 v j s' Hs') as (s'' & Hs'' & Hf2).
    eauto using slotFrame_trans.
  - auto.
Qed.

Lemma cacheStep_set_game g w w' : cacheStep w w' -> cacheStep w (set_game g w').
Proof. intros Hstep. exact Hstep. Qed.

Lemma cacheStep_set_areaToRecompute a w w' :
  cacheStep w w' -> cacheStep w (set_areaToRecompute a w').
Proof. intros Hstep. exact Hstep. Qed.

Lemma slotOf_putEjector_cached entity l c w v j :
  ejectorOf w entity = Some c ->
  slotOf (putEjector entity (set_cachedConnectedSlots l c) w) v j
  = slotOf w v j.
Proof.
  intros Hc. unfold slotOf. rewrite ejectorOf_putEjector.
  destruct (decide (entity = v)) as [<-|]; [|done]. by rewrite Hc.
Qed.

Lemma writeEjector_cached_cacheStep entity l :
  maintains cacheStep (writeEjector entity (set_cachedConnectedSlots l)).
Proof.
  intros w. rewrite writeEjector_eq.
  destruct (ejectorOf w entity) as [c|] eqn:Hc; [|apply cacheStep_refl].
  simpl. unfold cacheStep. split_and!; try done.
  - intros v. unfold sameReceiver. apply others_putEjector.
  - intros v. rewrite ejectorOf_putEjector.
    destruct (decide (entity = v)) as [<-|]; [|done]. by rewrite Hc.
  - intros v j s Hs. rewrite slotOf_putEjector_cached by done.
    eauto using slotFrame_refl.
  - intros v j Hs. by rewrite slotOf_putEjector_cached.
Qed.

Lemma writeSlot_cacheStep entity i f :
  (forall s, slotFrame s (f s)) -> maintains cacheStep (writeSlot entity i f).
Proof.
  intros Hf w. rewrite writeSlot_eq.
  destruct (slotOf w entity i) as [s|] eqn:Hs; [|apply cacheStep_refl].
  simpl. unfold cacheStep.
  assert (Hc : is_Some (ejectorOf w entity)).
  { unfold slotOf in Hs. destruct (ejectorOf w entity); [eauto|discriminate]. }
  destruct Hc as [c Hc].
  split_and!.
  - unfold putSlot. by rewrite Hc.
  - unfold putSlot. by rewrite Hc.
  - unfold putSlot. by rewrite Hc.
  - intros v. unfold putSlot. rewrite Hc. unfold sameReceiver.
    apply others_putEjector.
  - intros v. unfold putSlot. rewrite Hc, ejectorOf_putEjector.
    destruct (decide (entity = v)) as [<-|]; [|done]. rewrite Hc.
    split; eauto.
  - intros v j s0 Hs0. rewrite slotOf_putSlot by (by rewrite Hs).
    destruct (decide (entity = v /\ i = j)) as [[<- <-]|Hne].
    + exists (f s). split; [reflexivity|].
      assert (s0 = s) as -> by congruence. apply Hf.
    + eauto using slotFrame_refl.
  - intros v j Hs0. rewrite slotOf_putSlot by (by rewrite Hs).
    rewrite decide_False; [done|]. intros [<- <-]. congruence.
Qed.

Lemma set_cache_slotFrame d t s : slotFrame s (set_cache d t s).
Proof. by repeat split. Qed.

Lemma readEjector_maintains (R : World -> World -> Prop) entity :
  (forall w, R w w) -> maintains R (readEjector entity).
Proof.
  intros Hrefl w. rewrite readEjector_eq. destruct (ejectorOf w entity); apply Hrefl.
Qed.

Lemma readSlot_maintains (R : World -> World -> Prop) entity i :
  (forall w, R w w) -> maintains R (readSlot entity i).
Proof.
  intros Hrefl w. rewrite readSlot_eq. destruct (slotOf w entity i); apply Hrefl.
Qed.

Lemma recomputeSlot_cacheStep staticComp entity i :
  maintains cacheStep (recomputeSlot staticComp entity i).
Proof.
  unfold recomputeSlot.
  apply (maintains_bind _ cacheStep_trans);
    [apply writeSlot_cacheStep, set_cache_slotFrame|]. intros _.
  apply (maintains_bind _ cacheStep_trans);
    [apply readSlot_maintains, cacheStep_refl|]. intros ejectorSlot.
  apply (maintains_bind _ cacheStep_trans);
    [apply maintains_deref, cacheStep_refl|]. intros sc.
  apply (maintains_bind _ cacheStep_trans);
    [apply maintains_gets, cacheStep_refl|]. intros [targetEntity|];
    [|apply maintains_ret, cacheStep_refl].
  apply (maintains_bind _ cacheStep_trans);
    [apply maintains_gets, cacheStep_refl|]. intros [acc|];
    (apply (maintains_bind _ cacheStep_trans);
       [apply maintains_gets, cacheStep_refl|]); intros tsc;
    [|apply maintains_ret, cacheStep_refl].
  apply (maintains_bind _ cacheStep_trans);
    [apply maintains_deref, cacheStep_refl|]. intros tsc'.
  destruct (findMatchingSlot _ _ _) as [matchingSlot|];
    [|apply maintains_ret, cacheStep_refl].
  apply (maintains_bind _ cacheStep_trans);
    [apply readEjector_maintains, cacheStep_refl|]. intros c.
  apply (maintains_bind _ cacheStep_trans).
  - destruct (cachedConnectedSlots c); apply writeEjector_cached_cacheStep.
  - intros _. apply writeSlot_cacheStep, set_cache_slotFrame.
Qed.

Lemma recomputeSingleEntityCache_cacheStep entity :
  maintains cacheStep (recomputeSingleEntityCache entity).
Proof.
  unfold recomputeSingleEntityCache.
  apply (maintains_bind _ cacheStep_trans);
    [apply maintains_gets, cacheStep_refl|]. intros staticComp.
  apply (maintains_bind _ cacheStep_trans);
    [apply writeEjector_cached_cacheStep|]. intros _.
  apply (maintains_bind _ cacheStep_trans);
    [apply readEjector_maintains, cacheStep_refl|]. intros ejectorComp.
  apply (maintains_forEach _ cacheStep_refl cacheStep_trans). intros i.
  apply recomputeSlot_cacheStep.
Qed.

Lemma recomputeTile_cacheStep recomputedEntities x y :
  maintains cacheStep (recomputeTile recomputedEntities x y).
Proof.
  unfold recomputeTile.
  apply (maintains_bind _ cacheStep_trans);
    [apply maintains_gets, cacheStep_refl|]. intros [entity|];
    [|apply maintains_ret, cacheStep_refl].
  apply (maintains_bind _ cacheStep_trans);
    [apply maintains_gets, cacheStep_refl|]. intros ejectorComp.
  destruct (_ && _); [|apply maintains_ret, cacheStep_refl].
  apply (maintains_bind _ cacheStep_trans);
    [apply recomputeSingleEntityCache_cacheStep|].
  intros _. apply maintains_ret, cacheStep_refl.
Qed.

Lemma recomputeAreaCache_cacheStep area :
  maintains cacheStep (recomputeAreaCache area).
Proof.
  unfold recomputeAreaCache.
  apply (maintains_bind _ cacheStep_trans);
    [|intros _; apply maintains_ret, cacheStep_refl].
  apply (maintains_foldEach _ cacheStep_refl cacheStep_trans). intros done x.
  apply (maintains_foldEach _ cacheStep_refl cacheStep_trans).
  clear done. intros done y. apply recomputeTile_cacheStep.
Qed.

Lemma recomputeCache_cacheStep : maintains cacheStep recomputeCache.
Proof.
  unfold recomputeCache.
  apply (maintains_bind _ cacheStep_trans);
    [apply maintains_gets, cacheStep_refl|]. intros [area|].
  - apply (maintains_bind _ cacheStep_trans).
    { destruct (_ && _); [|apply maintains_ret, cacheStep_refl].
      intros w. apply cacheStep_set_game, cacheStep_refl. }
    intros _. apply (maintains_bind _ cacheStep_trans);
      [apply recomputeAreaCache_cacheStep|].
    intros _ w. apply cacheStep_set_areaToRecompute, cacheStep_refl.
  - apply (maintains_bind _ cacheStep_trans).
    { destruct (_ && _); [|apply maintains_ret, cacheStep_refl].
      intros w. apply cacheStep_set_game, cacheStep_refl. }
    intros _. apply (maintains_bind _ cacheStep_trans);
      [apply maintains_gets, cacheStep_refl|]. intros entities.
    apply (maintains_forEach _ cacheStep_refl cacheStep_trans).
    intros entity. apply recomputeSingleEntityCache_cacheStep.
Qed.

End Recompute.

Section Tick.
Context `{Collaborators}.

(** *** One tick *)

Lemma progressGrowth_eq w : progressGrowth w = Ok (growthOf w) w.
Proof.
  unfold growthOf, progressGrowth, bind, query, gets, ret.
  by destruct (G_IS_DEV && debug_instantBelts globalConfig).
Qed.

Lemma growthOf_nonneg w :
  roundsToFormat ->
  (forall g, (0 <= getBeltBaseSpeed g)%Q) ->
  (0 <= itemSpacingOnBelts globalConfig)%Q ->
  (0 <= deltaSeconds w)%Q ->
  (0 <= growthOf w)%Q.
Proof.
  intros Hround Hspeed Hspacing Hdelta.
  unfold growthOf, progressGrowth, bind, query, gets, ret.
  destruct (G_IS_DEV && debug_instantBelts globalConfig); [done|].
  unfold Number_mul, Number_div.
  apply Number_round_nonneg; [done|].
  apply Qmult_le_0_compat; [|assumption].
  apply Number_round_nonneg; [done|].
  apply Qmult_le_0_compat; [|done].
  apply Number_round_nonneg; [done|].
  by apply Qmult_le_0_compat.
Qed.

Lemma update_eq w :
  update w =
  match consumePending w with
  | Ok _ w1 => transferItems (growthOf w1) w1
  | Throw e w1 => Throw e w1
  end.
Proof.
  unfold update, consumePending, bind, gets.
  destruct (areaToRecompute w).
  - destruct (recomputeCache w) as [[] w1|e w1]; [|reflexivity].
    by rewrite progressGrowth_eq.
  - unfold ret. by rewrite progressGrowth_eq.
Qed.

Lemma consumePending_cacheStep : maintains cacheStep consumePending.
Proof.
  unfold consumePending. apply (maintains_bind _ cacheStep_trans);
    [apply maintains_gets, cacheStep_refl|].
  intros [area|]; [apply recomputeCache_cacheStep|].
  apply maintains_ret, cacheStep_refl.
Qed.

(** *** The visits of the other slots *)

(** A visit of another slot leaves slot [i] of [entity] as it is. *)
Lemma updateSlot_other growth v j entity i :
  ~ (v = entity /\ j = i) ->
  maintains (fun w w' => slotOf w' entity i = slotOf w entity i)
    (updateSlot growth v j).
Proof.
  intros Hne w. rewrite updateSlot_eq.
  destruct (slotOf w v j) as [s|] eqn:Hs; [|reflexivity].
  destruct (item s) as [it|]; [|reflexivity]. cbv zeta.
  set (s1 := set_progress (Math_min 1 (Number_add (progress s) growth)) s).
  assert (Hw1 : slotOf (putSlot v j s1 w) entity i = slotOf w entity i).
  { rewrite slotOf_putSlot by (by rewrite Hs). by rewrite decide_False. }
  destruct (Qltb (progress s1) 1); [exact Hw1|].
  destruct (cachedTargetEntity s) as [t|]; [|exact Hw1].
  destruct (ItemAcceptor (components (heap w t))) as [acc|]; [|exact Hw1].
  destruct (cachedDestSlot s) as [d|]; [|exact Hw1].
  destruct (negb _); [exact Hw1|].
  destruct (tryPassOverItem_frame it t (index d) (putSlot v j s1 w))
    as [g' Hframe].
  destruct (tryPassOverItem it t (index d) (putSlot v j s1 w))
    as [[] w2|e w2]; cbn [final] in *; subst w2; try exact Hw1.
  rewrite slotOf_putSlot.
  - rewrite decide_False by done. exact Hw1.
  - rewrite !slotOf_set_game, slotOf_putSlot_eq by (by rewrite Hs). eauto.
Qed.

Lemma slotUntouched_forEach {A} entity i (l : list A) (body : A -> M unit) :
  (forall a, a ∈ l ->
     maintains (fun w w' => slotOf w' entity i = slotOf w entity i) (body a)) ->
  maintains (fun w w' => slotOf w' entity i = slotOf w entity i)
    (forEach l body).
Proof.
  apply maintains_forEach_in; [done|]. intros w1 w2 w3 H12 H23. congruence.
Qed.

(** *** The transfer loop leaves the cache state alone *)

Lemma sameCache_refl w : sameCache w w.
Proof. by split. Qed.

Lemma sameCache_trans w1 w2 w3 :
  sameCache w1 w2 -> sameCache w2 w3 -> sameCache w1 w3.
Proof.
  intros [Hc1 Hs1] [Hc2 Hs2]. split.
  - intros v. by rewrite Hc2.
  - intros v j. by rewrite Hs2.
Qed.

Lemma sameCache_putSlot w entity i s s' :
  slotOf w entity i = Some s -> cacheOf s' = cacheOf s ->
  sameCache w (putSlot entity i s' w).
Proof.
  intros Hs Hcache. split.
  - intros v. apply cachedConnectedSlots_putSlot.
  - intros v j. rewrite slotOf_putSlot by (by rewrite Hs).
    destruct (decide (entity = v /\ i = j)) as [[<- <-]|]; [|done].
    rewrite Hs. simpl. by rewrite Hcache.
Qed.

Lemma updateSlot_sameCache growth sourceEntity sourceSlot :
  maintains sameCache (updateSlot growth sourceEntity sourceSlot).
Proof.
  intros w. rewrite updateSlot_eq.
  destruct (slotOf w sourceEntity sourceSlot) as [s|] eqn:Hs;
    [|apply sameCache_refl].
  destruct (item s) as [it|]; [|apply sameCache_refl]. cbv zeta.
  set (s1 := set_progress (Math_min 1 (Number_add (progress s) growth)) s).
  set (w1 := putSlot sourceEntity sourceSlot s1 w).
  assert (Hw1 : sameCache w w1) by (by eapply sameCache_putSlot).
  destruct (Qltb (progress s1) 1); [exact Hw1|].
  destruct (cachedTargetEntity s) as [t|]; [|exact Hw1].
  destruct (ItemAcceptor (components (heap w t))) as [acc|]; [|exact Hw1].
  destruct (cachedDestSlot s) as [d|]; [|exact Hw1].
  destruct (negb _); [exact Hw1|].
  destruct (tryPassOverItem_frame it t (index d) w1) as [g' Hframe].
  destruct (tryPassOverItem it t (index d) w1) as [[] w2|e w2];
    cbn [final] in *; subst w2; try exact Hw1.
  eapply sameCache_trans; [exact Hw1|].
  apply (sameCache_putSlot
           (set_game (onItemAccepted acc (index d) (acceptedDirection d) it g')
              (set_game g' w1)) sourceEntity sourceSlot s1); [|done].
  rewrite !slotOf_set_game. subst w1.
  apply slotOf_putSlot_eq. by rewrite Hs.
Qed.

Lemma transferItems_sameCache growth :
  maintains sameCache (transferItems growth).
Proof.
  unfold transferItems. apply (maintains_bind _ sameCache_trans).
  - apply maintains_gets, sameCache_refl.
  - intros entities.
    apply (maintains_forEach _ sameCache_refl sameCache_trans).
    intros sourceEntity. apply (maintains_bind _ sameCache_trans).
    + apply readEjector_maintains, sameCache_refl.
    + intros c. destruct (cachedConnectedSlots c) as [connected|].
      * apply (maintains_forEach _ sameCache_refl sameCache_trans).
        intros j. apply updateSlot_sameCache.
      * apply maintains_ret, sameCache_refl.
Qed.

(** After the pending area has been consumed, the rest of [update] does
    not touch the cache. *)
Lemma update_sameCache w w1 :
  consumePending w = Ok tt w1 -> sameCache w1 (final (update w)).
Proof.
  intros Hconsume. rewrite update_eq, Hconsume.
  apply transferItems_sameCache.
Qed.

End Tick.

Section SingleEntity.
Context `{Collaborators}.

(** *** [recomputeSingleEntityCache] and the connections of the slots *)

Lemma ejectorUpdated_putEjector entity c w :
  ejectorUpdated entity c w (putEjector entity c w).
Proof.
  unfold ejectorUpdated. split_and!; try reflexivity.
  - rewrite heap_putEjector. by rewrite decide_True.
  - intros v Hv. rewrite heap_putEjector. by rewrite decide_False.
Qed.

Lemma ejectorUpdated_trans entity c1 c2 w w1 w2 :
  ejectorUpdated entity c1 w w1 -> ejectorUpdated entity c2 w1 w2 ->
  ejectorUpdated entity c2 w w2.
Proof.
  intros (? & ? & ? & ? & ? & ? & Hu1 & Ho1) (? & ? & ? & ? & ? & ? & Hu2 & Ho2).
  unfold ejectorUpdated. split_and!; try congruence.
  - rewrite Hu2, Hu1. reflexivity.
  - intros v Hv. rewrite Ho2, Ho1 by done. reflexivity.
Qed.

Lemma ejectorUpdated_ejectorOf entity c w w' :
  ejectorUpdated entity c w w' -> ejectorOf w' entity = Some c.
Proof. intros (_ & _ & _ & _ & _ & _ & Hu & _). unfold ejectorOf. by rewrite Hu. Qed.

Lemma ejectorUpdated_sameReceiver entity c w w' v :
  ejectorUpdated entity c w w' -> sameReceiver (heap w v) (heap w' v).
Proof.
  intros (_ & _ & _ & _ & _ & _ & Hu & Ho).
  destruct (decide (v = entity)) as [->|Hv].
  - rewrite Hu. by repeat split.
  - rewrite Ho by done. apply sameReceiver_refl.
Qed.

(** What a slot resolves to depends on the tiles and on the acceptor and
    placement of the entities only. *)
Lemma resolveSlot_agree w w' staticComp s :
  tiles w' = tiles w ->
  (forall v, sameReceiver (heap w v) (heap w' v)) ->
  resolveSlot w' staticComp s = resolveSlot w staticComp s.
Proof.
  intros Ht Hsame. unfold resolveSlot. rewrite Ht.
  destruct staticComp as [sc|]; simpl; [|reflexivity].
  destruct (tiles w _ _) as [t|]; [|reflexivity].
  destruct (Hsame t) as (_ & -> & -> & _). reflexivity.
Qed.

Lemma putSlot_putEjector entity i s c w :
  ejectorOf w entity = Some c ->
  putSlot entity i s w = putEjector entity (set_slots (<[i := s]> (slots c)) c) w.
Proof. intros Hc. unfold putSlot. by rewrite Hc. Qed.

Lemma recomputeSlot_spec staticComp entity i w c s :
  ejectorOf w entity = Some c -> slots c !! i = Some s ->
  match resolveSlot w staticComp s with
  | Some conn =>
      exists w', recomputeSlot staticComp entity i w = Ok tt w' /\
                 ejectorUpdated entity (stepped c i s conn) w w'
  | None => exists w', recomputeSlot staticComp entity i w = Throw TypeError w'
  end.
Proof.
  intros Hc Hi.
  assert (Hs : slotOf w entity i = Some s) by (unfold slotOf; by rewrite Hc).
  set (cleared := set_cache None None s).
  set (w1 := putSlot entity i cleared w).
  assert (Hupd1 : ejectorUpdated entity
                    (set_slots (<[i := cleared]> (slots c)) c) w w1).
  { subst w1. rewrite (putSlot_putEjector _ _ _ _ _ Hc).
    apply ejectorUpdated_putEjector. }
  assert (Hs1 : slotOf w1 entity i = Some cleared).
  { apply slotOf_putSlot_eq. by rewrite Hs. }
  unfold recomputeSlot, bind. rewrite writeSlot_eq, Hs. fold cleared. fold w1.
  rewrite readSlot_eq, Hs1. unfold resolveSlot, targetTile, ejectDirection.
  unfold getTileContent, getTileContentXY, gets, component.
  destruct staticComp as [sc|]; simpl; [|by eexists].
  destruct Hupd1 as (Hg1 & Ha1 & Hl1 & Ht1 & Hgm1 & Hd1 & Hu1 & Ho1).
  pose proof (conj Hg1 (conj Ha1 (conj Hl1 (conj Ht1 (conj Hgm1
                (conj Hd1 (conj Hu1 Ho1))))))) as Hupd1.
  rewrite Ht1.
  destruct (tiles w _ _) as [t|]; cbv beta iota.
  2:{ exists w1. split; [reflexivity|]. exact Hupd1. }
  destruct (ejectorUpdated_sameReceiver _ _ _ _ t Hupd1) as (_ & -> & -> & _).
  destruct (ItemAcceptor (components (heap w t))) as [acc|]; cbv beta iota.
  2:{ exists w1. split; [reflexivity|]. exact Hupd1. }
  destruct (StaticMapEntity (components (heap w t))) as [tsc|]; simpl;
    [|by eexists].
  destruct (findMatchingSlot acc _ _) as [m|]; simpl.
  2:{ exists w1. split; [reflexivity|]. exact Hupd1. }
  rewrite readEjector_eq, (ejectorUpdated_ejectorOf _ _ _ _ Hupd1).
  cbn [cachedConnectedSlots set_slots].
  set (cached' := pushed (cachedConnectedSlots c) [i]).
  set (c1 := set_slots (<[i := cleared]> (slots c)) c) in *.
  assert (Hwrite : writeEjector entity (set_cachedConnectedSlots cached') w1
                   = Ok tt (putEjector entity (set_cachedConnectedSlots cached' c1) w1)).
  { rewrite writeEjector_eq, (ejectorUpdated_ejectorOf _ _ _ _ Hupd1). done. }
  assert (Hwrite' :
    match cachedConnectedSlots c with
    | Some connected =>
        writeEjector entity (set_cachedConnectedSlots (Some (connected ++ [i])))
    | None => writeEjector entity (set_cachedConnectedSlots (Some [i]))
    end w1 = Ok tt (putEjector entity (set_cachedConnectedSlots cached' c1) w1)).
  { rewrite <- Hwrite. subst cached'. by destruct (cachedConnectedSlots c). }
  rewrite Hwrite'. clear Hwrite Hwrite'.
  set (c2 := set_cachedConnectedSlots cached' c1).
  set (w2 := putEjector entity c2 w1).
  assert (Hupd2 : ejectorUpdated entity c2 w w2).
  { eapply ejectorUpdated_trans; [exact Hupd1|].
    apply ejectorUpdated_putEjector. }
  assert (Hs2 : slotOf w2 entity i = Some cleared).
  { unfold slotOf. rewrite (ejectorUpdated_ejectorOf _ _ _ _ Hupd2). simpl.
    apply list_lookup_insert_eq. by eapply lookup_lt_Some. }
  rewrite writeSlot_eq, Hs2.
  eexists. split; [reflexivity|].
  rewrite (putSlot_putEjector _ _ _ c2)
    by (by eapply ejectorUpdated_ejectorOf).
  eapply ejectorUpdated_trans; [exact Hupd2|].
  replace (stepped c i s (Some (t, m)))
    with (set_slots (<[i:=set_cache (Some m) (Some t) cleared]> (slots c2)) c2).
  - apply ejectorUpdated_putEjector.
  - unfold stepped, set_slots, c2, c1. simpl. f_equal.
    by rewrite list_insert_insert_eq.
Qed.

Lemma pushed_step cached k conn conns :
  pushed match conn with
         | Some _ => pushed cached [k]
         | None => cached
         end (connectedFrom (S k) conns)
  = pushed cached (connectedFrom k (conn :: conns)).
Proof.
  destruct conn as [p|]; simpl; [|reflexivity].
  destruct cached as [connected|]; simpl; [|reflexivity].
  by rewrite <- app_assoc.
Qed.

(** The loop over the slots, from any point on: [done] are the slots
    already treated, [rest] the ones to come. *)
Lemma recompute_loop staticComp entity w0 rest : forall done cached w,
  tiles w = tiles w0 ->
  (forall v, sameReceiver (heap w0 v) (heap w v)) ->
  ejectorOf w entity
  = Some {| slots := done ++ rest; cachedConnectedSlots := cached |} ->
  match mapM (resolveSlot w0 staticComp) rest with
  | Some conns =>
      exists w',
        forEach (seq (length done) (length rest))
          (recomputeSlot staticComp entity) w = Ok tt w' /\
        ejectorUpdated entity
          {| slots := done ++ zip_with (fun s conn => connect conn s) rest conns;
             cachedConnectedSlots :=
               pushed cached (connectedFrom (length done) conns) |} w w'
  | None =>
      exists w',
        forEach (seq (length done) (length rest))
          (recomputeSlot staticComp entity) w = Throw TypeError w'
  end.
Proof.
  induction rest as [|s rest IH]; intros done cached w Ht Hsame Hc.
  - simpl. exists w. split; [reflexivity|].
    replace (pushed cached []) with cached
      by (destruct cached; simpl; by rewrite ?app_nil_r).
    rewrite app_nil_r in *. unfold ejectorUpdated. split_and!; try done.
    unfold ejectorOf in Hc. destruct (heap w entity) as [? []]. simpl in *.
    by subst.
  - assert (Hi : (done ++ s :: rest) !! length done = Some s).
    { rewrite lookup_app_r by done. by rewrite Nat.sub_diag. }
    pose proof (recomputeSlot_spec staticComp entity (length done) w _ s Hc Hi)
      as Hstep.
    rewrite (resolveSlot_agree w0 w) in Hstep by done.
    cbn [mapM length seq forEach]. unfold bind.
    destruct (resolveSlot w0 staticComp s) as [conn|]; cbn [mbind option_bind].
    2:{ destruct Hstep as [w' ->]. by eexists. }
    destruct Hstep as (w1 & -> & Hupd1).
    specialize (IH (done ++ [connect conn s])
                   match conn with
                   | Some _ => pushed cached [length done]
                   | None => cached
                   end w1).
    rewrite length_app, Nat.add_1_r in IH.
    assert (Ht1 : tiles w1 = tiles w0).
    { destruct Hupd1 as (_ & _ & _ & -> & _). done. }
    assert (Hsame1 : forall v, sameReceiver (heap w0 v) (heap w1 v)).
    { intros v. eapply sameReceiver_trans; [apply Hsame|].
      eapply ejectorUpdated_sameReceiver, Hupd1. }
    assert (Hc1 : ejectorOf w1 entity
                  = Some {| slots := (done ++ [connect conn s]) ++ rest;
                            cachedConnectedSlots :=
                              match conn with
                              | Some _ => pushed cached [length done]
                              | None => cached
                              end |}).
    { rewrite (ejectorUpdated_ejectorOf _ _ _ _ Hupd1). unfold stepped. simpl.
      f_equal. f_equal. rewrite <- app_assoc. simpl.
      rewrite insert_app_r_alt by done. by rewrite Nat.sub_diag. }
    specialize (IH Ht1 Hsame1 Hc1).
    destruct (mapM (resolveSlot w0 staticComp) rest) as [conns|];
      cbn [mbind option_bind mret option_ret].
    + destruct IH as (w' & Hrun & Hupd). exists w'. split; [exact Hrun|].
      rewrite pushed_step, <- app_assoc in Hupd.
      eapply ejectorUpdated_trans; [exact Hupd1|exact Hupd].
    + destruct IH as [w' Hrun]. by exists w'.
Qed.

(** [recomputeSingleEntityCache] against [recomputation]: it returns
    exactly when [recomputation] is defined, leaving that component in
    place of the ejector component of the entity. *)
Lemma recomputeSingleEntityCache_spec entity w :
  match recomputation w entity with
  | Some c' =>
      exists w', recomputeSingleEntityCache entity w = Ok tt w' /\
                 ejectorUpdated entity c' w w'
  | None =>
      exists w', recomputeSingleEntityCache entity w = Throw TypeError w'
  end.
Proof.
  unfold recomputation, recomputeSingleEntityCache, bind, component, gets.
  rewrite writeEjector_eq.
  destruct (ejectorOf w entity) as [c|] eqn:Hc; cbn [mbind option_bind];
    [|by eexists].
  set (c0 := set_cachedConnectedSlots None c).
  set (w1 := putEjector entity c0 w).
  assert (Hupd1 : ejectorUpdated entity c0 w w1)
    by apply ejectorUpdated_putEjector.
  rewrite readEjector_eq, (ejectorUpdated_ejectorOf _ _ _ _ Hupd1).
  pose proof (recompute_loop (StaticMapEntity (components (heap w entity)))
                entity w (slots c) [] None w1) as Hloop.
  assert (Ht1 : tiles w1 = tiles w) by reflexivity.
  assert (Hsame1 : forall v, sameReceiver (heap w v) (heap w1 v)).
  { intros v. eapply ejectorUpdated_sameReceiver, Hupd1. }
  assert (Hc1 : ejectorOf w1 entity
                = Some {| slots := [] ++ slots c; cachedConnectedSlots := None |})
    by (by rewrite (ejectorUpdated_ejectorOf _ _ _ _ Hupd1)).
  specialize (Hloop Ht1 Hsame1 Hc1).
  cbn [length app slots c0 set_cachedConnectedSlots] in *.
  destruct (mapM _ (slots c)) as [conns|].
  - destruct Hloop as (w' & Hrun & Hupd). exists w'.
    split; [exact Hrun|]. eapply ejectorUpdated_trans; eassumption.
  - exact Hloop.
Qed.

(** Where every entity with an acceptor on a target tile is placed, the
    loop body finds the connection of the slot. *)
Lemma resolveSlot_connectionOf w staticComp s :
  (forall t, tiles w (Vector.x (targetTile staticComp s))
               (Vector.y (targetTile staticComp s)) = Some t ->
     is_Some (ItemAcceptor (components (heap w t))) ->
     is_Some (StaticMapEntity (components (heap w t)))) ->
  resolveSlot w (Some staticComp) s = Some (connectionOf w staticComp s).
Proof.
  intros Hplaced. unfold resolveSlot, connectionOf. cbn [mbind option_bind].
  destruct (tiles w _ _) as [t|]; [|reflexivity]. cbn [mbind option_bind].
  specialize (Hplaced t eq_refl).
  destruct (ItemAcceptor (components (heap w t))) as [acc|];
    cbn [mbind option_bind]; [|reflexivity].
  destruct Hplaced as [tsc ->]; [eauto|]. cbn [mbind option_bind].
  by destruct (findMatchingSlot _ _ _).
Qed.

Lemma mapM_resolveSlot_connectionOf w staticComp l :
  (forall s t, s ∈ l ->
     tiles w (Vector.x (targetTile staticComp s))
       (Vector.y (targetTile staticComp s)) = Some t ->
     is_Some (ItemAcceptor (components (heap w t))) ->
     is_Some (StaticMapEntity (components (heap w t)))) ->
  mapM (resolveSlot w (Some staticComp)) l
  = Some (connectionOf w staticComp <$> l).
Proof.
  induction l as [|s l IH]; intros Hplaced; [reflexivity|].
  cbn [mapM fmap list_fmap].
  rewrite resolveSlot_connectionOf by (intros t; apply Hplaced; left).
  rewrite IH by (intros s' t Hs'; apply Hplaced; by right).
  reflexivity.
Qed.

(** C4: for an entity with an ejector and placed on the map,
    [recomputeSingleEntityCache] returns, without error, and leaves the
    ejector component rebuilt: every slot whose target tile (its world
    position plus the unit vector of its world direction) holds an entity
    with an acceptor that has a matching slot, for the tile and the
    direction taken to the local space of the target, has that entity
    and slot cached; the cache fields of every other slot are cleared;
    [cachedConnectedSlots] holds the connected slots in slot order (and
    stays cleared when there is none); nothing else changes. *)
Theorem recomputeSingleEntityCache_connects
    (w : World) (entity : uid) (c : ItemEjectorComponent)
    (staticComp : StaticMapEntityComponent) :
  ejectorOf w entity = Some c ->
  StaticMapEntity (components (heap w entity)) = Some staticComp ->
  (forall s t, s ∈ slots c ->
     tiles w (Vector.x (targetTile staticComp s))
       (Vector.y (targetTile staticComp s)) = Some t ->
     is_Some (ItemAcceptor (components (heap w t))) ->
     is_Some (StaticMapEntity (components (heap w t)))) ->
  exists w',
    recomputeSingleEntityCache entity w = Ok tt w' /\
    ejectorUpdated entity
      (rebuilt c (connectionOf w staticComp <$> slots c)) w w'.
Proof.
  intros Hc Hstatic Hplaced.
  pose proof (recomputeSingleEntityCache_spec entity w) as Hspec.
  unfold recomputation in Hspec. rewrite Hc, Hstatic in Hspec.
  cbn [mbind option_bind] in Hspec.
  rewrite mapM_resolveSlot_connectionOf in Hspec by exact Hplaced.
  exact Hspec.
Qed.

Lemma connectedFrom_nil k conns :
  connectedFrom k conns = [] <-> Forall (fun conn => conn = None) conns.
Proof.
  revert k. induction conns as [|[p|] conns IH]; intros k; simpl.
  - split; [constructor|done].
  - split; [done|]. by inversion 1.
  - rewrite IH. split; [by constructor|]. by inversion 1.
Qed.

Lemma pushed_None l : pushed None l = None <-> l = [].
Proof. by destruct l. Qed.

Lemma pushed_not_empty l : pushed None l <> Some [].
Proof. by destruct l. Qed.

Lemma cachedTargetEntity_connect conn s :
  cachedTargetEntity (connect conn s) = fst <$> conn.
Proof. by destruct conn as [[t m]|]. Qed.

(** C6, amended: [cachedConnectedSlots] has two states, not three.  After
    [recomputeSingleEntityCache] it is never an empty list: it is [null]
    exactly when no slot of the entity has a cached target, which is the
    value it has when the cache has been cleared and not computed, and a
    non-empty list otherwise. *)
Theorem recomputeSingleEntityCache_null_or_connected
    (w w' : World) (entity : uid) :
  recomputeSingleEntityCache entity w = Ok tt w' ->
  exists c', ejectorOf w' entity = Some c' /\
    cachedConnectedSlots c' <> Some [] /\
    (cachedConnectedSlots c' = None <->
     forall s', s' ∈ slots c' -> cachedTargetEntity s' = None).
Proof.
  intros Hrun.
  pose proof (recomputeSingleEntityCache_spec entity w) as Hspec.
  destruct (recomputation w entity) as [c'|] eqn:Hrec.
  2:{ destruct Hspec as [w'' Hthrow]. congruence. }
  destruct Hspec as (w'' & Hrun' & Hupd).
  assert (w'' = w') as -> by congruence.
  exists c'. split; [by eapply ejectorUpdated_ejectorOf|].
  unfold recomputation in Hrec.
  destruct (ejectorOf w entity) as [c|]; [|discriminate].
  cbn [mbind option_bind] in Hrec.
  destruct (mapM _ (slots c)) as [conns|] eqn:Hconns; [|discriminate].
  injection Hrec as <-. cbn [rebuilt cachedConnectedSlots slots].
  split; [apply pushed_not_empty|].
  rewrite pushed_None, connectedFrom_nil.
  apply length_mapM in Hconns.
  split.
  - intros Hnone s' Hs'. apply list_elem_of_lookup in Hs' as [i Hi].
    apply lookup_zip_with_Some in Hi as (s & conn & -> & _ & Hconn).
    rewrite cachedTargetEntity_connect.
    rewrite Forall_lookup in Hnone. by rewrite (Hnone i conn Hconn).
  - intros Hnone. apply Forall_lookup. intros i conn Hconn.
    destruct (lookup_lt_is_Some_2 (slots c) i) as [s Hs].
    { rewrite Hconns. by eapply lookup_lt_Some. }
    specialize (Hnone (connect conn s)).
    rewrite cachedTargetEntity_connect in Hnone.
    destruct conn as [p|]; [|reflexivity]. discriminate Hnone.
    apply list_elem_of_lookup. exists i. apply lookup_zip_with_Some. eauto.
Qed.

End SingleEntity.

Section Area.
Context `{Collaborators}.

(** *** Recomputing many entities *)

Lemma resolveSlot_slotFrame w staticComp s s' :
  slotFrame s s' -> resolveSlot w staticComp s' = resolveSlot w staticComp s.
Proof.
  intros (Hp & Hd & _). unfold resolveSlot, targetTile, ejectDirection.
  by rewrite Hp, Hd.
Qed.

Lemma connect_slotFrame conn s s' :
  slotFrame s s' -> connect conn s' = connect conn s.
Proof.
  intros (Hp & Hd & Hi & Hpr). unfold connect, set_cache.
  destruct conn as [[t m]|]; by rewrite Hp, Hd, Hi, Hpr.
Qed.

Lemma same_length_lookup {A B} (l : list A) (k : list B) :
  (forall i, is_Some (l !! i) <-> is_Some (k !! i)) -> length l = length k.
Proof.
  intros Hlookup.
  destruct (Nat.lt_trichotomy (length l) (length k)) as [Hlt|[Heq|Hlt]];
    [|assumption|].
  - apply lookup_lt_is_Some_2 in Hlt. apply Hlookup in Hlt.
    apply lookup_lt_is_Some_1 in Hlt. lia.
  - apply lookup_lt_is_Some_2 in Hlt. apply Hlookup in Hlt.
    apply lookup_lt_is_Some_1 in Hlt. lia.
Qed.

(** A recomputation does not depend on what the cache holds. *)
Lemma recomputation_cacheStep w w' entity :
  cacheStep w w' -> recomputation w' entity = recomputation w entity.
Proof.
  intros (_ & Ht & _ & Hsame & Hsome & Hslots & Hnone).
  unfold recomputation.
  destruct (Hsame entity) as (_ & -> & _).
  destruct (ejectorOf w entity) as [c|] eqn:Hc.
  2:{ destruct (ejectorOf w' entity) as [c'|] eqn:Hc'; [|reflexivity].
      destruct (proj1 (Hsome entity)) as [? ?]; [by rewrite Hc'|].
      congruence. }
  destruct (ejectorOf w' entity) as [c'|] eqn:Hc'.
  2:{ destruct (proj2 (Hsome entity)) as [? ?]; [by rewrite Hc|]. congruence. }
  cbn [mbind option_bind].
  assert (Hframe : Forall2 slotFrame (slots c) (slots c')).
  { apply Forall2_same_length_lookup. split.
    - apply same_length_lookup. intros i. split.
      + intros [s Hs]. destruct (Hslots entity i s) as (s' & Hs' & _).
        { unfold slotOf. by rewrite Hc. }
        unfold slotOf in Hs'. rewrite Hc' in Hs'. eauto.
      + intros [s' Hs']. destruct (slots c !! i) as [s|] eqn:Hs; [eauto|].
        specialize (Hnone entity i). unfold slotOf in Hnone.
        rewrite Hc, Hc' in Hnone. simpl in Hnone.
        rewrite (Hnone Hs) in Hs'. discriminate.
    - intros i s s' Hs Hs'. destruct (Hslots entity i s) as (s'' & Hs'' & Hf).
      { unfold slotOf. by rewrite Hc. }
      unfold slotOf in Hs''. rewrite Hc' in Hs''. simpl in Hs''. congruence. }
  assert (Hconns :
    mapM (resolveSlot w' (StaticMapEntity (components (heap w entity))))
         (slots c')
    = mapM (resolveSlot w (StaticMapEntity (components (heap w entity))))
           (slots c)).
  { apply Forall2_mapM_ext. apply Forall2_flip.
    eapply Forall2_impl; [exact Hframe|]. intros s s' Hf. simpl.
    rewrite (resolveSlot_agree w w') by done.
    by apply resolveSlot_slotFrame. }
  rewrite Hconns. destruct (mapM _ (slots c)) as [conns|]; [|reflexivity].
  cbn [mbind option_bind]. f_equal. unfold rebuilt. f_equal.
  clear Hconns. revert conns.
  induction Hframe as [|s s' l l' Hf Hl IH]; intros conns; [reflexivity|].
  destruct conns as [|conn conns]; [reflexivity|]. simpl.
  by rewrite IH, (connect_slotFrame _ s s').
Qed.

(** One more entity recomputed. *)
Lemma recompute_step w0 done w entity :
  cacheStep w0 w -> recomputedOn w0 done w ->
  match recomputation w0 entity with
  | Some _ =>
      exists w', recomputeSingleEntityCache entity w = Ok tt w' /\
        cacheStep w0 w' /\ recomputedOn w0 ({[entity]} ∪ done) w' /\
        gameInitialized w' = gameInitialized w /\
        areaToRecompute w' = areaToRecompute w /\
        game w' = game w
  | None => exists w', recomputeSingleEntityCache entity w = Throw TypeError w'
  end.
Proof.
  intros Hcache Hon.
  pose proof (recomputeSingleEntityCache_spec entity w) as Hspec.
  rewrite (recomputation_cacheStep w0 w) in Hspec by done.
  pose proof (recomputeSingleEntityCache_cacheStep entity w) as Hstep.
  destruct (recomputation w0 entity) as [c'|] eqn:Hrec; [|exact Hspec].
  destruct Hspec as (w' & Hrun & Hupd). rewrite Hrun in Hstep.
  exists w'. split; [exact Hrun|].
  split; [eapply cacheStep_trans; eassumption|].
  destruct Hupd as (Hg & Ha & _ & _ & Hgm & _ & Hu & Ho).
  split_and!; try assumption.
  intros v. destruct (decide (v = entity)) as [->|Hv].
  - rewrite decide_True by (apply elem_of_union_l; by apply elem_of_singleton).
    rewrite Hu, (Hon entity).
    unfold recomputedEntity. rewrite Hrec.
    by destruct (decide (entity ∈ done)).
  - rewrite Ho, (Hon v) by done.
    destruct (decide (v ∈ done)).
    + rewrite decide_True by (by apply elem_of_union_r). done.
    + rewrite decide_False; [done|].
      rewrite elem_of_union, elem_of_singleton. tauto.
Qed.

Lemma is_Some_ejectorOf_cacheStep w w' v :
  cacheStep w w' -> is_Some (ejectorOf w' v) <-> is_Some (ejectorOf w v).
Proof. intros (_ & _ & _ & _ & Hsome & _). apply Hsome. Qed.

Lemma recomputeTile_eq done x y w :
  recomputeTile done x y w =
  match tiles w x y with
  | None => Ok done w
  | Some entity =>
      if negb (bool_decide (entity ∈ done))
         && bool_decide (is_Some (ejectorOf w entity))
      then match recomputeSingleEntityCache entity w with
           | Ok _ w1 => Ok ({[entity]} ∪ done) w1
           | Throw e w1 => Throw e w1
           end
      else Ok done w
  end.
Proof.
  unfold recomputeTile, bind, getTileContentXY, component, gets, ret.
  destruct (tiles w x y) as [entity|]; [|reflexivity]. unfold gets.
  fold (ejectorOf w entity). destruct (negb _ && _); [|reflexivity].
  by destruct (recomputeSingleEntityCache entity w) as [[] w1|e w1].
Qed.

(** The loop of [recomputeAreaCache], over the list of its tiles. *)
Lemma area_loop w0 ps : forall done w,
  cacheStep w0 w -> recomputedOn w0 done w ->
  match areaRun w0 ps done with
  | Some done' =>
      exists w',
        foldEach ps done (fun done p => recomputeTile done p.1 p.2) w
        = Ok done' w' /\
        cacheStep w0 w' /\ recomputedOn w0 done' w' /\
        gameInitialized w' = gameInitialized w /\
        areaToRecompute w' = areaToRecompute w /\
        game w' = game w
  | None =>
      exists w',
        foldEach ps done (fun done p => recomputeTile done p.1 p.2) w
        = Throw TypeError w'
  end.
Proof.
  induction ps as [|[x y] ps IH]; intros done w Hcache Hon.
  - simpl. exists w. by split_and!.
  - assert (Hfold :
      foldEach ((x, y) :: ps) done (fun done p => recomputeTile done p.1 p.2) w
      = match recomputeTile done x y w with
        | Ok done1 w1 =>
            foldEach ps done1 (fun done p => recomputeTile done p.1 p.2) w1
        | Throw e w1 => Throw e w1
        end) by reflexivity.
    rewrite Hfold, recomputeTile_eq. clear Hfold. cbn [areaRun].
    replace (tiles w x y) with (tiles w0 x y)
      by (by destruct Hcache as (_ & -> & _)).
    destruct (tiles w0 x y) as [entity|]; [|apply IH; assumption].
    rewrite (bool_decide_ext (is_Some (ejectorOf w entity))
                             (is_Some (ejectorOf w0 entity)))
      by (by apply is_Some_ejectorOf_cacheStep).
    destruct (negb _ && _); [|apply IH; assumption].
    pose proof (recompute_step w0 done w entity Hcache Hon) as Hstep.
    destruct (recomputation w0 entity) as [c'|]; cbn [mbind option_bind].
    + destruct Hstep as (w1 & -> & Hcache1 & Hon1 & Hg1 & Ha1 & Hgm1).
      specialize (IH ({[entity]} ∪ done) w1 Hcache1 Hon1).
      destruct (areaRun w0 ps ({[entity]} ∪ done)) as [done'|].
      * destruct IH as (w' & Hrun & ? & ? & ? & ? & ?). exists w'.
        split_and!; try assumption; congruence.
      * exact IH.
    + destruct Hstep as (w1 & ->). by eexists.
Qed.

(** The nested loops of [recomputeAreaCache] are one loop over
    [areaTiles]. *)
Lemma foldEach_app {A S} (l1 l2 : list A) (s : S) (body : S -> A -> M S) w :
  foldEach (l1 ++ l2) s body w
  = (do s' <- foldEach l1 s body; foldEach l2 s' body) w.
Proof.
  revert s w. induction l1 as [|a l1 IH]; intros s w; simpl; [reflexivity|].
  unfold bind in *. destruct (body s a w) as [s' w'|e w']; [|reflexivity].
  apply IH.
Qed.

Lemma foldEach_fmap {A B S} (f : A -> B) (l : list A) (s : S)
    (body : S -> B -> M S) w :
  foldEach (f <$> l) s body w = foldEach l s (fun s a => body s (f a)) w.
Proof.
  revert s w. induction l as [|a l IH]; intros s w; simpl; [reflexivity|].
  unfold bind. destruct (body s (f a) w) as [s' w'|e w']; [|reflexivity].
  apply IH.
Qed.

Lemma foldEach_nested {S} (xs ys : list Z) (s : S) (body : S -> Z -> Z -> M S) w :
  foldEach xs s (fun s x => foldEach ys s (fun s y => body s x y)) w
  = foldEach (x ← xs; (fun y => (x, y)) <$> ys) s
      (fun s p => body s p.1 p.2) w.
Proof.
  revert s w. induction xs as [|x xs IH]; intros s w; [reflexivity|].
  cbn [foldEach mbind list_bind]. rewrite foldEach_app. unfold bind.
  rewrite foldEach_fmap. cbn [fst snd].
  destruct (foldEach ys s _ w) as [s' w'|e w']; [|reflexivity].
  apply IH.
Qed.

Lemma recomputedOn_empty w : recomputedOn w ∅ w.
Proof. intros v. rewrite decide_False; [done|]. apply not_elem_of_empty. Qed.

(** [recomputeAreaCache] in terms of [areaRun]. *)
Lemma recomputeAreaCache_spec area w :
  match areaRun w (areaTiles area) ∅ with
  | Some done =>
      exists w', recomputeAreaCache area w = Ok 0 w' /\
        cacheStep w w' /\ recomputedOn w done w' /\
        gameInitialized w' = gameInitialized w /\
        areaToRecompute w' = areaToRecompute w /\
        game w' = game w
  | None => exists w', recomputeAreaCache area w = Throw TypeError w'
  end.
Proof.
  unfold recomputeAreaCache. cbv zeta. unfold bind.
  rewrite foldEach_nested. fold (areaTiles area).
  pose proof (area_loop w (areaTiles area) ∅ w (cacheStep_refl w)
                (recomputedOn_empty w)) as Hloop.
  destruct (areaRun w (areaTiles area) ∅) as [done|].
  - destruct Hloop as (w' & -> & Hrest). exists w'. by split.
  - destruct Hloop as (w' & ->). by eexists.
Qed.

(** The loop of the full recomputation. *)
Lemma full_loop w0 entities : forall done w,
  cacheStep w0 w -> recomputedOn w0 done w ->
  match fullRun w0 entities done with
  | Some done' =>
      exists w',
        forEach entities recomputeSingleEntityCache w = Ok tt w' /\
        cacheStep w0 w' /\ recomputedOn w0 done' w' /\
        gameInitialized w' = gameInitialized w /\
        areaToRecompute w' = areaToRecompute w /\
        game w' = game w
  | None =>
      exists w',
        forEach entities recomputeSingleEntityCache w = Throw TypeError w'
  end.
Proof.
  induction entities as [|entity entities IH]; intros done w Hcache Hon.
  - simpl. exists w. by split_and!.
  - cbn [fullRun forEach]. unfold bind.
    pose proof (recompute_step w0 done w entity Hcache Hon) as Hstep.
    destruct (recomputation w0 entity) as [c'|]; cbn [mbind option_bind].
    + destruct Hstep as (w1 & -> & Hcache1 & Hon1 & Hg1 & Ha1 & Hgm1).
      specialize (IH ({[entity]} ∪ done) w1 Hcache1 Hon1).
      destruct (fullRun w0 entities ({[entity]} ∪ done)) as [done'|].
      * destruct IH as (w' & Hrun & ? & ? & ? & ? & ?). exists w'.
        split_and!; try assumption; congruence.
      * exact IH.
    + destruct Hstep as (w1 & ->). by eexists.
Qed.

Lemma areaRun_cacheStep w w' ps : forall done,
  cacheStep w w' -> areaRun w' ps done = areaRun w ps done.
Proof.
  induction ps as [|[x y] ps IH]; intros done Hcache; [reflexivity|].
  cbn [areaRun]. destruct Hcache as (Ha & Ht & Hd & Hrest).
  rewrite Ht.
  pose proof (conj Ha (conj Ht (conj Hd Hrest))) as Hcache.
  destruct (tiles w x y) as [entity|]; [|by apply IH].
  rewrite (bool_decide_ext (is_Some (ejectorOf w' entity))
                           (is_Some (ejectorOf w entity)))
    by (by apply is_Some_ejectorOf_cacheStep).
  rewrite (recomputation_cacheStep w w') by done.
  rewrite !IH by done. reflexivity.
Qed.

(** C9: when [recomputeAreaCache] has returned for a region, running it
    again on the same region, with the grid unchanged, returns and
    leaves every entity, and so the cached connected slots and the
    cached targets of every slot, exactly as the first run left them. *)
Theorem recomputeAreaCache_idempotent
    (area : Rectangle.t) (w w1 : World) (entryCount : Z) :
  recomputeAreaCache area w = Ok entryCount w1 ->
  exists w2,
    recomputeAreaCache area w1 = Ok entryCount w2 /\
    (forall v, heap w2 v = heap w1 v) /\
    tiles w2 = tiles w1 /\ allEntities w2 = allEntities w1 /\
    areaToRecompute w2 = areaToRecompute w1 /\
    gameInitialized w2 = gameInitialized w1 /\
    game w2 = game w1 /\ deltaSeconds w2 = deltaSeconds w1.
Proof.
  intros Hrun.
  pose proof (recomputeAreaCache_spec area w) as Hfirst.
  destruct (areaRun w (areaTiles area) ∅) as [done|] eqn:Harea.
  2:{ destruct Hfirst as [w' Hthrow]. congruence. }
  destruct Hfirst as (w' & Hrun' & Hcache & Hon & _).
  rewrite Hrun in Hrun'. injection Hrun' as -> <-.
  pose proof (recomputeAreaCache_spec area w1) as Hsecond.
  rewrite (areaRun_cacheStep w w1), Harea in Hsecond by done.
  destruct Hsecond as (w2 & Hrun2 & Hcache2 & Hon2 & Hg2 & Ha2 & Hgm2).
  exists w2. split; [exact Hrun2|].
  destruct Hcache2 as (Hl2 & Ht2 & Hd2 & _).
  split_and!; try assumption.
  intros v. rewrite (Hon2 v). destruct (decide (v ∈ done)); [|reflexivity].
  unfold recomputedEntity. rewrite (recomputation_cacheStep w w1) by done.
  rewrite (Hon v), decide_True by done. unfold recomputedEntity.
  by destruct (recomputation w v).
Qed.

End Area.

Section Incremental.
Context `{Collaborators}.

(** *** Incremental recomputation *)

(** A recomputation of an entity looks at the target tiles of its slots
    and at the acceptor and the placement of the entities on them. *)
Lemma recomputation_local w w' entity :
  components (heap w' entity) = components (heap w entity) ->
  (forall c staticComp s,
     ejectorOf w entity = Some c ->
     StaticMapEntity (components (heap w entity)) = Some staticComp ->
     s ∈ slots c ->
     tiles w' (Vector.x (targetTile staticComp s))
              (Vector.y (targetTile staticComp s))
     = tiles w (Vector.x (targetTile staticComp s))
               (Vector.y (targetTile staticComp s)) /\
     forall t,
       tiles w (Vector.x (targetTile staticComp s))
               (Vector.y (targetTile staticComp s)) = Some t ->
       ItemAcceptor (components (heap w' t))
       = ItemAcceptor (components (heap w t)) /\
       StaticMapEntity (components (heap w' t))
       = StaticMapEntity (components (heap w t))) ->
  recomputation w' entity = recomputation w entity.
Proof.
  intros Hheap Hlocal. unfold recomputation, ejectorOf in *. rewrite Hheap.
  destruct (ItemEjector (components (heap w entity))) as [c|];
    [|reflexivity]. cbn [mbind option_bind].
  assert (Hconns :
    mapM (resolveSlot w' (StaticMapEntity (components (heap w entity))))
         (slots c)
    = mapM (resolveSlot w (StaticMapEntity (components (heap w entity))))
           (slots c)).
  { apply Forall_mapM_ext, Forall_forall. intros s Hs.
    unfold resolveSlot.
    destruct (StaticMapEntity (components (heap w entity))) as [sc|];
      [|reflexivity]. cbn [mbind option_bind].
    destruct (Hlocal c sc s eq_refl eq_refl Hs) as [-> Htarget].
    destruct (tiles w _ _) as [t|]; [|reflexivity].
    destruct (Htarget t eq_refl) as [-> ->]. reflexivity. }
  by rewrite Hconns.
Qed.

(** The world after the signal for a placed entity. *)
Lemma notified entity w staticComp :
  StaticMapEntity (components (heap w entity)) = Some staticComp ->
  gameInitialized (final (checkForCacheInvalidation entity w))
  = gameInitialized w /\
  tiles (final (checkForCacheInvalidation entity w)) = tiles w /\
  heap (final (checkForCacheInvalidation entity w)) = heap w /\
  allEntities (final (checkForCacheInvalidation entity w)) = allEntities w /\
  areaToRecompute (final (checkForCacheInvalidation entity w))
  = if gameInitialized w
    then Some match areaToRecompute w with
              | Some area =>
                  Rectangle.getUnion area
                    (Rectangle.expandedInAllDirections
                       (getTileSpaceBounds staticComp) 2)
              | None =>
                  Rectangle.expandedInAllDirections
                    (getTileSpaceBounds staticComp) 2
              end
    else areaToRecompute w.
Proof.
  intros Hstatic. rewrite checkForCacheInvalidation_eq, Hstatic.
  destruct (gameInitialized w) eqn:Hinit; cbn [final];
    split_and!; try reflexivity; exact Hinit.
Qed.

(** The pending area after a signal covers the bounds of the entity with
    a margin of 2 tiles, and what was pending. *)
Lemma notified_area entity w staticComp :
  StaticMapEntity (components (heap w entity)) = Some staticComp ->
  gameInitialized w = true ->
  exists area',
    areaToRecompute (final (checkForCacheInvalidation entity w)) = Some area' /\
    covers area'
      (Rectangle.expandedInAllDirections (getTileSpaceBounds staticComp) 2) /\
    (forall area, areaToRecompute w = Some area -> covers area' area).
Proof.
  intros Hstatic Hinit.
  destruct (notified entity w staticComp Hstatic) as (_ & _ & _ & _ & ->).
  rewrite Hinit. eexists. split; [reflexivity|].
  destruct (areaToRecompute w) as [area|].
  - split; [apply getUnion_covers_r|].
    intros ? [= <-]. apply getUnion_covers_l.
  - split; [apply covers_refl|]. intros ? [=].
Qed.

(** A slot whose target tile lies in a rectangle lies itself in the
    rectangle expanded by 2: the target is one unit step away. *)
Lemma slot_near_target bounds staticComp s :
  Rectangle.containsTile bounds (Vector.x (targetTile staticComp s))
                         (Vector.y (targetTile staticComp s)) ->
  Rectangle.containsTile (Rectangle.expandedInAllDirections bounds 2)
    (Vector.x (localTileToWorld staticComp (pos s)))
    (Vector.y (localTileToWorld staticComp (pos s))).
Proof.
  rewrite expanded_containsTile.
  unfold Rectangle.containsTile, targetTile. simpl.
  destruct (ejectDirection staticComp s); simpl; lia.
Qed.

Lemma set_ItemEjector_same (e : Entity) c :
  ItemEjector (components e) = Some c -> set_ItemEjector (Some c) e = e.
Proof. destruct e as [d []]. simpl. by intros ->. Qed.

Lemma upToDate_recomputedEntity w v :
  upToDate w v -> is_Some (ejectorOf w v) -> recomputedEntity w v = heap w v.
Proof.
  unfold upToDate, recomputedEntity. intros -> [c Hc]. rewrite Hc.
  by apply set_ItemEjector_same.
Qed.

(** In a well-placed world no recomputation throws. *)
Lemma wellPlaced_recomputation w v :
  wellPlaced w -> v ∈ allEntities w -> is_Some (recomputation w v).
Proof.
  intros [Hsys Hmap] Hv. destruct (Hsys v Hv) as (c & sc & Hc & Hsc & _).
  unfold recomputation. rewrite Hc, Hsc. cbn [mbind option_bind].
  rewrite mapM_resolveSlot_connectionOf; [by eexists|].
  intros s t _ Ht _. by apply (Hmap _ _ _ Ht).
Qed.

(** The fields of the world after an edit. *)
Lemma added_fields w entity object staticComp :
  StaticMapEntity (components object) = Some staticComp ->
  let w2 := placeEntity entity object (getTileSpaceBounds staticComp) w in
  let w' := final (checkForCacheInvalidation entity w2) in
  gameInitialized w' = gameInitialized w /\
  (forall x y, tiles w' x y
     = if decide (Rectangle.containsTile (getTileSpaceBounds staticComp) x y)
       then Some entity else tiles w x y) /\
  heap w' entity = object /\
  (forall v, v <> entity -> heap w' v = heap w v) /\
  (forall v, v ∈ allEntities w' <->
     v ∈ allEntities w \/
     v = entity /\ is_Some (ItemEjector (components object))) /\
  (gameInitialized w = false -> areaToRecompute w' = areaToRecompute w) /\
  (gameInitialized w = true ->
   exists area',
     areaToRecompute w' = Some area' /\
     covers area'
       (Rectangle.expandedInAllDirections (getTileSpaceBounds staticComp) 2) /\
     (forall area, areaToRecompute w = Some area -> covers area' area)).
Proof.
  intros Hstatic w2 w'.
  assert (Hstatic2 : StaticMapEntity (components (heap w2 entity))
                     = Some staticComp).
  { subst w2. simpl. by rewrite fn_lookup_insert. }
  destruct (notified entity w2 staticComp Hstatic2)
    as (Hg & Ht & Hh & Ha & Harea).
  fold w' in Hg, Ht, Hh, Ha, Harea.
  split_and!.
  - by rewrite Hg.
  - intros x y. by rewrite Ht.
  - rewrite Hh. subst w2. simpl. by rewrite fn_lookup_insert.
  - intros v Hv. rewrite Hh. subst w2. simpl. by rewrite fn_lookup_insert_ne.
  - intros v. rewrite Ha. subst w2. simpl.
    destruct (ItemEjector (components object)).
    + rewrite elem_of_app, list_elem_of_singleton. split.
      * intros [?| ->]; [by left|right]. split; [done|by eexists].
      * intros [?|[-> _]]; [by left|by right].
    + split; [by left|]. intros [?|[_ [? ?]]]; [done|discriminate].
  - intros Hinit. rewrite Harea. subst w2. simpl. by rewrite Hinit.
  - intros Hinit. exact (notified_area entity w2 staticComp Hstatic2 Hinit).
Qed.

Lemma removed_fields w entity staticComp :
  StaticMapEntity (components (heap w entity)) = Some staticComp ->
  let w' := final (checkForCacheInvalidation entity (removeEntity entity w)) in
  gameInitialized w' = gameInitialized w /\
  (forall x y, tiles w' x y
     = if decide (tiles w x y = Some entity) then None else tiles w x y) /\
  (forall v, components (heap w' v) = components (heap w v)) /\
  (forall v, v ∈ allEntities w' <-> v ∈ allEntities w /\ v <> entity) /\
  (gameInitialized w = false -> areaToRecompute w' = areaToRecompute w) /\
  (gameInitialized w = true ->
   exists area',
     areaToRecompute w' = Some area' /\
     covers area'
       (Rectangle.expandedInAllDirections (getTileSpaceBounds staticComp) 2) /\
     (forall area, areaToRecompute w = Some area -> covers area' area)).
Proof.
  intros Hstatic w'. set (w2 := removeEntity entity w) in *.
  assert (Hcomps : forall v, components (heap w2 v) = components (heap w v)).
  { intros v. subst w2. simpl. destruct (decide (entity = v)) as [->|Hne].
    - by rewrite fn_lookup_insert.
    - by rewrite fn_lookup_insert_ne. }
  assert (Hstatic2 : StaticMapEntity (components (heap w2 entity))
                     = Some staticComp) by (by rewrite Hcomps).
  destruct (notified entity w2 staticComp Hstatic2)
    as (Hg & Ht & Hh & Ha & Harea).
  fold w' in Hg, Ht, Hh, Ha, Harea.
  split_and!.
  - by rewrite Hg.
  - intros x y. by rewrite Ht.
  - intros v. by rewrite Hh.
  - intros v. rewrite Ha. subst w2. simpl. rewrite list_elem_of_filter. tauto.
  - intros Hinit. rewrite Harea. subst w2. simpl. by rewrite Hinit.
  - intros Hinit. exact (notified_area entity w2 staticComp Hstatic2 Hinit).
Qed.

Lemma edit_gameInitialized w w' :
  edit w w' -> gameInitialized w' = gameInitialized w.
Proof.
  intros [w0 u object sc Hsc _ _ _ _ _ _|w0 u sc Hsc _].
  - apply (added_fields w0 u object sc Hsc).
  - apply (removed_fields w0 u sc Hsc).
Qed.

Lemma edit_uninitialized w w' :
  edit w w' -> gameInitialized w = false ->
  areaToRecompute w' = areaToRecompute w.
Proof.
  intros [w0 u object sc Hsc _ _ _ _ _ _|w0 u sc Hsc _].
  - apply (added_fields w0 u object sc Hsc).
  - apply (removed_fields w0 u sc Hsc).
Qed.

(** Edits keep the world well placed. *)
Lemma edit_wellPlaced w w' : edit w w' -> wellPlaced w -> wellPlaced w'.
Proof.
  intros [w0 u object sc Hsc Hw Hh Hfree Hfresh Hnew Hslots|w0 u sc Hsc Hocc]
         [Hsys Hmap].
  - destruct (added_fields w0 u object sc Hsc)
      as (_ & Ht & Hu & Ho & Ha & _).
    assert (Hnot : forall x y v, tiles w0 x y = Some v -> v <> u).
    { intros x y v Hv ->. by apply (Hfresh x y). }
    split.
    + intros v Hv. apply Ha in Hv as [Hv|[-> [c Hc]]].
      * assert (Hvu : v <> u) by (intros ->; done).
        destruct (Hsys v Hv) as (c & scv & Hc & Hscv & Hown).
        exists c, scv. unfold ejectorOf in *. rewrite Ho by done.
        split_and!; try assumption.
        intros s Hs. rewrite Ht. specialize (Hown s Hs).
        destruct (decide (Rectangle.containsTile _ _ _)) as [Hin|]; [|done].
        rewrite (Hfree _ _ Hin) in Hown. discriminate.
      * exists c, sc. unfold ejectorOf. rewrite Hu.
        split_and!; try assumption.
        intros s Hs. rewrite Ht. rewrite decide_True; [done|].
        by apply (Hslots c).
    + intros x y v. rewrite Ht.
      destruct (decide (Rectangle.containsTile _ x y)) as [Hin|Hout].
      * intros [= <-]. unfold ejectorOf. rewrite Hu. split; [by eexists|].
        intros Hc. apply Ha. by right.
      * intros Hv. pose proof (Hnot _ _ _ Hv) as Hvu.
        unfold ejectorOf. rewrite Ho by done.
        destruct (Hmap _ _ _ Hv) as [Hplaced Hreg]. split; [done|].
        intros Hc. apply Ha. left. by apply Hreg.
  - destruct (removed_fields w0 u sc Hsc) as (_ & Ht & Hc & Ha & _).
    split.
    + intros v Hv. apply Ha in Hv as [Hv Hvu].
      destruct (Hsys v Hv) as (c & scv & Hcv & Hscv & Hown).
      exists c, scv. unfold ejectorOf in *. rewrite Hc.
      split_and!; try assumption.
      intros s Hs. rewrite Ht, (Hown s Hs).
      rewrite decide_False; [done|]. congruence.
    + intros x y v. rewrite Ht.
      destruct (decide (tiles w0 x y = Some u)) as [|Hne]; [done|].
      intros Hv. unfold ejectorOf. rewrite Hc.
      destruct (Hmap _ _ _ Hv) as [Hplaced Hreg]. split; [done|].
      intros Hcv. apply Ha. split; [by apply Hreg|]. congruence.
Qed.

(** Edits keep every entity of the system up to date or in the pending
    area, while the game is initialized. *)
Lemma edit_pending w w' :
  edit w w' -> gameInitialized w = true -> wellPlaced w ->
  pendingOrUpToDate w -> pendingOrUpToDate w'.
Proof.
  intros [w0 u object sc Hsc Hw Hh Hfree Hfresh Hnew Hslots|w0 u sc Hsc Hocc]
         Hinit [Hsys Hmap] Hpend.
  - destruct (added_fields w0 u object sc Hsc)
      as (_ & Ht & Hu & Ho & Ha & _ & Harea).
    destruct (Harea Hinit) as (area' & Harea' & Hexp & Hold).
    set (bounds := getTileSpaceBounds sc) in *.
    set (wn := final (checkForCacheInvalidation u _)) in *.
    intros v Hv. apply Ha in Hv as [Hv|[-> _]].
    + assert (Hvu : v <> u) by (intros ->; done).
      destruct (Hsys v Hv) as (c & scv & Hc & Hscv & Hown).
      destruct (Hpend v Hv) as [Hup|(a & x & y & Ha0 & Hin & Htile)].
      * destruct (decide (Exists (fun s =>
                    Rectangle.containsTile bounds
                      (Vector.x (targetTile scv s))
                      (Vector.y (targetTile scv s))) (slots c)))
          as [Hex|Hnex].
        -- apply Exists_exists in Hex as (s & Hs & Hin). right.
           exists area', (Vector.x (localTileToWorld scv (pos s))),
                  (Vector.y (localTileToWorld scv (pos s))).
           split; [done|]. split; [by apply Hexp, slot_near_target|].
           rewrite Ht. specialize (Hown s Hs).
           destruct (decide (Rectangle.containsTile _ _ _)) as [Hin'|];
             [|done].
           rewrite (Hfree _ _ Hin') in Hown. discriminate.
        -- left. unfold upToDate in *.
           replace (ejectorOf wn v) with (ejectorOf w0 v)
             by (unfold ejectorOf; by rewrite Ho).
           rewrite <- Hup. apply recomputation_local; [by rewrite Ho|].
           intros c' sc' s Hc' Hsc' Hs.
           assert (c' = c) as -> by congruence.
           assert (sc' = scv) as -> by congruence.
           rewrite Ht. apply not_Exists_Forall in Hnex; [|apply _].
           rewrite Forall_forall in Hnex. specialize (Hnex s Hs). simpl in Hnex.
           rewrite decide_False by done. split; [done|].
           intros t Htile. rewrite Ho; [done|].
           intros ->. by apply (Hfresh _ _ Htile).
      * right. exists area', x, y. split; [done|].
        split; [by apply (Hold a)|]. rewrite Ht.
        destruct (decide (Rectangle.containsTile _ _ _)) as [Hin'|]; [|done].
        rewrite (Hfree _ _ Hin') in Htile. discriminate.
    + right. exists area', (Rectangle.x bounds), (Rectangle.y bounds).
      assert (Hcorner : Rectangle.containsTile bounds (Rectangle.x bounds)
                          (Rectangle.y bounds)).
      { unfold Rectangle.containsTile, Rectangle.right, Rectangle.bottom. lia. }
      split; [done|]. split.
      * apply Hexp, expanded_containsTile.
        unfold Rectangle.containsTile in Hcorner. lia.
      * rewrite Ht. by rewrite decide_True.
  - destruct (removed_fields w0 u sc Hsc) as (_ & Ht & Hcomps & Ha & _ & Harea).
    destruct (Harea Hinit) as (area' & Harea' & Hexp & Hold).
    set (wn := final (checkForCacheInvalidation u _)) in *.
    intros v Hv. apply Ha in Hv as [Hv Hvu].
    destruct (Hsys v Hv) as (c & scv & Hc & Hscv & Hown).
    destruct (Hpend v Hv) as [Hup|(a & x & y & Ha0 & Hin & Htile)].
    + destruct (decide (Exists (fun s =>
                  tiles w0 (Vector.x (targetTile scv s))
                           (Vector.y (targetTile scv s)) = Some u) (slots c)))
        as [Hex|Hnex].
      * apply Exists_exists in Hex as (s & Hs & Htarget). right.
        exists area', (Vector.x (localTileToWorld scv (pos s))),
               (Vector.y (localTileToWorld scv (pos s))).
        split; [done|]. split; [by apply Hexp, slot_near_target, Hocc|].
        rewrite Ht, (Hown s Hs). rewrite decide_False; [done|]. congruence.
      * left. unfold upToDate in *.
        replace (ejectorOf wn v) with (ejectorOf w0 v)
          by (unfold ejectorOf; by rewrite Hcomps).
        rewrite <- Hup. apply recomputation_local; [apply Hcomps|].
        intros c' sc' s Hc' Hsc' Hs.
        assert (c' = c) as -> by congruence.
        assert (sc' = scv) as -> by congruence.
        rewrite Ht. apply not_Exists_Forall in Hnex; [|apply _].
        rewrite Forall_forall in Hnex. specialize (Hnex s Hs). simpl in Hnex.
        rewrite decide_False by done. split; [done|].
        intros t _. by rewrite Hcomps.
    + right. exists area', x, y. split; [done|].
      split; [by apply (Hold a)|]. rewrite Ht, Htile.
      rewrite decide_False; [done|]. congruence.
Qed.

Lemma edits_invariant w w' :
  rtc edit w w' -> editInvariant w -> editInvariant w'.
Proof.
  induction 1 as [w|w w1 w' Hedit _ IH]; [done|].
  intros (Hwell & Hinit & Huninit). apply IH.
  pose proof (edit_gameInitialized _ _ Hedit) as Hg.
  split_and!.
  - by eapply edit_wellPlaced.
  - rewrite Hg. intros Htrue. eapply edit_pending; eauto.
  - rewrite Hg. intros Hfalse.
    rewrite (edit_uninitialized _ _ Hedit Hfalse). auto.
Qed.

(** The entities the two loops recompute. *)
Lemma areaRun_elem w ps : forall done done',
  areaRun w ps done = Some done' ->
  forall v, v ∈ done' <->
    v ∈ done \/
    exists x y, (x, y) ∈ ps /\ tiles w x y = Some v /\ is_Some (ejectorOf w v).
Proof.
  induction ps as [|[x y] ps IH]; intros done done' Hrun v.
  - injection Hrun as <-. split; [by left|].
    intros [?|(x & y & Hin & _)]; [done|]. by apply elem_of_nil in Hin.
  - cbn [areaRun] in Hrun.
    assert (Hskip : areaRun w ps done = Some done' ->
              (tiles w x y = Some v -> is_Some (ejectorOf w v) -> v ∈ done) ->
              v ∈ done' <->
              v ∈ done \/
              exists x0 y0, (x0, y0) ∈ (x, y) :: ps /\
                tiles w x0 y0 = Some v /\ is_Some (ejectorOf w v)).
    { intros Hrest Hhere. rewrite (IH _ _ Hrest v). split.
      - intros [?|(x0 & y0 & Hin & Hrest')]; [by left|right].
        exists x0, y0. split; [by right|done].
      - intros [?|(x0 & y0 & Hin & Ht & Hc)]; [by left|].
        apply elem_of_cons in Hin as [[= -> ->]|Hin]; [left; auto|].
        right. eauto. }
    destruct (tiles w x y) as [entity|] eqn:Htile;
      [|apply Hskip; [done|discriminate]].
    destruct (bool_decide (entity ∈ done)) eqn:Hdone; cbn [negb andb] in Hrun.
    { apply Hskip; [done|]. intros [= ->] _. by apply bool_decide_eq_true in Hdone. }
    destruct (bool_decide (is_Some (ejectorOf w entity))) eqn:Hej.
    2:{ apply Hskip; [done|]. intros [= ->] Hc.
        apply bool_decide_eq_false in Hej. done. }
    destruct (recomputation w entity); [|discriminate].
    cbn [mbind option_bind] in Hrun. rewrite (IH _ _ Hrun v).
    rewrite elem_of_union, elem_of_singleton.
    apply bool_decide_eq_true in Hej. split.
    + intros [[->|?]|(x0 & y0 & Hin & Hrest')].
      * right. exists x, y. split; [by left|done].
      * by left.
      * right. exists x0, y0. split; [by right|done].
    + intros [?|(x0 & y0 & Hin & Ht & Hc)]; [by left; right|].
      apply elem_of_cons in Hin as [[= -> ->]|Hin].
      * left. left. congruence.
      * right. eauto.
Qed.

Lemma areaRun_is_Some w ps :
  (forall x y v, (x, y) ∈ ps -> tiles w x y = Some v ->
     is_Some (ejectorOf w v) -> is_Some (recomputation w v)) ->
  forall done, is_Some (areaRun w ps done).
Proof.
  induction ps as [|[x y] ps IH]; intros Hok done; [by eexists|].
  cbn [areaRun].
  assert (Hrest : forall done, is_Some (areaRun w ps done)).
  { apply IH. intros x0 y0 v Hin. apply Hok. by right. }
  destruct (tiles w x y) as [entity|] eqn:Htile; [|apply Hrest].
  destruct (negb _ && _) eqn:Hcond; [|apply Hrest].
  apply andb_true_iff in Hcond as [_ Hej].
  apply bool_decide_eq_true in Hej.
  destruct (Hok x y entity) as [c ->]; [by left|done|done|].
  apply Hrest.
Qed.

Lemma fullRun_elem w entities : forall done done',
  fullRun w entities done = Some done' ->
  forall v, v ∈ done' <-> v ∈ done \/ v ∈ entities.
Proof.
  induction entities as [|entity entities IH]; intros done done' Hrun v.
  - injection Hrun as <-. split; [by left|]. intros [?|Hin]; [done|].
    by apply elem_of_nil in Hin.
  - cbn [fullRun] in Hrun. destruct (recomputation w entity); [|discriminate].
    cbn [mbind option_bind] in Hrun. rewrite (IH _ _ Hrun v).
    rewrite elem_of_union, elem_of_singleton, elem_of_cons. tauto.
Qed.

Lemma fullRun_is_Some w entities :
  (forall v, v ∈ entities -> is_Some (recomputation w v)) ->
  forall done, is_Some (fullRun w entities done).
Proof.
  induction entities as [|entity entities IH]; intros Hok done; [by eexists|].
  cbn [fullRun]. destruct (Hok entity) as [c ->]; [by left|].
  apply IH. intros v Hv. apply Hok. by right.
Qed.

Lemma elem_of_areaTiles area x y :
  (x, y) ∈ areaTiles area <-> Rectangle.containsTile area x y.
Proof.
  unfold areaTiles, Rectangle.containsTile. rewrite list_elem_of_bind. split.
  - intros (x0 & Hy & Hx). apply list_elem_of_fmap in Hy as (y0 & [= -> ->] & Hy).
    apply elem_of_seqZ in Hx, Hy. lia.
  - intros [Hx Hy]. exists x. split.
    + apply list_elem_of_fmap. exists y. split; [done|].
      apply elem_of_seqZ. lia.
    + apply elem_of_seqZ. lia.
Qed.

(** The two branches of [recomputeCache]. *)
Lemma recomputeCache_pending w area :
  areaToRecompute w = Some area ->
  exists g,
    recomputeCache w =
    match recomputeAreaCache area (set_game g w) with
    | Ok _ w2 => Ok tt (set_areaToRecompute None w2)
    | Throw e w2 => Throw e w2
    end.
Proof.
  intros Harea. unfold recomputeCache, bind, gets. rewrite Harea.
  destruct (G_IS_DEV && debug_renderChanges globalConfig).
  - eexists. unfold call_, modify. reflexivity.
  - exists (game w). unfold ret. rewrite set_game_same. reflexivity.
Qed.

Lemma recomputeCache_full w :
  areaToRecompute w = None ->
  exists g,
    recomputeCache w
    = forEach (allEntities w) recomputeSingleEntityCache (set_game g w).
Proof.
  intros Harea. unfold recomputeCache, bind, gets. rewrite Harea.
  destruct (G_IS_DEV && debug_renderChanges globalConfig).
  - eexists. unfold call_, modify. reflexivity.
  - exists (game w). unfold ret. rewrite set_game_same. reflexivity.
Qed.

Lemma set_areaToRecompute_same w :
  areaToRecompute w = None -> set_areaToRecompute None w = w.
Proof. destruct w. simpl. by intros ->. Qed.

(** The full recomputation of a well-placed world. *)
Lemma recomputeCache_full_wellPlaced w :
  areaToRecompute w = None -> wellPlaced w ->
  exists w',
    recomputeCache w = Ok tt w' /\
    forall v, heap w' v
              = if decide (v ∈ allEntities w) then recomputedEntity w v
                else heap w v.
Proof.
  intros Harea Hwell. destruct (recomputeCache_full w Harea) as [g ->].
  pose proof (full_loop w (allEntities w) ∅ (set_game g w)
                (cacheStep_refl w) (recomputedOn_empty w)) as Hloop.
  destruct (fullRun_is_Some w (allEntities w)
              (fun v Hv => wellPlaced_recomputation w v Hwell Hv) ∅)
    as [done Hdone].
  rewrite Hdone in Hloop. destruct Hloop as (w' & Hrun & _ & Hon & _).
  exists w'. split; [exact Hrun|]. intros v. rewrite (Hon v).
  pose proof (fullRun_elem _ _ _ _ Hdone v) as Hin.
  destruct (decide (v ∈ done)) as [Hv|Hv].
  - rewrite decide_True; [done|]. apply Hin in Hv as [Hv|Hv]; [|done].
    by apply not_elem_of_empty in Hv.
  - rewrite decide_False; [done|]. intros Hv'. apply Hv, Hin. by right.
Qed.

Lemma recomputedEntity_cacheStep w w' v :
  cacheStep w w' -> heap w' v = heap w v ->
  recomputedEntity w' v = recomputedEntity w v.
Proof.
  intros Hcache Hheap. unfold recomputedEntity.
  by rewrite (recomputation_cacheStep w w'), Hheap.
Qed.

(** The recomputation of the pending area of a well-placed world. *)
Lemma recomputeCache_pending_wellPlaced w area :
  areaToRecompute w = Some area -> wellPlaced w ->
  exists w' (done : gset uid),
    recomputeCache w = Ok tt w' /\
    areaToRecompute w' = None /\
    (forall v, v ∈ done <->
       exists x y, Rectangle.containsTile area x y /\
         tiles w x y = Some v /\ is_Some (ejectorOf w v)) /\
    forall v, heap w' v
              = if decide (v ∈ done) then recomputedEntity w v else heap w v.
Proof.
  intros Harea [Hsys Hmap].
  destruct (recomputeCache_pending w area Harea) as [g ->].
  pose proof (recomputeAreaCache_spec area (set_game g w)) as Hspec.
  assert (Hcache : cacheStep w (set_game g w))
    by apply cacheStep_set_game, cacheStep_refl.
  rewrite (areaRun_cacheStep w (set_game g w)) in Hspec by done.
  destruct (areaRun_is_Some w (areaTiles area)) with (done := ∅ : gset uid)
    as [done Hdone].
  { intros x y v _ Htile Hc. apply wellPlaced_recomputation; [by split|].
    by apply (Hmap _ _ _ Htile). }
  rewrite Hdone in Hspec. destruct Hspec as (w2 & -> & _ & Hon & _).
  exists (set_areaToRecompute None w2), done.
  split; [reflexivity|]. split; [reflexivity|]. split.
  - intros v. rewrite (areaRun_elem _ _ _ _ Hdone v). split.
    + intros [Hv|(x & y & Hin & Hrest)]; [by apply not_elem_of_empty in Hv|].
      exists x, y. split; [by apply elem_of_areaTiles|done].
    + intros (x & y & Hin & Hrest). right. exists x, y.
      split; [by apply elem_of_areaTiles|done].
  - intros v. change (heap (set_areaToRecompute None w2) v) with (heap w2 v).
    rewrite (Hon v). destruct (decide (v ∈ done)); [|done].
    by apply recomputedEntity_cacheStep.
Qed.

(** C1: start from a well-placed world with nothing pending in which
    the cache of every ejector is what a recomputation gives, and let any
    sequence of entities be added and removed, each edit followed by its
    signal.  Then [recomputeCache], which recomputes the pending area
    only, returns, and leaves every entity, and so the cached connected
    slots and the cached target and destination of every slot, as the
    full recomputation ([recomputeCache] with no pending area) of the
    same world leaves them.  When an area is pending, [update] consumes
    it and ends with that same cache state. *)
Theorem incremental_recompute_is_full (w0 w1 : World) :
  wellPlaced w0 ->
  (forall v, v ∈ allEntities w0 -> upToDate w0 v) ->
  areaToRecompute w0 = None ->
  rtc edit w0 w1 ->
  exists wInc wFull,
    recomputeCache w1 = Ok tt wInc /\
    recomputeCache (set_areaToRecompute None w1) = Ok tt wFull /\
    (forall v, heap wInc v = heap wFull v) /\
    areaToRecompute wInc = None /\
    (is_Some (areaToRecompute w1) -> sameCache wFull (final (update w1))).
Proof.
  intros Hwell0 Hfresh0 Harea0 Hedits.
  assert (Hinv : editInvariant w1).
  { apply (edits_invariant w0 w1 Hedits). split_and!; [done| |done].
    intros _ v Hv. left. by apply Hfresh0. }
  destruct Hinv as (Hwell & Hinit & Huninit).
  destruct (areaToRecompute w1) as [area|] eqn:Harea.
  - (* an area is pending: the game is initialized *)
    assert (Hpend : pendingOrUpToDate w1).
    { apply Hinit. destruct (gameInitialized w1); [done|].
      specialize (Huninit eq_refl). discriminate. }
    destruct (recomputeCache_pending_wellPlaced w1 area Harea Hwell)
      as (wInc & done & Hinc & HareaInc & Hdone & HheapInc).
    destruct (recomputeCache_full_wellPlaced (set_areaToRecompute None w1)
                eq_refl Hwell) as (wFull & Hfull & HheapFull).
    assert (Hsame : forall v, heap wInc v = heap wFull v).
    { intros v. rewrite (HheapInc v), (HheapFull v).
      change (allEntities (set_areaToRecompute None w1)) with (allEntities w1).
      change (heap (set_areaToRecompute None w1) v) with (heap w1 v).
      assert (Hrec : recomputedEntity (set_areaToRecompute None w1) v
                     = recomputedEntity w1 v).
      { apply recomputedEntity_cacheStep; [|done].
        apply cacheStep_set_areaToRecompute, cacheStep_refl. }
      rewrite Hrec. destruct Hwell as [Hsys Hmap].
      destruct (decide (v ∈ done)) as [Hv|Hv].
      - rewrite decide_True; [done|].
        apply Hdone in Hv as (x & y & _ & Htile & Hc).
        by apply (Hmap _ _ _ Htile).
      - destruct (decide (v ∈ allEntities w1)) as [Hreg|]; [|done].
        destruct (Hsys v Hreg) as (c & sc & Hc & _).
        destruct (Hpend v Hreg) as [Hup|(a & x & y & Ha & Hin & Htile)].
        + symmetry. apply upToDate_recomputedEntity; [done|by eexists].
        + exfalso. apply Hv, Hdone. exists x, y.
          assert (a = area) as -> by congruence.
          split_and!; [done|done|by eexists]. }
    exists wInc, wFull. split_and!; try done.
    intros _. pose proof (update_sameCache w1 wInc) as Hupdate.
    assert (Hconsume : consumePending w1 = Ok tt wInc).
    { unfold consumePending, bind, gets. by rewrite Harea. }
    specialize (Hupdate Hconsume). destruct Hupdate as [Hc Hs].
    split.
    + intros v. rewrite Hc. unfold ejectorOf. by rewrite Hsame.
    + intros v j. rewrite Hs. unfold slotOf, ejectorOf. by rewrite Hsame.
  - (* nothing is pending: the recomputation is the full one *)
    rewrite (set_areaToRecompute_same w1 Harea).
    destruct (recomputeCache_full_wellPlaced w1 Harea Hwell)
      as (wFull & Hfull & HheapFull).
    exists wFull, wFull. split_and!; try done.
    destruct (recomputeCache_full w1 Harea) as [g Hrun].
    rewrite Hrun in Hfull.
    pose proof (full_loop w1 (allEntities w1) ∅ (set_game g w1)
                  (cacheStep_refl w1) (recomputedOn_empty w1)) as Hloop.
    destruct (fullRun w1 (allEntities w1) ∅).
    + destruct Hloop as (w' & Hrun' & _ & _ & _ & Ha & _).
      assert (w' = wFull) as -> by congruence. rewrite Ha. exact Harea.
    + destruct Hloop as [w' Hthrow]. congruence.
Qed.

End Incremental.

Section Signals.
Context `{Collaborators}.

(** *** The pending area and the set of signalled entities *)

Lemma set_areaToRecompute_id w : set_areaToRecompute (areaToRecompute w) w = w.
Proof. by destruct w. Qed.

Lemma notifyAll_eq entities : forall w,
  notifyAll entities w =
  Ok tt (if gameInitialized w
         then set_areaToRecompute
                (foldl (merged w) (areaToRecompute w) entities) w
         else w).
Proof.
  induction entities as [|entity entities IH]; intros w.
  - simpl. unfold notifyAll, ret. simpl.
    rewrite set_areaToRecompute_id. by destruct (gameInitialized w).
  - unfold notifyAll in *. simpl. unfold bind.
    rewrite checkForCacheInvalidation_eq.
    destruct (gameInitialized w) eqn:Hinit.
    + unfold merged at 2.
      destruct (StaticMapEntity (components (heap w entity))) as [sc|];
        rewrite IH; simpl; rewrite Hinit; reflexivity.
    + rewrite IH, Hinit. reflexivity.
Qed.

Lemma getUnion_comm r1 r2 : Rectangle.getUnion r1 r2 = Rectangle.getUnion r2 r1.
Proof.
  unfold Rectangle.getUnion, Rectangle.fromTRBL, Rectangle.right,
    Rectangle.bottom. f_equal; lia.
Qed.

Lemma getUnion_swap r r1 r2 :
  Rectangle.getUnion (Rectangle.getUnion r r1) r2
  = Rectangle.getUnion (Rectangle.getUnion r r2) r1.
Proof.
  unfold Rectangle.getUnion, Rectangle.fromTRBL, Rectangle.right,
    Rectangle.bottom. simpl. f_equal; lia.
Qed.

Lemma getUnion_same r : Rectangle.getUnion r r = r.
Proof.
  destruct r as [x y w h].
  unfold Rectangle.getUnion, Rectangle.fromTRBL, Rectangle.right,
    Rectangle.bottom. simpl. f_equal; lia.
Qed.

Lemma getUnion_absorb r r1 :
  Rectangle.getUnion (Rectangle.getUnion r r1) r1 = Rectangle.getUnion r r1.
Proof.
  unfold Rectangle.getUnion, Rectangle.fromTRBL, Rectangle.right,
    Rectangle.bottom. simpl. f_equal; lia.
Qed.

Lemma merged_comm w area e1 e2 :
  merged w (merged w area e1) e2 = merged w (merged w area e2) e1.
Proof.
  unfold merged.
  destruct (StaticMapEntity (components (heap w e1))) as [sc1|],
           (StaticMapEntity (components (heap w e2))) as [sc2|];
    try reflexivity.
  destruct area as [area|]; simpl; f_equal.
  - apply getUnion_swap.
  - apply getUnion_comm.
Qed.

Lemma merged_same w area e : merged w (merged w area e) e = merged w area e.
Proof.
  unfold merged.
  destruct (StaticMapEntity (components (heap w e))) as [sc|]; [|reflexivity].
  destruct area as [area|]; simpl; f_equal.
  - apply getUnion_absorb.
  - apply getUnion_same.
Qed.

Lemma foldl_merged_comm w l : forall area e,
  merged w (foldl (merged w) area l) e = foldl (merged w) (merged w area e) l.
Proof.
  induction l as [|x l IH]; intros area e; simpl; [reflexivity|].
  rewrite IH. f_equal. apply merged_comm.
Qed.

Lemma foldl_merged_absorb w l : forall area e,
  e ∈ l -> merged w (foldl (merged w) area l) e = foldl (merged w) area l.
Proof.
  induction l as [|x l IH]; intros area e He; [by apply elem_of_nil in He|].
  simpl. apply elem_of_cons in He as [->|He].
  - rewrite foldl_merged_comm, merged_same. reflexivity.
  - by apply IH.
Qed.

Lemma foldl_merged_subset w l l' area :
  (forall e, e ∈ l' -> e ∈ l) ->
  foldl (merged w) (foldl (merged w) area l) l' = foldl (merged w) area l.
Proof.
  induction l' as [|x l' IH]; intros Hsub; simpl; [reflexivity|].
  rewrite foldl_merged_absorb by (apply Hsub; left).
  apply IH. intros e He. apply Hsub. by right.
Qed.

Lemma foldl_merged_exchange w l l' : forall area,
  foldl (merged w) (foldl (merged w) area l) l'
  = foldl (merged w) (foldl (merged w) area l') l.
Proof.
  induction l' as [|x l' IH]; intros area; simpl; [reflexivity|].
  rewrite foldl_merged_comm. apply IH.
Qed.

(** The pending area depends on which entities were signalled, not on the
    order of the signals nor on how often an entity was signalled: two
    sequences of signals for the same entities leave the same world. *)
Theorem notifyAll_same_entities (w : World) (entities entities' : list uid) :
  (forall entity, entity ∈ entities <-> entity ∈ entities') ->
  notifyAll entities' w = notifyAll entities w.
Proof.
  intros Hsame. rewrite !notifyAll_eq. f_equal.
  destruct (gameInitialized w); [|reflexivity]. f_equal.
  rewrite <-(foldl_merged_subset w entities' entities) by (intros e; apply Hsame).
  rewrite foldl_merged_exchange.
  apply foldl_merged_subset. intros e. apply Hsame.
Qed.

Lemma encloses_getUnion r r1 r2 :
  encloses r r1 -> encloses r r2 -> encloses r (Rectangle.getUnion r1 r2).
Proof.
  unfold encloses, Rectangle.getUnion, Rectangle.fromTRBL, Rectangle.right,
    Rectangle.bottom. simpl. lia.
Qed.

Lemma foldl_merged_least w r l : forall area,
  (forall a, area = Some a -> encloses r a) ->
  (forall entity staticComp, entity ∈ l ->
     StaticMapEntity (components (heap w entity)) = Some staticComp ->
     encloses r (Rectangle.expandedInAllDirections
                   (getTileSpaceBounds staticComp) 2)) ->
  forall a', foldl (merged w) area l = Some a' -> encloses r a'.
Proof.
  induction l as [|x l IH]; intros area Harea Hl a' Ha'; simpl in Ha'.
  - by apply Harea.
  - apply (IH (merged w area x)); [| |assumption].
    + intros a. unfold merged.
      destruct (StaticMapEntity (components (heap w x))) as [sc|] eqn:Hsc;
        [|apply Harea].
      intros [= <-]. destruct area as [a0|].
      * apply encloses_getUnion; [by apply Harea|].
        apply (Hl x sc); [left|assumption].
      * apply (Hl x sc); [left|assumption].
    + intros entity sc He. apply Hl. by right.
Qed.

Lemma foldl_merged_None w l : forall area,
  foldl (merged w) area l = None <->
  area = None /\
  forall entity, entity ∈ l ->
    StaticMapEntity (components (heap w entity)) = None.
Proof.
  induction l as [|x l IH]; intros area; simpl.
  - split; [intros ->; split; [done|]|by intros [-> _]].
    intros e He. by apply elem_of_nil in He.
  - rewrite IH. unfold merged.
    destruct (StaticMapEntity (components (heap w x))) as [sc|] eqn:Hsc.
    + split; [by intros [? _]|]. intros [_ Hall].
      specialize (Hall x ltac:(left)). congruence.
    + split.
      * intros [-> Hall]. split; [done|]. intros e He.
        apply elem_of_cons in He as [->|He]; auto.
      * intros [-> Hall]. split; [done|]. intros e He. apply Hall. by right.
Qed.

(** The pending area is the least rectangle: whatever rectangle encloses
    the area that was pending and the expanded bounds of every signalled
    entity that carries a [StaticMapEntity] component encloses the
    pending area; and nothing is pending afterwards only if nothing was
    pending and no signalled entity carries that component. *)
Theorem notifyAll_least (w w' : World) (entities : list uid) :
  gameInitialized w = true ->
  notifyAll entities w = Ok tt w' ->
  (forall r area',
     (forall area, areaToRecompute w = Some area -> encloses r area) ->
     (forall entity staticComp, entity ∈ entities ->
        StaticMapEntity (components (heap w entity)) = Some staticComp ->
        encloses r (Rectangle.expandedInAllDirections
                      (getTileSpaceBounds staticComp) 2)) ->
     areaToRecompute w' = Some area' -> encloses r area') /\
  (areaToRecompute w' = None <->
   areaToRecompute w = None /\
   forall entity, entity ∈ entities ->
     StaticMapEntity (components (heap w entity)) = None).
Proof.
  intros Hinit. rewrite notifyAll_eq, Hinit. intros [= <-]. simpl. split.
  - intros r area' Harea Hl. by apply foldl_merged_least.
  - apply foldl_merged_None.
Qed.

End Signals.

(** Steps through the statements of a method body. *)
Ltac kept_step R_refl R_trans :=
  first
  [ apply (maintains_ret _ R_refl)
  | apply (maintains_throw _ R_refl)
  | apply (maintains_gets _ R_refl)
  | apply (maintains_deref _ R_refl)
  | apply (maintains_bind _ R_trans); [|intros ?]
  | apply (maintains_forEach _ R_refl R_trans); intros ?
  | apply (maintains_foldEach _ R_refl R_trans); intros ? ?
  | match goal with
    | |- maintains _ (match ?x with _ => _ end) => destruct x
    end ].

Section Frame.
Context `{Collaborators}.

(** *** What the methods leave alone *)

Section Kept.
Context (R : World -> World -> Prop).
Context (R_refl : forall w, R w w).
Context (R_trans : forall w1 w2 w3, R w1 w2 -> R w2 w3 -> R w1 w3).
Context (R_put : forall w entity c, R w (putEjector entity c w)).
Context (R_game : forall w g, R w (set_game g w)).

Lemma writeEjector_kept entity f : maintains R (writeEjector entity f).
Proof using R_refl R_put.
  intros w. rewrite writeEjector_eq.
  destruct (ejectorOf w entity); [apply R_put|apply R_refl].
Qed.

Lemma writeSlot_kept entity i f : maintains R (writeSlot entity i f).
Proof using R_refl R_put.
  intros w. rewrite writeSlot_eq.
  destruct (slotOf w entity i); [|apply R_refl]. simpl.
  unfold putSlot. destruct (ejectorOf w entity); [apply R_put|apply R_refl].
Qed.

Lemma call_kept {A} (f : GameState -> A * GameState) : maintains R (call f).
Proof using R_game. intros w. apply R_game. Qed.

Lemma call__kept (f : GameState -> GameState) : maintains R (call_ f).
Proof using R_game. intros w. apply R_game. Qed.

Lemma recomputeSlot_kept staticComp entity i :
  maintains R (recomputeSlot staticComp entity i).
Proof using R_refl R_trans R_put.
  unfold recomputeSlot, readSlot, readEjector, component, getTileContent,
    getTileContentXY.
  repeat first [apply writeSlot_kept | apply writeEjector_kept
               | kept_step R_refl R_trans].
Qed.

Lemma recomputeSingleEntityCache_kept entity :
  maintains R (recomputeSingleEntityCache entity).
Proof using R_refl R_trans R_put.
  unfold recomputeSingleEntityCache, readEjector, component.
  repeat first [apply recomputeSlot_kept | apply writeEjector_kept
               | kept_step R_refl R_trans].
Qed.

Lemma recomputeTile_kept done x y : maintains R (recomputeTile done x y).
Proof using R_refl R_trans R_put.
  unfold recomputeTile, component, getTileContentXY.
  repeat first [apply recomputeSingleEntityCache_kept
               | kept_step R_refl R_trans].
Qed.

Lemma recomputeAreaCache_kept area : maintains R (recomputeAreaCache area).
Proof using R_refl R_trans R_put.
  unfold recomputeAreaCache.
  repeat first [apply recomputeTile_kept | kept_step R_refl R_trans].
Qed.

Lemma tryPassOverItem_kept item receiver slotIndex :
  maintains R (tryPassOverItem item receiver slotIndex).
Proof using R_refl R_trans R_game.
  unfold tryPassOverItem, component, query, assert.
  repeat first [apply call_kept | apply call__kept
               | kept_step R_refl R_trans].
Qed.

Lemma updateSlot_kept growth sourceEntity sourceSlot :
  maintains R (updateSlot growth sourceEntity sourceSlot).
Proof using R_refl R_trans R_put R_game.
  unfold updateSlot, readSlot, readEjector, component, query.
  repeat first [apply writeSlot_kept | apply tryPassOverItem_kept
               | apply call__kept | kept_step R_refl R_trans].
Qed.

Lemma transferItems_kept growth : maintains R (transferItems growth).
Proof using R_refl R_trans R_put R_game.
  unfold transferItems, readEjector, component.
  repeat first [apply updateSlot_kept | kept_step R_refl R_trans].
Qed.

Lemma progressGrowth_kept : maintains R progressGrowth.
Proof using R_refl R_trans.
  unfold progressGrowth, query.
  repeat kept_step R_refl R_trans.
Qed.

End Kept.

Lemma mapKept_refl w : mapKept w w.
Proof.
  unfold mapKept. split_and!; first [done | intros v; apply sameReceiver_refl].
Qed.

Lemma mapKept_trans w1 w2 w3 : mapKept w1 w2 -> mapKept w2 w3 -> mapKept w1 w3.
Proof.
  intros (? & ? & ? & ? & Hr1) (? & ? & ? & ? & Hr2).
  unfold mapKept. split_and!; try congruence.
  intros v. eapply sameReceiver_trans; eauto.
Qed.

Lemma mapKept_put w entity c : mapKept w (putEjector entity c w).
Proof.
  unfold mapKept. split_and!; try done.
  intros v. unfold sameReceiver. apply others_putEjector.
Qed.

Lemma mapKept_game w g : mapKept w (set_game g w).
Proof.
  unfold mapKept. split_and!; first [done | intros v; apply sameReceiver_refl].
Qed.

Lemma mapKept_area w a : mapKept w (set_areaToRecompute a w).
Proof.
  unfold mapKept. split_and!; first [done | intros v; apply sameReceiver_refl].
Qed.

Lemma pendingKept_refl w : pendingKept w w.
Proof. reflexivity. Qed.

Lemma pendingKept_trans w1 w2 w3 :
  pendingKept w1 w2 -> pendingKept w2 w3 -> pendingKept w1 w3.
Proof. unfold pendingKept. congruence. Qed.

Lemma gameKept_refl w : gameKept w w.
Proof. reflexivity. Qed.

Lemma gameKept_trans w1 w2 w3 :
  gameKept w1 w2 -> gameKept w2 w3 -> gameKept w1 w3.
Proof. unfold gameKept. congruence. Qed.

Lemma recomputeCache_mapKept : maintains mapKept recomputeCache.
Proof.
  unfold recomputeCache.
  apply (maintains_bind _ mapKept_trans);
    [apply (maintains_gets _ mapKept_refl)|]. intros [area|].
  - apply (maintains_bind _ mapKept_trans).
    { destruct (_ && _); [|apply (maintains_ret _ mapKept_refl)].
      intros w. apply mapKept_game. }
    intros _. apply (maintains_bind _ mapKept_trans).
    { apply (recomputeAreaCache_kept _ mapKept_refl mapKept_trans mapKept_put). }
    intros _ w. apply mapKept_area.
  - apply (maintains_bind _ mapKept_trans).
    { destruct (_ && _); [|apply (maintains_ret _ mapKept_refl)].
      intros w. apply mapKept_game. }
    intros _. apply (maintains_bind _ mapKept_trans);
      [apply (maintains_gets _ mapKept_refl)|]. intros entities.
    apply (maintains_forEach _ mapKept_refl mapKept_trans). intros entity.
    apply (recomputeSingleEntityCache_kept _ mapKept_refl mapKept_trans
             mapKept_put).
Qed.

Lemma update_mapKept : maintains mapKept update.
Proof.
  unfold update.
  apply (maintains_bind _ mapKept_trans);
    [apply (maintains_gets _ mapKept_refl)|]. intros area.
  apply (maintains_bind _ mapKept_trans).
  { destruct area as [area|].
    - apply recomputeCache_mapKept.
    - apply (maintains_ret _ mapKept_refl). }
  intros _. apply (maintains_bind _ mapKept_trans).
  { apply (progressGrowth_kept _ mapKept_refl mapKept_trans). }
  intros growth.
  apply (transferItems_kept _ mapKept_refl mapKept_trans mapKept_put
           mapKept_game).
Qed.

Lemma recomputeAreaCache_then_gameKept area :
  maintains gameKept
    (recomputeAreaCache area ;; modify (set_areaToRecompute None)).
Proof.
  apply (maintains_bind _ gameKept_trans).
  - apply (recomputeAreaCache_kept gameKept gameKept_refl gameKept_trans
             (fun w _ _ => eq_refl)).
  - intros _ w. reflexivity.
Qed.

Lemma forEach_recompute_gameKept :
  maintains gameKept
    (do entities <- gets allEntities;
     forEach entities recomputeSingleEntityCache).
Proof.
  apply (maintains_bind _ gameKept_trans);
    [apply (maintains_gets _ gameKept_refl)|]. intros entities.
  apply (maintains_forEach gameKept gameKept_refl gameKept_trans).
  intros entity.
  apply (recomputeSingleEntityCache_kept gameKept gameKept_refl
           gameKept_trans (fun w _ _ => eq_refl)).
Qed.

(** A recomputation of the cache writes cache fields and nothing else:
    it leaves the map, the registered entities, the clock and every
    other component as they are, keeps the number of slots of every
    ejector and the geometry, item and progress of every slot; the state
    of the collaborators is as it was, but for the one call of the debug
    rendering of development builds, made before the recomputation. *)
Theorem recomputeCache_writes_cache_only (w : World) :
  let w' := final (recomputeCache w) in
  gameInitialized w' = gameInitialized w /\
  allEntities w' = allEntities w /\
  tiles w' = tiles w /\
  deltaSeconds w' = deltaSeconds w /\
  (forall v, sameReceiver (heap w v) (heap w' v)) /\
  (forall v j,
     match slotOf w v j with
     | Some s =>
         exists s', slotOf w' v j = Some s' /\
           pos s' = pos s /\ direction s' = direction s /\
           item s' = item s /\ progress s' = progress s
     | None => slotOf w' v j = None
     end) /\
  game w' =
    (if G_IS_DEV && debug_renderChanges globalConfig
     then match areaToRecompute w with
          | Some area => renderChange "ejector-area" area "#fe50a6" (game w)
          | None =>
              renderChange "ejector-full"
                (Rectangle.mk (-1000) (-1000) 2000 2000) "#fe50a6" (game w)
          end
     else game w).
Proof.
  intros w'. subst w'.
  destruct (recomputeCache_mapKept w) as (Hi & Ha & Ht & Hd & Hr).
  destruct (recomputeCache_cacheStep w) as (_ & _ & _ & _ & _ & Hs & Hn).
  split_and!; try assumption.
  - intros v j. destruct (slotOf w v j) as [s|] eqn:Hslot.
    + destruct (Hs v j s Hslot) as (s' & Hs' & Hf). eauto.
    + by apply Hn.
  - unfold recomputeCache. unfold bind at 1. unfold gets at 1.
    destruct (areaToRecompute w) as [area|];
      destruct (G_IS_DEV && debug_renderChanges globalConfig);
      unfold bind at 1; unfold call_, modify, ret;
      first [ apply (recomputeAreaCache_then_gameKept area)
            | apply forEach_recompute_gameKept
            | apply (forEach_recompute_gameKept (set_game _ w)) ].
Qed.

Lemma forEach_recompute_pendingKept entities :
  maintains pendingKept (forEach entities recomputeSingleEntityCache).
Proof.
  apply (maintains_forEach pendingKept pendingKept_refl pendingKept_trans).
  intros entity.
  apply (recomputeSingleEntityCache_kept pendingKept pendingKept_refl
           pendingKept_trans (fun w _ _ => eq_refl)).
Qed.

Lemma recomputeCache_returns_clear w w' :
  recomputeCache w = Ok tt w' -> areaToRecompute w' = None.
Proof.
  destruct (areaToRecompute w) as [area|] eqn:Harea.
  - destruct (recomputeCache_pending w area Harea) as [g ->].
    destruct (recomputeAreaCache area (set_game g w)); [|discriminate].
    by intros [= <-].
  - destruct (recomputeCache_full w Harea) as [g ->]. intros Hrun.
    pose proof (forEach_recompute_pendingKept (allEntities w) (set_game g w))
      as Hkept.
    rewrite Hrun in Hkept. unfold pendingKept in Hkept. simpl in Hkept.
    congruence.
Qed.

(** When a recomputation returns nothing is pending; when it throws, it
    throws a [TypeError] and the pending area is still as it was, so
    that the next [update] runs the recomputation again. *)
Theorem recomputeCache_outcome (w : World) :
  match recomputeCache w with
  | Ok _ w' => areaToRecompute w' = None
  | Throw e w' => e = TypeError /\ areaToRecompute w' = areaToRecompute w
  end.
Proof.
  destruct (recomputeCache w) as [[] w'|e w'] eqn:Hrun;
    [by apply (recomputeCache_returns_clear w)|].
  destruct (areaToRecompute w) as [area|] eqn:Harea.
  - destruct (recomputeCache_pending w area Harea) as [g Hpending].
    rewrite Hpending in Hrun.
    pose proof (recomputeAreaCache_spec area (set_game g w)) as Hspec.
    pose proof (recomputeAreaCache_kept pendingKept pendingKept_refl
                  pendingKept_trans (fun w _ _ => eq_refl) area (set_game g w))
      as Hkept.
    destruct (areaRun _ _ _) as [done|].
    + destruct Hspec as (w2 & Hrun2 & _). rewrite Hrun2 in Hrun. discriminate.
    + destruct Hspec as (w2 & Hrun2). rewrite Hrun2 in Hrun, Hkept.
      injection Hrun as <- <-. split; [reflexivity|].
      unfold pendingKept in Hkept. simpl in Hkept. congruence.
  - destruct (recomputeCache_full w Harea) as [g Hfull].
    rewrite Hfull in Hrun.
    pose proof (full_loop (set_game g w) (allEntities w) ∅ (set_game g w)
                  (cacheStep_refl _) (recomputedOn_empty _)) as Hspec.
    pose proof (forEach_recompute_pendingKept (allEntities w) (set_game g w))
      as Hkept.
    destruct (fullRun _ _ _) as [done|].
    + destruct Hspec as (w2 & Hrun2 & _). congruence.
    + destruct Hspec as (w2 & Hrun2). rewrite Hrun2 in Hrun, Hkept.
      injection Hrun as <- <-. split; [reflexivity|].
      unfold pendingKept in Hkept. simpl in Hkept. congruence.
Qed.

Lemma foldEach_ret {A S} (l : list A) (s : S) w :
  foldEach l s (fun s _ => ret s) w = Ok s w.
Proof. induction l as [|a l IH]; simpl; [reflexivity|]. exact IH. Qed.

(** An area without tiles: nothing is looked up, nothing is written. *)
Theorem recomputeAreaCache_empty_area (area : Rectangle.t) (w : World) :
  Rectangle.w area <= 0 \/ Rectangle.h area <= 0 ->
  recomputeAreaCache area w = Ok 0 w.
Proof.
  intros Hempty. unfold recomputeAreaCache, bind.
  destruct Hempty as [Hw | Hh].
  - rewrite seqZ_nil by (unfold Rectangle.right; lia). reflexivity.
  - rewrite (seqZ_nil (Rectangle.y area)) by (unfold Rectangle.bottom; lia).
    simpl. rewrite foldEach_ret. reflexivity.
Qed.

End Frame.

Section Transfer.
Context `{Collaborators}.

(** *** Loops under an invariant *)

Lemma forEach_invariant {A} (I : World -> Prop) (l : list A)
    (body : A -> M unit) :
  (forall a w, a ∈ l -> I w -> I (final (body a w))) ->
  forall w, I w -> I (final (forEach l body w)).
Proof.
  induction l as [|a l IH]; intros Hbody w Hw; simpl; [assumption|].
  unfold bind. pose proof (Hbody a w ltac:(left) Hw) as Ha.
  destruct (body a w) as [[] w1|e w1]; [|exact Ha].
  apply IH; [|exact Ha]. intros b w2 Hb. apply Hbody. by right.
Qed.

Lemma forEach_returns {A} (I : World -> Prop) (l : list A)
    (body : A -> M unit) :
  (forall a w, a ∈ l -> I w -> exists w', body a w = Ok tt w' /\ I w') ->
  forall w, I w -> exists w', forEach l body w = Ok tt w' /\ I w'.
Proof.
  induction l as [|a l IH]; intros Hbody w Hw; simpl; [by exists w|].
  unfold bind. destruct (Hbody a w ltac:(left) Hw) as (w1 & -> & Hw1).
  apply IH; [|exact Hw1]. intros b w2 Hb. apply Hbody. by right.
Qed.

(** *** One visit of the transfer loop *)

(** What a visit may leave behind: the world as it was, or the slot with
    its progress advanced, perhaps with the state of the collaborators
    changed, perhaps, at progress 1, with the item cleared after that. *)
Lemma updateSlot_cases (P : World -> Prop) growth entity i w :
  P w ->
  (forall s it,
     slotOf w entity i = Some s -> item s = Some it ->
     let s1 := set_progress (Math_min 1 (Number_add (progress s) growth)) s in
     let w1 := putSlot entity i s1 w in
     P w1 /\ (forall g, P (set_game g w1)) /\
     (progress s1 = 1%Q ->
      forall g, P (putSlot entity i (set_item None s1) (set_game g w1)))) ->
  P (final (updateSlot growth entity i w)).
Proof.
  intros Hw Hvisit. rewrite updateSlot_eq.
  destruct (slotOf w entity i) as [s|] eqn:Hs; [|exact Hw].
  destruct (item s) as [it|] eqn:Hit; [|exact Hw]. cbv zeta.
  destruct (Hvisit s it eq_refl Hit) as (Hw1 & Hgame & Hclear).
  destruct (Qltb _ 1) eqn:Hlt; [exact Hw1|].
  apply Math_min_pinned in Hlt.
  destruct (cachedTargetEntity s) as [t|]; [|exact Hw1].
  destruct (ItemAcceptor (components (heap w t))) as [acc|]; [|exact Hw1].
  destruct (cachedDestSlot s) as [d|]; [|exact Hw1].
  destruct (negb _); [exact Hw1|].
  match goal with
  | |- context [tryPassOverItem it t (index d) ?w0] =>
      destruct (tryPassOverItem_frame it t (index d) w0) as [g' Hframe];
      destruct (tryPassOverItem it t (index d) w0) as [[] w2|e w2]
  end; cbn [final] in *; subst w2.
  - by apply Hclear.
  - apply Hgame.
  - apply Hgame.
Qed.

Lemma geometryKept_refl w : geometryKept w w.
Proof. intros v j. destruct (slotOf w v j) as [s|]; eauto. Qed.

Lemma geometryKept_trans w1 w2 w3 :
  geometryKept w1 w2 -> geometryKept w2 w3 -> geometryKept w1 w3.
Proof.
  intros H12 H23 v j. specialize (H12 v j). specialize (H23 v j).
  destruct (slotOf w1 v j) as [s|].
  - destruct H12 as (s' & Hs' & Hp & Hd). rewrite Hs' in H23.
    destruct H23 as (s'' & Hs'' & Hp' & Hd').
    exists s''. split_and!; congruence.
  - by rewrite H12 in H23.
Qed.

Lemma geometryKept_cacheStep w w' : cacheStep w w' -> geometryKept w w'.
Proof.
  intros (_ & _ & _ & _ & _ & Hs & Hn) v j.
  destruct (slotOf w v j) as [s|] eqn:Hslot.
  - destruct (Hs v j s Hslot) as (s' & Hs' & Hp & Hd & _). eauto.
  - by apply Hn.
Qed.

Lemma geometryKept_putSlot w entity i s s1 :
  slotOf w entity i = Some s -> pos s1 = pos s -> direction s1 = direction s ->
  geometryKept w (putSlot entity i s1 w).
Proof.
  intros Hs Hp Hd v j. rewrite slotOf_putSlot by (by rewrite Hs).
  destruct (decide (entity = v /\ i = j)) as [[<- <-]|].
  - rewrite Hs. eauto.
  - destruct (slotOf w v j); eauto.
Qed.

Lemma updateSlot_geometryKept growth entity i :
  maintains geometryKept (updateSlot growth entity i).
Proof.
  intros w. apply (updateSlot_cases (geometryKept w));
    [apply geometryKept_refl|].
  intros s it Hs Hit s1 w1.
  assert (Hw1 : geometryKept w w1) by (by eapply geometryKept_putSlot).
  split_and!; [exact Hw1|intros g; exact Hw1|]. intros _ g.
  eapply geometryKept_trans; [exact Hw1|].
  apply (geometryKept_putSlot (set_game g w1) entity i s1); [|done|done].
  rewrite slotOf_set_game. apply slotOf_putSlot_eq. by rewrite Hs.
Qed.

Lemma transferItems_geometryKept growth :
  maintains geometryKept (transferItems growth).
Proof.
  unfold transferItems. apply (maintains_bind _ geometryKept_trans).
  - apply maintains_gets, geometryKept_refl.
  - intros entities.
    apply (maintains_forEach _ geometryKept_refl geometryKept_trans).
    intros sourceEntity. apply (maintains_bind _ geometryKept_trans).
    + apply readEjector_maintains, geometryKept_refl.
    + intros c. destruct (cachedConnectedSlots c) as [connected|].
      * apply (maintains_forEach _ geometryKept_refl geometryKept_trans).
        intros j. apply updateSlot_geometryKept.
      * apply maintains_ret, geometryKept_refl.
Qed.

Lemma consumePending_eq w :
  consumePending w =
  match areaToRecompute w with
  | Some _ => recomputeCache w
  | None => Ok tt w
  end.
Proof. unfold consumePending, bind, gets. by destruct (areaToRecompute w). Qed.

Lemma consumePending_returns_clear w w1 :
  consumePending w = Ok tt w1 -> areaToRecompute w1 = None.
Proof.
  rewrite consumePending_eq.
  destruct (areaToRecompute w) eqn:Harea; [apply recomputeCache_returns_clear|].
  by intros [= <-].
Qed.

Lemma update_clears_pending w w' :
  update w = Ok tt w' -> areaToRecompute w' = None.
Proof.
  rewrite update_eq.
  destruct (consumePending w) as [[] w1|e w1] eqn:Hconsume; [|discriminate].
  apply consumePending_returns_clear in Hconsume as Hout.
  intros Hrun.
  pose proof (transferItems_kept pendingKept pendingKept_refl
                pendingKept_trans (fun w _ _ => eq_refl)
                (fun w _ => eq_refl) (growthOf w1) w1) as Hkept.
  rewrite Hrun in Hkept. unfold pendingKept in Hkept. simpl in Hkept.
  congruence.
Qed.

(** A tick leaves the map, the registered entities, the clock and every
    component but the ejector as they are; every ejector keeps its slots
    and every slot its place and direction; and when the tick returns,
    nothing is pending.  With nothing pending before, the tick leaves the
    cache as it is. *)
Theorem update_keeps_map (w : World) :
  let w' := final (update w) in
  gameInitialized w' = gameInitialized w /\
  allEntities w' = allEntities w /\
  tiles w' = tiles w /\
  deltaSeconds w' = deltaSeconds w /\
  (forall v, sameReceiver (heap w v) (heap w' v)) /\
  (forall v j,
     match slotOf w v j with
     | Some s =>
         exists s', slotOf w' v j = Some s' /\
           pos s' = pos s /\ direction s' = direction s
     | None => slotOf w' v j = None
     end) /\
  (forall w'', update w = Ok tt w'' -> areaToRecompute w'' = None) /\
  (areaToRecompute w = None -> sameCache w w').
Proof.
  intros w'. subst w'.
  destruct (update_mapKept w) as (Hi & Ha & Ht & Hd & Hr).
  split_and!; try assumption.
  - change (geometryKept w (final (update w))). rewrite update_eq.
    pose proof (consumePending_cacheStep w) as Hstep.
    apply geometryKept_cacheStep in Hstep.
    destruct (consumePending w) as [[] w1|e w1]; [|exact Hstep].
    eapply geometryKept_trans; [exact Hstep|].
    apply transferItems_geometryKept.
  - intros w''. apply update_clears_pending.
  - intros Harea. apply update_sameCache.
    by rewrite consumePending_eq, Harea.
Qed.

(** The body of the outer loop of the transfer. *)
Lemma transferItems_eq growth w :
  transferItems growth w =
  forEach (allEntities w) (fun sourceEntity =>
    do sourceEjectorComp <- readEjector sourceEntity;
    match cachedConnectedSlots sourceEjectorComp with
    | None => ret tt
    | Some connected => forEach connected (updateSlot growth sourceEntity)
    end) w.
Proof. reflexivity. Qed.

(** A slot that is not visited is not touched. *)
Lemma update_unvisited w entity i :
  (entity ∉ allEntities w \/
   forall c connected,
     ejectorOf (final (consumePending w)) entity = Some c ->
     cachedConnectedSlots c = Some connected -> i ∉ connected) ->
  slotOf (final (update w)) entity i
  = slotOf (final (consumePending w)) entity i.
Proof.
  intros Hunvisited. rewrite update_eq.
  pose proof (consumePending_cacheStep w) as Hstep.
  destruct (consumePending w) as [[] w1|e w1]; [|reflexivity].
  cbn [final] in *. rewrite transferItems_eq.
  set (I := fun w' : World =>
         slotOf w' entity i = slotOf w1 entity i /\
         (cachedConnectedSlots <$> ejectorOf w' entity)
         = (cachedConnectedSlots <$> ejectorOf w1 entity)).
  assert (HI : I (final (forEach (allEntities w1) (fun sourceEntity =>
                 do sourceEjectorComp <- readEjector sourceEntity;
                 match cachedConnectedSlots sourceEjectorComp with
                 | None => ret tt
                 | Some connected =>
                     forEach connected
                       (updateSlot (growthOf w1) sourceEntity)
                 end) w1))); [|exact (proj1 HI)].
  apply (forEach_invariant I); [|by split].
  intros v w2 Hv [Hs2 Hc2]. unfold bind. rewrite readEjector_eq.
  destruct (ejectorOf w2 v) as [c|] eqn:Hc; [|by split].
  destruct (cachedConnectedSlots c) as [connected|] eqn:Hconn; [|by split].
  assert (Hother : forall j, j ∈ connected -> ~ (v = entity /\ j = i)).
  { intros j Hj [-> ->]. destruct Hunvisited as [Hreg | Hlisted].
    - apply Hreg. destruct Hstep as (<- & _). exact Hv.
    - rewrite Hc in Hc2. simpl in Hc2.
      destruct (ejectorOf w1 entity) as [c1|] eqn:Hc1; [|discriminate].
      injection Hc2 as Hc2.
      apply (Hlisted c1 connected eq_refl); [congruence|exact Hj]. }
  split.
  - rewrite <- Hs2. apply slotUntouched_forEach.
    intros j Hj. apply updateSlot_other, Hother, Hj.
  - rewrite <- Hc2.
    apply (maintains_forEach _ sameCache_refl sameCache_trans
             connected _ (fun j => updateSlot_sameCache _ v j) w2).
Qed.

(** A slot that is not visited is not touched: after the pending area
    has been consumed, a slot of an entity that is not registered, or
    that is not listed in [cachedConnectedSlots] of its entity, is left
    by the tick as it is; its item does not advance. *)
Theorem update_unconnected_slot (w : World) (entity : uid) (i : nat) :
  let w1 := final (consumePending w) in
  (entity ∉ allEntities w \/
   forall c connected,
     ejectorOf w1 entity = Some c ->
     cachedConnectedSlots c = Some connected -> i ∉ connected) ->
  slotOf (final (update w)) entity i = slotOf w1 entity i /\
  (item <$> slotOf (final (update w)) entity i) = (item <$> slotOf w entity i) /\
  (progress <$> slotOf (final (update w)) entity i)
  = (progress <$> slotOf w entity i).
Proof.
  intros w1 Hunvisited.
  assert (Hslot : slotOf (final (update w)) entity i = slotOf w1 entity i)
    by (by apply update_unvisited).
  split; [exact Hslot|]. rewrite Hslot. subst w1.
  destruct (consumePending_cacheStep w) as (_ & _ & _ & _ & _ & Hs & Hn).
  destruct (slotOf w entity i) as [s|] eqn:Hsw.
  - destruct (Hs entity i s Hsw) as (s' & -> & _ & _ & Hit & Hp). simpl.
    by rewrite Hit, Hp.
  - by rewrite (Hn entity i Hsw).
Qed.

(** A tick puts no item into a slot: an empty slot stays empty, with its
    progress, place and direction as they were. *)
Theorem update_empty_slot
    (w : World) (entity : uid) (i : nat) (s : EjectorSlot) :
  slotOf w entity i = Some s -> item s = None ->
  exists s', slotOf (final (update w)) entity i = Some s' /\
    item s' = None /\ progress s' = progress s /\
    pos s' = pos s /\ direction s' = direction s.
Proof.
  intros Hs Hempty.
  set (I := fun w' : World =>
         exists s', slotOf w' entity i = Some s' /\ slotFrame s s').
  assert (HI : I (final (update w))).
  { rewrite update_eq.
    destruct (consumePending_cacheStep w) as (_ & _ & _ & _ & _ & Hstep & _).
    assert (H1 : I (final (consumePending w))) by (by apply Hstep).
    destruct (consumePending w) as [[] w1|e w1]; [|exact H1].
    cbn [final] in H1. rewrite transferItems_eq.
    apply (forEach_invariant I); [|exact H1].
    intros v w2 _ H2. unfold bind. rewrite readEjector_eq.
    destruct (ejectorOf w2 v) as [c|]; [|exact H2].
    destruct (cachedConnectedSlots c) as [connected|]; [|exact H2].
    apply (forEach_invariant I); [|exact H2].
    intros j w3 _ (s3 & Hs3 & Hf3).
    destruct (decide (v = entity /\ j = i)) as [[-> ->]|Hne].
    - rewrite updateSlot_eq, Hs3.
      destruct Hf3 as (Hp & Hd & Hit & Hpr).
      rewrite Hit, Hempty. exists s3. by split.
    - exists s3. split; [|exact Hf3]. rewrite <- Hs3.
      by apply updateSlot_other. }
  destruct HI as (s' & Hs' & Hp & Hd & Hit & Hpr).
  exists s'. split_and!; congruence.
Qed.

(** *** A tick on a cache that can be followed *)

Lemma cacheSound_kept w w' :
  mapKept w w' -> sameCache w w' -> cacheSound w -> cacheSound w'.
Proof.
  intros (_ & Hall & _ & _ & Hrecv) [Hconn Hcache] Hsound v Hv.
  rewrite Hall in Hv. destruct (Hsound v Hv) as (c & Hc & Hlisted).
  specialize (Hconn v). rewrite Hc in Hconn.
  destruct (ejectorOf w' v) as [c'|] eqn:Hc'; [|discriminate].
  injection Hconn as Hconn. exists c'. split; [reflexivity|].
  intros connected j Hconnected Hj.
  destruct (Hlisted connected j ltac:(congruence) Hj)
    as (s & t & d & Hs & Ht & Hd & Hacc).
  specialize (Hcache v j). unfold slotOf in Hcache.
  rewrite Hc, Hc' in Hcache. simpl in Hcache. rewrite Hs in Hcache.
  destruct (slots c' !! j) as [s'|]; [|discriminate].
  injection Hcache as Hd' Ht'.
  exists s', t, d. split_and!; try congruence.
  destruct (Hrecv t) as (_ & _ & -> & _). exact Hacc.
Qed.

Lemma pathsAssigned_kept w w' :
  mapKept w w' -> pathsAssigned w -> pathsAssigned w'.
Proof.
  intros (_ & _ & _ & _ & Hrecv) Hpaths v beltComp g Hbelt.
  destruct (Hrecv v) as (_ & _ & _ & Hb & _).
  apply (Hpaths v). congruence.
Qed.

Lemma updateSlot_sound growth v j w :
  cacheSound w -> pathsAssigned w ->
  cacheSound (final (updateSlot growth v j w)) /\
  pathsAssigned (final (updateSlot growth v j w)).
Proof.
  intros Hsound Hpaths.
  pose proof (updateSlot_kept mapKept mapKept_refl mapKept_trans mapKept_put
                mapKept_game growth v j w) as Hkept.
  pose proof (updateSlot_sameCache growth v j w) as Hcache.
  split; [by eapply cacheSound_kept|by eapply pathsAssigned_kept].
Qed.

Lemma updateSlot_returns growth v j w c connected :
  v ∈ allEntities w -> cacheSound w -> pathsAssigned w ->
  ejectorOf w v = Some c -> cachedConnectedSlots c = Some connected ->
  j ∈ connected ->
  exists w', updateSlot growth v j w = Ok tt w'.
Proof.
  intros Hv Hsound Hpaths Hc Hconn Hj.
  destruct (Hsound v Hv) as (c0 & Hc0 & Hlisted).
  assert (c0 = c) as -> by congruence.
  destruct (Hlisted connected j Hconn Hj)
    as (s & t & d & Hs & Ht & Hd & [acc Hacc]).
  rewrite updateSlot_eq. unfold slotOf. rewrite Hc. simpl. rewrite Hs.
  destruct (item s) as [it|]; [|eauto]. cbv zeta.
  destruct (Qltb _ 1); [eauto|].
  rewrite Ht, Hacc, Hd.
  destruct (negb _); [eauto|].
  rewrite tryPassOverItem_eq.
  match goal with
  | |- context [Belt (components (heap ?w1 t))] =>
      assert (Hbelt : Belt (components (heap w1 t))
                      = Belt (components (heap w t)))
  end.
  { unfold putSlot. rewrite Hc. apply others_putEjector. }
  rewrite Hbelt.
  destruct (Belt (components (heap w t))) as [beltComp|] eqn:Hb; simpl.
  - match goal with
    | |- context [assignedPath beltComp ?g] =>
        destruct (Hpaths t beltComp g Hb) as [path ->]
    end.
    destruct (fst _); eauto.
  - destruct (fst _); eauto.
Qed.

(** With nothing pending. *)
Lemma update_returns_settled (w : World) :
  areaToRecompute w = None -> cacheSound w -> pathsAssigned w ->
  exists w',
    update w = Ok tt w' /\
    areaToRecompute w' = None /\ cacheSound w' /\ pathsAssigned w'.
Proof.
  intros Harea Hsound Hpaths.
  assert (Hrun : exists w', update w = Ok tt w' /\
                   (cacheSound w' /\ pathsAssigned w' /\
                    allEntities w' = allEntities w)).
  { rewrite update_eq, consumePending_eq, Harea, transferItems_eq.
    apply (forEach_returns
             (fun w' => cacheSound w' /\ pathsAssigned w' /\
                        allEntities w' = allEntities w));
      [|by split_and!].
    intros v w1 Hv (Hs1 & Hp1 & Ha1). unfold bind. rewrite readEjector_eq.
    rewrite <- Ha1 in Hv.
    destruct (Hs1 v Hv) as (c & Hc & _). rewrite Hc.
    destruct (cachedConnectedSlots c) as [connected|] eqn:Hconn;
      [|exists w1; by split_and!].
    destruct (forEach_returns
                (fun w' => cacheSound w' /\ pathsAssigned w' /\
                           allEntities w' = allEntities w /\
                           exists c', ejectorOf w' v = Some c' /\
                             cachedConnectedSlots c' = Some connected)
                connected (updateSlot (growthOf w) v)) with (w := w1)
      as (w2 & Hrun2 & Hs2 & Hp2 & Ha2 & _).
    - intros j w2 Hj (Hs2 & Hp2 & Ha2 & c2 & Hc2 & Hconn2).
      destruct (updateSlot_returns (growthOf w) v j w2 c2 connected)
        as [w3 Hrun3]; try assumption; [congruence|].
      exists w3. split; [exact Hrun3|].
      pose proof (updateSlot_sound (growthOf w) v j w2 Hs2 Hp2) as [Hs3 Hp3].
      pose proof (updateSlot_kept mapKept mapKept_refl mapKept_trans
                    mapKept_put mapKept_game (growthOf w) v j w2)
        as (_ & Ha3 & _).
      pose proof (updateSlot_sameCache (growthOf w) v j w2) as [Hc3 _].
      rewrite Hrun3 in Hs3, Hp3, Ha3, Hc3. cbn [final] in *.
      split_and!; try assumption; [congruence|].
      specialize (Hc3 v). rewrite Hc2 in Hc3.
      destruct (ejectorOf w3 v) as [c3|]; [|discriminate].
      injection Hc3 as Hc3. exists c3. split; congruence.
    - split_and!; try assumption. eauto.
    - exists w2. by split_and!. }
  destruct Hrun as (w' & Hrun & Hs' & Hp' & _).
  exists w'. split_and!; try assumption.
  by apply (update_clears_pending w).
Qed.

End Transfer.

Section Builder.
Context `{Collaborators}.

(** *** When the cache builder returns *)

Lemma resolveSlot_is_Some w staticComp s :
  is_Some (resolveSlot w staticComp s) <->
  exists sc, staticComp = Some sc /\
    forall t,
      tiles w (Vector.x (targetTile sc s)) (Vector.y (targetTile sc s)) = Some t ->
      is_Some (ItemAcceptor (components (heap w t))) ->
      is_Some (StaticMapEntity (components (heap w t))).
Proof.
  unfold resolveSlot. destruct staticComp as [sc|]; cbn [mbind option_bind].
  2:{ split; [by intros [? ?]|]. by intros (sc & ? & _). }
  split.
  - intros Hsome. exists sc. split; [done|]. intros t Ht [acc Hacc].
    rewrite Ht, Hacc in Hsome.
    destruct (StaticMapEntity (components (heap w t))); [by eexists|].
    cbn [mbind option_bind] in Hsome. by destruct Hsome.
  - intros (sc' & [= <-] & Hplaced).
    destruct (tiles w _ _) as [t|] eqn:Ht; [|by eexists].
    destruct (ItemAcceptor (components (heap w t))) as [acc|] eqn:Hacc;
      [|by eexists].
    destruct (Hplaced t eq_refl ltac:(by eexists)) as [tsc ->].
    cbn [mbind option_bind]. by eexists.
Qed.

Lemma recomputation_is_Some w entity :
  is_Some (recomputation w entity) <->
  exists c, ejectorOf w entity = Some c /\
    Forall (fun s =>
              is_Some (resolveSlot w
                         (StaticMapEntity (components (heap w entity))) s))
           (slots c).
Proof.
  unfold recomputation.
  destruct (ejectorOf w entity) as [c|]; cbn [mbind option_bind].
  2:{ split; [by intros [? ?]|]. by intros (c & ? & _). }
  split.
  - intros Hsome. exists c. split; [done|].
    apply (mapM_is_Some (resolveSlot w _)).
    destruct (mapM _ (slots c)); [by eexists|]. by destruct Hsome.
  - intros (c' & [= <-] & Hall).
    apply (mapM_is_Some (resolveSlot w _)) in Hall as [conns ->]. by eexists.
Qed.

(** [recomputeSingleEntityCache] returns exactly when the entity has an
    ejector component and, unless that component has no slots, a
    [StaticMapEntity] component, and every entity with an acceptor
    component on a target tile of its slots has a [StaticMapEntity]
    component as well; otherwise it throws a [TypeError]. *)
Theorem recomputeSingleEntityCache_returns_iff (w : World) (entity : uid) :
  ((exists w', recomputeSingleEntityCache entity w = Ok tt w') <->
   exists c, ejectorOf w entity = Some c /\
     (slots c = [] \/
      exists staticComp,
        StaticMapEntity (components (heap w entity)) = Some staticComp /\
        forall s t, s ∈ slots c ->
          tiles w (Vector.x (targetTile staticComp s))
                  (Vector.y (targetTile staticComp s)) = Some t ->
          is_Some (ItemAcceptor (components (heap w t))) ->
          is_Some (StaticMapEntity (components (heap w t))))) /\
  (forall e w', recomputeSingleEntityCache entity w = Throw e w' ->
     e = TypeError).
Proof.
  pose proof (recomputeSingleEntityCache_spec entity w) as Hspec.
  pose proof (recomputation_is_Some w entity) as Hsome.
  split.
  - split.
    + intros [w' Hrun].
      destruct (recomputation w entity) as [c'|].
      2:{ destruct Hspec as [w'' Hthrow]. congruence. }
      destruct (proj1 Hsome ltac:(by eexists)) as (c & Hc & Hall).
      exists c. split; [exact Hc|].
      destruct (slots c) as [|s0 rest] eqn:Hslots; [by left|right].
      pose proof (Forall_inv Hall) as H0.
      apply resolveSlot_is_Some in H0 as (sc & Hsc & _).
      exists sc. split; [exact Hsc|]. intros s t Hs.
      rewrite Forall_forall in Hall. specialize (Hall s Hs).
      apply resolveSlot_is_Some in Hall as (sc' & Hsc' & Hplaced).
      assert (sc' = sc) as -> by congruence. apply Hplaced.
    + intros (c & Hc & Hslots).
      assert (Hrec : is_Some (recomputation w entity)).
      { apply Hsome. exists c. split; [exact Hc|].
        destruct Hslots as [-> | (sc & Hsc & Hplaced)]; [constructor|].
        apply Forall_forall. intros s Hs. apply resolveSlot_is_Some.
        exists sc. split; [exact Hsc|]. intros t. by apply Hplaced. }
      destruct Hrec as [c' Hrec]. rewrite Hrec in Hspec.
      destruct Hspec as (w' & Hrun & _). eauto.
  - intros e w' Hthrow. destruct (recomputation w entity).
    + destruct Hspec as (w'' & Hrun & _). congruence.
    + destruct Hspec as (w'' & Hrun). congruence.
Qed.

(** What is left when the cache builder throws for a missing component:
    without an ejector component the world is as it was; with an ejector
    component that has a slot but without a [StaticMapEntity] component,
    the old cache is lost: [cachedConnectedSlots] and the cache fields of
    the first slot have been cleared, and nothing else has been
    written. *)
Theorem recomputeSingleEntityCache_missing_component
    (w : World) (entity : uid) :
  (ejectorOf w entity = None ->
   recomputeSingleEntityCache entity w = Throw TypeError w) /\
  (forall c s rest,
     ejectorOf w entity = Some c -> slots c = s :: rest ->
     StaticMapEntity (components (heap w entity)) = None ->
     exists w',
       recomputeSingleEntityCache entity w = Throw TypeError w' /\
       ejectorOf w' entity
       = Some {| slots := set_cache None None s :: rest;
                 cachedConnectedSlots := None |} /\
       (forall v, v <> entity -> heap w' v = heap w v)).
Proof.
  split.
  - intros Hc. unfold recomputeSingleEntityCache, bind, component, gets.
    by rewrite writeEjector_eq, Hc.
  - intros c s rest Hc Hslots Hstatic.
    unfold recomputeSingleEntityCache, bind, component, gets.
    rewrite Hstatic, writeEjector_eq, Hc, readEjector_eq.
    rewrite ejectorOf_putEjector, decide_True by done.
    cbn [slots set_cachedConnectedSlots]. rewrite Hslots.
    cbn [length seq forEach]. unfold bind, recomputeSlot, bind.
    rewrite writeSlot_eq. unfold slotOf at 1.
    rewrite ejectorOf_putEjector, decide_True by done.
    cbn [mbind option_bind slots set_cachedConnectedSlots].
    rewrite Hslots. cbn [lookup list_lookup].
    rewrite readSlot_eq, slotOf_putSlot_eq.
    2:{ unfold slotOf. rewrite ejectorOf_putEjector, decide_True by done.
        cbn. rewrite Hslots. by eexists. }
    cbn [deref]. unfold throw. eexists. split; [reflexivity|]. split.
    + unfold putSlot. rewrite ejectorOf_putEjector, decide_True by done.
      rewrite ejectorOf_putEjector, decide_True by done.
      cbn [slots set_cachedConnectedSlots set_slots]. by rewrite Hslots.
    + intros v Hv. unfold putSlot.
      rewrite ejectorOf_putEjector, decide_True by done.
      rewrite !heap_putEjector, !decide_False by congruence. reflexivity.
Qed.

(** *** The cache a recomputation leaves *)

Lemma elem_of_connectedFrom conns : forall k j,
  j ∈ connectedFrom k conns <->
  (k <= j)%nat /\ exists conn, conns !! (j - k)%nat = Some (Some conn).
Proof.
  induction conns as [|[p|] conns IH]; intros k j; cbn [connectedFrom].
  - split; [intros Hin; by apply elem_of_nil in Hin|]. by intros [_ [? ?]].
  - rewrite elem_of_cons, IH. split.
    + intros [->|[Hle [conn Hconn]]].
      * split; [lia|]. exists p. by rewrite Nat.sub_diag.
      * split; [lia|]. exists conn.
        replace (j - k)%nat with (S (j - S k)) by lia. exact Hconn.
    + intros [Hle [conn Hconn]]. destruct (decide (j = k)) as [->|Hne];
        [by left|right].
      split; [lia|]. exists conn.
      replace (j - k)%nat with (S (j - S k)) in Hconn by lia. exact Hconn.
  - rewrite IH. split.
    + intros [Hle [conn Hconn]]. split; [lia|]. exists conn.
      replace (j - k)%nat with (S (j - S k)) by lia. exact Hconn.
    + intros [Hle [conn Hconn]].
      destruct (decide (j = k)) as [->|Hne].
      { rewrite Nat.sub_diag in Hconn. discriminate. }
      split; [lia|]. exists conn.
      replace (j - k)%nat with (S (j - S k)) in Hconn by lia. exact Hconn.
Qed.

Lemma connectedFrom_sorted conns : forall k,
  StronglySorted lt (connectedFrom k conns).
Proof.
  induction conns as [|[p|] conns IH]; intros k; cbn [connectedFrom].
  - constructor.
  - constructor; [apply IH|]. apply Forall_forall. intros j Hj.
    apply elem_of_connectedFrom in Hj as [Hle _]. lia.
  - apply IH.
Qed.

Lemma default_pushed l : default [] (pushed None l) = l.
Proof. by destruct l. Qed.

Lemma cachedDestSlot_connect conn s :
  cachedDestSlot (connect conn s) = snd <$> conn.
Proof. by destruct conn as [[t m]|]. Qed.

Lemma targetTile_connect staticComp conn s :
  targetTile staticComp (connect conn s) = targetTile staticComp s.
Proof. by destruct conn as [[t m]|]. Qed.

Lemma ejectDirection_connect staticComp conn s :
  ejectDirection staticComp (connect conn s) = ejectDirection staticComp s.
Proof. by destruct conn as [[t m]|]. Qed.

Lemma resolveSlot_Some_Some w staticComp s t d :
  resolveSlot w staticComp s = Some (Some (t, d)) ->
  exists sc acc tsc,
    staticComp = Some sc /\
    tiles w (Vector.x (targetTile sc s)) (Vector.y (targetTile sc s)) = Some t /\
    ItemAcceptor (components (heap w t)) = Some acc /\
    StaticMapEntity (components (heap w t)) = Some tsc /\
    findMatchingSlot acc (worldToLocalTile tsc (targetTile sc s))
      (worldDirectionToLocal tsc (ejectDirection sc s)) = Some d.
Proof.
  unfold resolveSlot. destruct staticComp as [sc|]; cbn [mbind option_bind];
    [|discriminate].
  destruct (tiles w _ _) as [t'|] eqn:Htile; [|discriminate].
  destruct (ItemAcceptor (components (heap w t'))) as [acc|] eqn:Hacc;
    [|discriminate].
  destruct (StaticMapEntity (components (heap w t'))) as [tsc|] eqn:Htsc;
    cbn [mbind option_bind]; [|discriminate].
  destruct (findMatchingSlot _ _ _) as [m|] eqn:Hm; [|discriminate].
  intros [= -> ->]. exists sc, acc, tsc. by split_and!.
Qed.

Lemma recomputation_wellformed w entity c' :
  recomputation w entity = Some c' ->
  exists c, ejectorOf w entity = Some c /\
    length (slots c') = length (slots c) /\
    StronglySorted lt (default [] (cachedConnectedSlots c')) /\
    (forall j s', slots c' !! j = Some s' ->
       (j ∈ default [] (cachedConnectedSlots c')
        <-> is_Some (cachedTargetEntity s')) /\
       (is_Some (cachedDestSlot s') <-> is_Some (cachedTargetEntity s'))) /\
    (forall j, j ∈ default [] (cachedConnectedSlots c') ->
       is_Some (slots c' !! j)) /\
    (forall j s' t d,
       slots c' !! j = Some s' ->
       cachedTargetEntity s' = Some t -> cachedDestSlot s' = Some d ->
       exists staticComp acc targetStaticComp,
         StaticMapEntity (components (heap w entity)) = Some staticComp /\
         tiles w (Vector.x (targetTile staticComp s'))
                 (Vector.y (targetTile staticComp s')) = Some t /\
         ItemAcceptor (components (heap w t)) = Some acc /\
         StaticMapEntity (components (heap w t)) = Some targetStaticComp /\
         findMatchingSlot acc
           (worldToLocalTile targetStaticComp (targetTile staticComp s'))
           (worldDirectionToLocal targetStaticComp
              (ejectDirection staticComp s')) = Some d).
Proof.
  unfold recomputation. intros Hrec.
  destruct (ejectorOf w entity) as [c|]; [|discriminate].
  cbn [mbind option_bind] in Hrec.
  destruct (mapM _ (slots c)) as [conns|] eqn:Hconns; [|discriminate].
  injection Hrec as <-. exists c. split; [reflexivity|].
  pose proof (length_mapM _ _ _ Hconns) as Hlen.
  apply mapM_Some in Hconns.
  cbn [rebuilt slots cachedConnectedSlots]. rewrite default_pushed.
  split_and!.
  - rewrite length_zip_with. lia.
  - apply connectedFrom_sorted.
  - intros j s' Hs'.
    apply lookup_zip_with_Some in Hs' as (s & conn & -> & Hs & Hconn).
    rewrite cachedTargetEntity_connect, cachedDestSlot_connect.
    rewrite elem_of_connectedFrom, Nat.sub_0_r, Hconn. split.
    + split.
      * intros [_ [p [= ->]]]. by eexists.
      * intros [t Ht]. split; [lia|]. destruct conn as [p|]; [|discriminate].
        by exists p.
    + destruct conn as [[t d]|]; split; intros [? ?]; try discriminate;
        by eexists.
  - intros j Hj. apply elem_of_connectedFrom in Hj as [_ [conn Hconn]].
    rewrite Nat.sub_0_r in Hconn. apply lookup_lt_is_Some.
    rewrite length_zip_with. apply lookup_lt_Some in Hconn. lia.
  - intros j s' t d Hs' Ht Hd.
    apply lookup_zip_with_Some in Hs' as (s & conn & -> & Hs & Hconn).
    rewrite cachedTargetEntity_connect in Ht.
    rewrite cachedDestSlot_connect in Hd.
    destruct conn as [[t' d']|]; [|discriminate].
    injection Ht as ->. injection Hd as ->.
    pose proof (Forall2_lookup_lr _ _ _ _ _ _ Hconns Hs Hconn) as Hres.
    apply resolveSlot_Some_Some in Hres
      as (sc & acc & tsc & Hsc & Htile & Hacc & Htsc & Hm).
    exists sc, acc, tsc.
    rewrite targetTile_connect, ejectDirection_connect. by split_and!.
Qed.

(** The cache [recomputeSingleEntityCache] leaves can be followed: the
    ejector keeps its slots; [cachedConnectedSlots] lists, in increasing
    order and so each at most once, exactly the slots that have a cached
    target; a slot has a cached destination exactly when it has a cached
    target; and every cached connection is a connection of the map: the
    target is the entity on the tile next to the slot in its direction,
    and the destination is the slot [findMatchingSlot] of its acceptor
    component answers there.  No other entity has been written. *)
Theorem recomputeSingleEntityCache_cache_wellformed
    (w w' : World) (entity : uid) :
  recomputeSingleEntityCache entity w = Ok tt w' ->
  exists c c',
    ejectorOf w entity = Some c /\ ejectorOf w' entity = Some c' /\
    length (slots c') = length (slots c) /\
    StronglySorted lt (default [] (cachedConnectedSlots c')) /\
    (forall j s', slots c' !! j = Some s' ->
       (j ∈ default [] (cachedConnectedSlots c')
        <-> is_Some (cachedTargetEntity s')) /\
       (is_Some (cachedDestSlot s') <-> is_Some (cachedTargetEntity s'))) /\
    (forall j, j ∈ default [] (cachedConnectedSlots c') ->
       is_Some (slots c' !! j)) /\
    (forall j s' t d,
       slots c' !! j = Some s' ->
       cachedTargetEntity s' = Some t -> cachedDestSlot s' = Some d ->
       exists staticComp acc targetStaticComp,
         StaticMapEntity (components (heap w' entity)) = Some staticComp /\
         tiles w' (Vector.x (targetTile staticComp s'))
                  (Vector.y (targetTile staticComp s')) = Some t /\
         ItemAcceptor (components (heap w' t)) = Some acc /\
         StaticMapEntity (components (heap w' t)) = Some targetStaticComp /\
         findMatchingSlot acc
           (worldToLocalTile targetStaticComp (targetTile staticComp s'))
           (worldDirectionToLocal targetStaticComp
              (ejectDirection staticComp s')) = Some d) /\
    (forall v, v <> entity -> heap w' v = heap w v).
Proof.
  intros Hrun.
  pose proof (recomputeSingleEntityCache_spec entity w) as Hspec.
  destruct (recomputation w entity) as [c'|] eqn:Hrec.
  2:{ destruct Hspec as [w'' Hthrow]. congruence. }
  destruct Hspec as (w'' & Hrun' & Hupd).
  assert (w'' = w') as -> by congruence.
  destruct (recomputation_wellformed w entity c' Hrec)
    as (c & Hc & Hlen & Hsorted & Hlisted & Hthere & Hreal).
  exists c, c'. split_and!; try assumption.
  { by eapply ejectorUpdated_ejectorOf. }
  2:{ by destruct Hupd as (_ & _ & _ & _ & _ & _ & _ & Hothers). }
  intros j s' t d Hs' Ht Hd.
  destruct (Hreal j s' t d Hs' Ht Hd)
    as (sc & acc & tsc & Hsc & Htile & Hacc & Htsc & Hm).
  exists sc, acc, tsc.
  pose proof (ejectorUpdated_sameReceiver _ _ _ _ entity Hupd)
    as (_ & Hsc' & _).
  pose proof (ejectorUpdated_sameReceiver _ _ _ _ t Hupd)
    as (_ & Htsc' & Hacc' & _).
  destruct Hupd as (_ & _ & _ & Htiles & _).
  rewrite Htiles. split_and!; congruence.
Qed.

End Builder.

Section Many.
Context `{Collaborators}.

(** *** The entities a recomputation visits *)

Lemma fullRun_recomputation w entities : forall done done',
  fullRun w entities done = Some done' ->
  forall v, v ∈ entities -> is_Some (recomputation w v).
Proof.
  induction entities as [|entity entities IH]; intros done done' Hrun v Hv.
  - by apply elem_of_nil in Hv.
  - cbn [fullRun] in Hrun.
    destruct (recomputation w entity) as [c|] eqn:Hrec; [|discriminate].
    cbn [mbind option_bind] in Hrun.
    apply elem_of_cons in Hv as [->|Hv]; [by eexists|]. eauto.
Qed.

Lemma areaRun_recomputation w ps : forall done done',
  areaRun w ps done = Some done' ->
  forall v, v ∈ done' -> v ∈ done \/ is_Some (recomputation w v).
Proof.
  induction ps as [|[x y] ps IH]; intros done done' Hrun v Hv.
  - injection Hrun as <-. by left.
  - cbn [areaRun] in Hrun.
    destruct (tiles w x y) as [entity|]; [|eauto].
    destruct (negb _ && _); [|eauto].
    destruct (recomputation w entity) as [c|] eqn:Hrec; [|discriminate].
    cbn [mbind option_bind] in Hrun.
    destruct (IH _ _ Hrun v Hv) as [Hin|Hsome]; [|by right].
    apply elem_of_union in Hin as [Hin|Hin]; [|by left].
    apply elem_of_singleton in Hin as ->. right. by eexists.
Qed.

(** The entities an area recomputation has recomputed. *)
Lemma recomputeAreaCache_done area w entryCount w' :
  recomputeAreaCache area w = Ok entryCount w' ->
  entryCount = 0 /\
  exists done : gset uid,
    (forall v, v ∈ done <->
       exists x y, Rectangle.containsTile area x y /\
         tiles w x y = Some v /\ is_Some (ejectorOf w v)) /\
    (forall v, v ∈ done -> is_Some (recomputation w v)) /\
    recomputedOn w done w'.
Proof.
  intros Hrun. pose proof (recomputeAreaCache_spec area w) as Hspec.
  destruct (areaRun w (areaTiles area) ∅) as [done|] eqn:Harea.
  2:{ destruct Hspec as [w'' Hthrow]. congruence. }
  destruct Hspec as (w'' & Hrun' & _ & Hon & _).
  rewrite Hrun in Hrun'. injection Hrun' as -> <-.
  split; [reflexivity|]. exists done. split_and!; [| |exact Hon].
  - intros v. rewrite (areaRun_elem _ _ _ _ Harea v). split.
    + intros [Hempty|(x & y & Hin & Hrest)];
        [by apply elem_of_empty in Hempty|].
      exists x, y. by rewrite <- elem_of_areaTiles.
    + intros (x & y & Hin & Hrest). right. exists x, y.
      by rewrite elem_of_areaTiles.
  - intros v Hv.
    destruct (areaRun_recomputation _ _ _ _ Harea v Hv) as [Hempty|Hsome];
      [by apply elem_of_empty in Hempty|exact Hsome].
Qed.

(** The recomputed entity is what [recomputeSingleEntityCache] leaves. *)
Lemma recomputedEntity_single w v :
  is_Some (recomputation w v) ->
  exists w1, recomputeSingleEntityCache v w = Ok tt w1 /\
             heap w1 v = recomputedEntity w v.
Proof.
  intros [c Hrec]. pose proof (recomputeSingleEntityCache_spec v w) as Hspec.
  unfold recomputedEntity. rewrite Hrec in Hspec |- *.
  destruct Hspec as (w1 & Hrun & Hupd). exists w1. split; [exact Hrun|].
  by destruct Hupd as (_ & _ & _ & _ & _ & _ & -> & _).
Qed.

(** [recomputeAreaCache] recomputes every entity once and each on its
    own: when it returns, it returns 0; an entity with an ejector
    component and a tile in the area is left as
    [recomputeSingleEntityCache] alone would leave it when run on the
    world before; every other entity is left as it was. *)
Theorem recomputeAreaCache_recomputes_each
    (area : Rectangle.t) (w w' : World) (entryCount : Z) :
  recomputeAreaCache area w = Ok entryCount w' ->
  entryCount = 0 /\
  (forall v x y,
     Rectangle.containsTile area x y -> tiles w x y = Some v ->
     is_Some (ejectorOf w v) ->
     exists w1, recomputeSingleEntityCache v w = Ok tt w1 /\
                heap w' v = heap w1 v) /\
  (forall v,
     (forall x y, Rectangle.containsTile area x y -> tiles w x y <> Some v) \/
     ejectorOf w v = None ->
     heap w' v = heap w v).
Proof.
  intros Hrun.
  destruct (recomputeAreaCache_done area w entryCount w' Hrun)
    as (Hcount & done & Hdone & Hsome & Hon).
  split; [exact Hcount|]. split.
  - intros v x y Hin Htile Hej.
    assert (Hv : v ∈ done) by (apply Hdone; eauto).
    destruct (recomputedEntity_single w v (Hsome v Hv)) as (w1 & Hrun1 & Hheap).
    exists w1. split; [exact Hrun1|].
    by rewrite (Hon v), decide_True, Hheap.
  - intros v Hout. rewrite (Hon v). rewrite decide_False; [reflexivity|].
    intros Hv. apply Hdone in Hv as (x & y & Hin & Htile & Hej).
    destruct Hout as [Hout | Hout].
    + by apply (Hout x y).
    + rewrite Hout in Hej. by destruct Hej.
Qed.

(** The full recomputation does not depend on the order in which the
    entities are registered, nor on an entity being registered twice:
    with the same entities registered in another order it returns as
    well and leaves every entity the same. *)
Theorem recomputeCache_full_order
    (w w1 : World) (entities' : list uid) :
  areaToRecompute w = None ->
  (forall v, v ∈ allEntities w <-> v ∈ entities') ->
  recomputeCache w = Ok tt w1 ->
  exists w2,
    recomputeCache (set_allEntities entities' w) = Ok tt w2 /\
    forall v, heap w2 v = heap w1 v.
Proof.
  intros Harea Hsame Hrun.
  destruct (recomputeCache_full w Harea) as [g Hfull].
  destruct (recomputeCache_full (set_allEntities entities' w) Harea)
    as [g' Hfull'].
  rewrite Hfull in Hrun. rewrite Hfull'.
  cbn [allEntities set_allEntities].
  set (w0 := set_game g w) in *.
  set (w0' := set_game g' (set_allEntities entities' w)).
  pose proof (full_loop w0 (allEntities w) ∅ w0 (cacheStep_refl _)
                (recomputedOn_empty _)) as Hloop.
  destruct (fullRun w0 (allEntities w) ∅) as [done|] eqn:Hdone.
  2:{ destruct Hloop as [w'' Hthrow]. congruence. }
  destruct Hloop as (w'' & Hrun' & _ & Hon & _).
  assert (w'' = w1) as -> by congruence.
  pose proof (full_loop w0' entities' ∅ w0' (cacheStep_refl _)
                (recomputedOn_empty _)) as Hloop'.
  assert (Hsome : is_Some (fullRun w0' entities' ∅)).
  { apply fullRun_is_Some. intros v Hv.
    change (recomputation w0' v) with (recomputation w0 v).
    apply (fullRun_recomputation _ _ _ _ Hdone). by apply Hsame. }
  destruct Hsome as [done' Hdone']. rewrite Hdone' in Hloop'.
  destruct Hloop' as (w2 & Hrun2 & _ & Hon' & _).
  exists w2. split; [exact Hrun2|]. intros v.
  rewrite (Hon v), (Hon' v).
  change (recomputedEntity w0' v) with (recomputedEntity w0 v).
  change (heap w0' v) with (heap w0 v).
  pose proof (fullRun_elem _ _ _ _ Hdone v) as Hv.
  pose proof (fullRun_elem _ _ _ _ Hdone' v) as Hv'.
  destruct (decide (v ∈ done)) as [Hin|Hout].
  - rewrite decide_True; [reflexivity|].
    apply Hv'. right. apply Hsame.
    apply Hv in Hin as [Hempty|Hin]; [by apply elem_of_empty in Hempty|done].
  - rewrite decide_False; [reflexivity|]. intros Hin'. apply Hout.
    apply Hv. right. apply Hsame.
    apply Hv' in Hin' as [Hempty|Hin']; [by apply elem_of_empty in Hempty|done].
Qed.

(** *** A recomputation leaves a cache that can be followed *)

Lemma recomputed_sound w0 w1 v c' :
  recomputation w0 v = Some c' ->
  (forall t, sameReceiver (heap w0 t) (heap w1 t)) ->
  forall connected j,
    cachedConnectedSlots c' = Some connected -> j ∈ connected ->
    exists s t d,
      slots c' !! j = Some s /\
      cachedTargetEntity s = Some t /\ cachedDestSlot s = Some d /\
      is_Some (ItemAcceptor (components (heap w1 t))).
Proof.
  intros Hrec Hrecv connected j Hconn Hj.
  destruct (recomputation_wellformed w0 v c' Hrec)
    as (c & _ & _ & _ & Hlisted & Hthere & Hreal).
  rewrite Hconn in Hlisted, Hthere. cbn [default] in *.
  destruct (Hthere j Hj) as [s Hs].
  destruct (Hlisted j s Hs) as [Htarget Hdest].
  destruct (proj1 Htarget Hj) as [t Ht].
  destruct (proj2 Hdest ltac:(by eexists)) as [d Hd].
  destruct (Hreal j s t d Hs Ht Hd) as (sc & acc & tsc & _ & _ & Hacc & _).
  exists s, t, d. split_and!; try assumption.
  destruct (Hrecv t) as (_ & _ & -> & _). by eexists.
Qed.

Lemma kept_sound w w1 v c :
  cacheSound w -> v ∈ allEntities w ->
  (forall t, sameReceiver (heap w t) (heap w1 t)) ->
  ejectorOf w v = Some c ->
  forall connected j,
    cachedConnectedSlots c = Some connected -> j ∈ connected ->
    exists s t d,
      slots c !! j = Some s /\
      cachedTargetEntity s = Some t /\ cachedDestSlot s = Some d /\
      is_Some (ItemAcceptor (components (heap w1 t))).
Proof.
  intros Hsound Hv Hrecv Hc connected j Hconn Hj.
  destruct (Hsound v Hv) as (c0 & Hc0 & Hlisted).
  assert (c0 = c) as -> by congruence.
  destruct (Hlisted connected j Hconn Hj) as (s & t & d & Hs & Ht & Hd & Hacc).
  exists s, t, d. split_and!; try assumption.
  by destruct (Hrecv t) as (_ & _ & -> & _).
Qed.

Lemma recomputeCache_pending_cacheSound w area w1 :
  areaToRecompute w = Some area -> cacheSound w ->
  recomputeCache w = Ok tt w1 -> cacheSound w1.
Proof.
  intros Harea Hbefore Hrun.
  destruct (recomputeCache_pending w area Harea) as [g Hpending].
  rewrite Hpending in Hrun. set (w0 := set_game g w) in *.
  destruct (recomputeAreaCache area w0) as [n w2|e w2] eqn:Hrun2;
    [|discriminate].
  injection Hrun as <-.
  pose proof (recomputeAreaCache_cacheStep area w0) as Hstep.
  rewrite Hrun2 in Hstep. cbn [final] in Hstep.
  destruct Hstep as (Hall & _ & _ & Hrecv & _).
  destruct (recomputeAreaCache_done area w0 n w2 Hrun2)
    as (_ & done & _ & Hsome & Hon).
  intros v Hv. cbn [allEntities set_areaToRecompute] in Hv.
  rewrite Hall in Hv. change (allEntities w0) with (allEntities w) in Hv.
  unfold ejectorOf. cbn [heap set_areaToRecompute].
  rewrite (Hon v). destruct (decide (v ∈ done)) as [Hin|Hout].
  - destruct (Hsome v Hin) as [c' Hrec].
    unfold recomputedEntity. rewrite Hrec. exists c'.
    split; [reflexivity|]. by apply (recomputed_sound w0 _ v).
  - destruct (Hbefore v Hv) as (c & Hc & _). exists c.
    split; [exact Hc|]. by apply (kept_sound w _ v).
Qed.

(** When [recomputeCache] returns, the cache of every registered entity
    can be followed, provided that it could be followed before when only
    a pending area is recomputed.  The full recomputation asks nothing
    of the cache it finds. *)
Theorem recomputeCache_sound (w w1 : World) :
  (is_Some (areaToRecompute w) -> cacheSound w) ->
  recomputeCache w = Ok tt w1 ->
  cacheSound w1.
Proof.
  intros Hbefore Hrun.
  destruct (areaToRecompute w) as [area|] eqn:Harea.
  { apply (recomputeCache_pending_cacheSound w area); [done| |done].
    apply Hbefore. by eexists. }
  destruct (recomputeCache_full w Harea) as [g Hfull].
  rewrite Hfull in Hrun. set (w0 := set_game g w) in *.
  pose proof (full_loop w0 (allEntities w) ∅ w0 (cacheStep_refl _)
                (recomputedOn_empty _)) as Hloop.
  destruct (fullRun w0 (allEntities w) ∅) as [done|] eqn:Hdone.
  2:{ destruct Hloop as [w'' Hthrow]. congruence. }
  destruct Hloop as (w'' & Hrun' & Hstep & Hon & _).
  assert (w'' = w1) as -> by congruence.
  destruct Hstep as (Hall & _ & _ & Hrecv & _).
  intros v Hv. rewrite Hall in Hv.
  change (allEntities w0) with (allEntities w) in Hv.
  destruct (fullRun_recomputation _ _ _ _ Hdone v Hv) as [c' Hrec].
  unfold ejectorOf. rewrite (Hon v), decide_True.
  2:{ apply (fullRun_elem _ _ _ _ Hdone). by right. }
  unfold recomputedEntity. rewrite Hrec. exists c'.
  split; [reflexivity|]. by apply (recomputed_sound w0 _ v).
Qed.

(** A tick on a cache that can be followed returns.  With every
    registered entity an ejector, every listed slot there with a cached
    destination and a cached target that has an acceptor component,
    every belt registered to a path, and the recomputation of the
    pending area, if one is pending, returning, [update] does not throw;
    and it leaves nothing pending and a world of which the same holds,
    so that the next tick returns as well. *)
Theorem update_does_not_throw (w : World) :
  cacheSound w -> pathsAssigned w ->
  (is_Some (areaToRecompute w) -> exists w1, recomputeCache w = Ok tt w1) ->
  exists w',
    update w = Ok tt w' /\
    areaToRecompute w' = None /\ cacheSound w' /\ pathsAssigned w'.
Proof.
  intros Hsound Hpaths Hrecompute.
  destruct (areaToRecompute w) as [area|] eqn:Harea;
    [|by apply update_returns_settled].
  destruct (Hrecompute ltac:(by eexists)) as [w1 Hrun].
  assert (Harea1 : areaToRecompute w1 = None)
    by apply (recomputeCache_returns_clear w w1 Hrun).
  assert (Hsound1 : cacheSound w1)
    by apply (recomputeCache_pending_cacheSound w area w1 Harea Hsound Hrun).
  assert (Hpaths1 : pathsAssigned w1).
  { apply (pathsAssigned_kept w); [|exact Hpaths].
    pose proof (recomputeCache_mapKept w) as Hkept. by rewrite Hrun in Hkept. }
  destruct (update_returns_settled w1 Harea1 Hsound1 Hpaths1) as (w' & Hupd & Hrest).
  exists w'. split; [|exact Hrest].
  rewrite update_eq, consumePending_eq, Harea, Hrun.
  by rewrite update_eq, consumePending_eq, Harea1 in Hupd.
Qed.

End Many.

Section DrawProperties.
Context `{Drawing}.

(** *** Drawing *)



(** Drawing an entity that lacks a component: without a
    [StaticMapEntity] component [drawSingleEntity] throws a [TypeError];
    with it but without an ejector component it returns when the entity
    is not to be drawn and throws a [TypeError] when it is.  The world is
    left as it was. *)
Theorem drawSingleEntity_missing_component
    (parameters : DrawParameters) (entity : uid) (w : World) :
  (StaticMapEntity (components (heap w entity)) = None ->
   drawSingleEntity parameters entity w = Throw TypeError w) /\
  (forall staticComp,
     StaticMapEntity (components (heap w entity)) = Some staticComp ->
     ejectorOf w entity = None ->
     drawSingleEntity parameters entity w =
     if shouldBeDrawn staticComp parameters (game w)
     then Throw TypeError w else Ok tt w).
Proof.
  split.
  - intros Hstatic. unfold drawSingleEntity, bind, component, gets.
    by rewrite Hstatic.
  - intros staticComp Hstatic Hc.
    unfold drawSingleEntity, bind, component, query, gets.
    unfold ejectorOf in Hc. rewrite Hstatic, Hc. cbn [deref ret].
    by destruct (shouldBeDrawn staticComp parameters (game w)).
Qed.


End DrawProperties.

Section Dispatcher.
Context `{Collaborators}.

(** *** The dispatcher and the entities *)

(** The dispatcher changes at most the state of the collaborators: it
    writes no field of the system, of the map or of an entity, whether
    it returns or throws; and a receiver that has none of the five
    components it knows is offered nothing: the dispatcher answers
    [false] and the world is left as it is. *)
Theorem tryPassOverItem_writes_no_entity
    (item : BaseItem) (receiver : uid) (slotIndex : nat) (w : World) :
  (exists g, final (tryPassOverItem item receiver slotIndex w) = set_game g w) /\
  (Belt (components (heap w receiver)) = None ->
   Storage (components (heap w receiver)) = None ->
   ItemProcessor (components (heap w receiver)) = None ->
   UndergroundBelt (components (heap w receiver)) = None ->
   EnergyGenerator (components (heap w receiver)) = None ->
   tryPassOverItem item receiver slotIndex w = Ok false w).
Proof.
  split; [apply tryPassOverItem_frame|].
  intros Hbelt Hstorage Hprocessor Hunderground Hgenerator.
  rewrite tryPassOverItem_eq, Hbelt. cbn [mbind option_bind].
  unfold handoverPriority, firstAccepting, offer.
  rewrite Hbelt, Hstorage, Hprocessor, Hunderground, Hgenerator.
  cbn [mbind option_bind fst snd]. by rewrite set_game_same.
Qed.

End Dispatcher.

(** The visit does not throw this exception. *)
Ltac no_throw :=
  split;
  [ by intros [? [=]]
  | intros;
    repeat match goal with
           | H : _ \/ _ |- _ => destruct H
           | H : exists _, _ |- _ => destruct H
           | H : _ /\ _ |- _ => destruct H
           end;
    simplify_eq; congruence || done ].

Ltac only_throws :=
  let Heq := fresh in
  intros ? ? Heq; simplify_eq; first [by left | by right].

Section Visit.
Context `{Collaborators}.

Lemma Qltb_Math_min x : Qltb (Math_min 1 x) 1 = false <-> (1 <= x)%Q.
Proof.
  unfold Qltb, Math_min. rewrite negb_false_iff, Qle_bool_iff.
  rewrite Q.min_glb_iff. split; [by intros [_ ?]|]. intros Hx.
  split; [apply Qle_refl|exact Hx].
Qed.

(** When a visit of the transfer loop throws.  It throws a [TypeError]
    when the listed slot does not exist, or when the slot holds an item
    that the visit takes to progress 1 and no cached target, a cached
    target without acceptor component, or no cached destination is
    there.  It throws the failed assertion when the acceptor of the
    target has accepted and the target is a belt without a path.  It
    throws nothing else. *)
Theorem updateSlot_throws_iff
    (growth : Q) (entity : uid) (i : nat) (w : World) :
  ((exists w', updateSlot growth entity i w = Throw TypeError w') <->
   slotOf w entity i = None \/
   exists s it,
     slotOf w entity i = Some s /\ item s = Some it /\
     (1 <= Number_add (progress s) growth)%Q /\
     (cachedTargetEntity s = None \/
      cachedDestSlot s = None \/
      exists t, cachedTargetEntity s = Some t /\
        ItemAcceptor (components (heap w t)) = None)) /\
  ((exists w', updateSlot growth entity i w
               = Throw (AssertionError "belt has no path") w') <->
   exists s it t d acc beltComp,
     slotOf w entity i = Some s /\ item s = Some it /\
     (1 <= Number_add (progress s) growth)%Q /\
     cachedTargetEntity s = Some t /\ cachedDestSlot s = Some d /\
     ItemAcceptor (components (heap w t)) = Some acc /\
     canAcceptItem acc (index d) it (game w) = true /\
     Belt (components (heap w t)) = Some beltComp /\
     assignedPath beltComp (game w) = None) /\
  (forall e w', updateSlot growth entity i w = Throw e w' ->
     e = TypeError \/ e = AssertionError "belt has no path").
Proof.
  rewrite updateSlot_eq.
  destruct (slotOf w entity i) as [s|] eqn:Hs.
  2:{ split_and!; [split; [by left|by eexists]|no_throw|only_throws]. }
  destruct (item s) as [it|] eqn:Hit; [|split_and!; [no_throw|no_throw|only_throws]].
  cbv zeta. cbn [progress set_progress].
  destruct (Qltb (Math_min 1 (Number_add (progress s) growth)) 1) eqn:Hlt.
  { assert (Hnot : ~ (1 <= Number_add (progress s) growth)%Q).
    { rewrite <- Qltb_Math_min. congruence. }
    split_and!; [no_throw|no_throw|only_throws]. }
  apply Qltb_Math_min in Hlt.
  destruct (cachedTargetEntity s) as [t|] eqn:Ht.
  2:{ split_and!; [split; [intros _|by eexists]|no_throw|only_throws].
      right. exists s, it. split_and!; auto. }
  destruct (ItemAcceptor (components (heap w t))) as [acc|] eqn:Hacc.
  2:{ split_and!; [split; [intros _|by eexists]|no_throw|only_throws].
      right. exists s, it. split_and!; eauto. }
  destruct (cachedDestSlot s) as [d|] eqn:Hd.
  2:{ split_and!; [split; [intros _|by eexists]|no_throw|only_throws].
      right. exists s, it. split_and!; auto. }
  destruct (canAcceptItem acc (index d) it (game w)) eqn:Hcan; cbn [negb];
    [|split_and!; [no_throw|no_throw|only_throws]].
  rewrite tryPassOverItem_eq.
  match goal with
  | |- context [Belt (components (heap ?w1 t))] =>
      assert (Hbelt : Belt (components (heap w1 t))
                      = Belt (components (heap w t)));
      [|rewrite Hbelt, ?game_putSlot]
  end.
  { unfold putSlot. destruct (ejectorOf w entity); [|reflexivity].
    apply others_putEjector. }
  destruct (Belt (components (heap w t))) as [beltComp|] eqn:Hb;
    cbn [mbind option_bind].
  - destruct (assignedPath beltComp (game w)) as [path|] eqn:Hpath.
    + destruct (fst _); (split_and!; [no_throw|no_throw|only_throws]).
    + split_and!; [no_throw| |only_throws].
      split; [|by eexists]. intros _.
      exists s, it, t, d, acc, beltComp. by split_and!.
  - destruct (fst _); (split_and!; [no_throw|no_throw|only_throws]).
Qed.

End Visit.

Section Neighbourhood.
Context `{Collaborators}.

(** A signal and the recomputation that follows it.  In an initialized
    game with nothing pending, after the signal for an entity with a
    [StaticMapEntity] component, a recomputation that returns has
    recomputed the neighbourhood of the entity and nothing else: every
    entity with an ejector component and a tile at most 2 tiles from the
    tile-space bounds of the signalled entity is left as
    [recomputeSingleEntityCache] alone leaves it, and every other entity
    is left as it was. *)
Theorem signal_recomputes_neighbourhood
    (w w' : World) (entity : uid) (staticComp : StaticMapEntityComponent) :
  gameInitialized w = true -> areaToRecompute w = None ->
  StaticMapEntity (components (heap w entity)) = Some staticComp ->
  (checkForCacheInvalidation entity ;; recomputeCache) w = Ok tt w' ->
  let bounds := getTileSpaceBounds staticComp in
  let near x y :=
    Rectangle.x bounds - 2 <= x < Rectangle.right bounds + 2 /\
    Rectangle.y bounds - 2 <= y < Rectangle.bottom bounds + 2 in
  (forall v x y,
     near x y -> tiles w x y = Some v -> is_Some (ejectorOf w v) ->
     exists w1, recomputeSingleEntityCache v w = Ok tt w1 /\
                heap w' v = heap w1 v) /\
  (forall v,
     (forall x y, near x y -> tiles w x y <> Some v) \/ ejectorOf w v = None ->
     heap w' v = heap w v).
Proof.
  intros Hinit Hnone Hstatic Hrun bounds near.
  unfold bind in Hrun.
  rewrite checkForCacheInvalidation_eq, Hinit, Hstatic, Hnone in Hrun.
  cbv zeta in Hrun.
  set (area := Rectangle.expandedInAllDirections
                 (getTileSpaceBounds staticComp) 2) in *.
  set (w1 := set_areaToRecompute (Some area) w) in *.
  destruct (recomputeCache_pending w1 area eq_refl) as [g Hpending].
  rewrite Hpending in Hrun.
  destruct (recomputeAreaCache area (set_game g w1)) as [n w2|e w2] eqn:Harea;
    [|discriminate].
  injection Hrun as <-.
  destruct (recomputeAreaCache_done area (set_game g w1) n w2 Harea)
    as (_ & done & Hdone & Hsome & Hon).
  assert (Hnear : forall x y, near x y <-> Rectangle.containsTile area x y).
  { intros x y. subst near area. cbv beta.
    rewrite expanded_containsTile. reflexivity. }
  cbn [heap set_areaToRecompute]. split.
  - intros v x y Hxy Htile Hej.
    assert (Hv : v ∈ done).
    { apply Hdone. exists x, y. split_and!; [by apply Hnear|done|done]. }
    destruct (recomputedEntity_single w v (Hsome v Hv)) as (w3 & Hrun3 & Hheap).
    exists w3. split; [exact Hrun3|].
    by rewrite (Hon v), decide_True, Hheap.
  - intros v Hfar. rewrite (Hon v), decide_False; [reflexivity|].
    intros Hv. apply Hdone in Hv as (x & y & Hin & Htile & Hej).
    destruct Hfar as [Hfar | Hfar].
    + apply (Hfar x y); [by apply Hnear|exact Htile].
    + change (ejectorOf (set_game g w1) v) with (ejectorOf w v) in Hej.
      rewrite Hfar in Hej. by destruct Hej.
Qed.

End Neighbourhood.

Section Compose.
Context `{Collaborators}.

(** *** The two recomputations, and the recomputation in a tick *)

(** Where the registered entities are the entities with an ejector
    component and a tile in the pending area, the recomputation of the
    area does what the full recomputation does: when it returns, the
    full recomputation returns as well and leaves every entity the
    same. *)
Theorem recomputeCache_area_is_full (w w1 : World) (area : Rectangle.t) :
  areaToRecompute w = Some area ->
  (forall v, v ∈ allEntities w <->
     exists x y, Rectangle.containsTile area x y /\
       tiles w x y = Some v /\ is_Some (ejectorOf w v)) ->
  recomputeCache w = Ok tt w1 ->
  exists w2,
    recomputeCache (set_areaToRecompute None w) = Ok tt w2 /\
    forall v, heap w2 v = heap w1 v.
Proof.
  intros Harea Hregistered Hrun.
  destruct (recomputeCache_pending w area Harea) as [g Hpending].
  rewrite Hpending in Hrun. set (w0 := set_game g w) in *.
  destruct (recomputeAreaCache area w0) as [n w'|e w'] eqn:Hrun';
    [|discriminate].
  injection Hrun as <-.
  destruct (recomputeAreaCache_done area w0 n w' Hrun')
    as (_ & done & Hdone & Hsome & Hon).
  destruct (recomputeCache_full (set_areaToRecompute None w) eq_refl)
    as [g' Hfull].
  rewrite Hfull. cbn [allEntities set_areaToRecompute].
  set (w0' := set_game g' (set_areaToRecompute None w)).
  pose proof (full_loop w0' (allEntities w) ∅ w0' (cacheStep_refl _)
                (recomputedOn_empty _)) as Hloop.
  assert (Hall : is_Some (fullRun w0' (allEntities w) ∅)).
  { apply fullRun_is_Some. intros v Hv.
    change (recomputation w0' v) with (recomputation w0 v).
    apply Hsome, Hdone, Hregistered, Hv. }
  destruct Hall as [done' Hdone']. rewrite Hdone' in Hloop.
  destruct Hloop as (w2 & Hrun2 & _ & Hon' & _).
  exists w2. split; [exact Hrun2|]. intros v.
  cbn [heap set_areaToRecompute]. rewrite (Hon v), (Hon' v).
  change (recomputedEntity w0' v) with (recomputedEntity w0 v).
  change (heap w0' v) with (heap w0 v).
  pose proof (fullRun_elem _ _ _ _ Hdone' v) as Hv'.
  destruct (decide (v ∈ done)) as [Hin|Hout].
  - rewrite decide_True; [reflexivity|].
    apply Hv'. right. by apply Hregistered, Hdone.
  - rewrite decide_False; [reflexivity|]. intros Hin'. apply Hout.
    apply Hdone, Hregistered.
    apply Hv' in Hin' as [Hempty|Hin']; [by apply elem_of_empty in Hempty|done].
Qed.

(** With an area pending, a tick is the recomputation followed by a
    tick: consuming the pending area inside [update] is the same as
    calling [recomputeCache] first, and when that throws nothing is
    transferred. *)
Theorem update_recomputes_first (w : World) :
  is_Some (areaToRecompute w) ->
  update w = (recomputeCache ;; update) w.
Proof.
  intros [area Harea]. unfold bind at 1.
  rewrite update_eq, consumePending_eq, Harea.
  destruct (recomputeCache w) as [[] w1|e w1] eqn:Hrun; [|reflexivity].
  rewrite update_eq, consumePending_eq.
  by rewrite (recomputeCache_returns_clear w w1 Hrun).
Qed.

End Compose.

Section Progress.
Context `{Collaborators}.

(** *** The progress of an item *)

Lemma carries_start s it :
  item s = Some it -> representable (progress s) -> (progress s <= 1)%Q ->
  carries (progress s) it s.
Proof.
  intros Hit Hrep Hle. split_and!; [apply Qle_refl|exact Hle|by left].
Qed.

Lemma carries_frame p it s s' :
  item s' = item s -> progress s' = progress s ->
  carries p it s -> carries p it s'.
Proof. unfold carries. intros -> ->. done. Qed.

(** A visit of the transfer loop carries the item of every slot on. *)
Lemma updateSlot_carries growth v j entity i p it w :
  roundsToFormat -> (0 <= growth)%Q ->
  (exists s, slotOf w entity i = Some s /\ carries p it s) ->
  exists s', slotOf (final (updateSlot growth v j w)) entity i = Some s' /\
             carries p it s'.
Proof.
  intros Hround Hg (s & Hs & Hcarries).
  destruct (decide (v = entity /\ j = i)) as [[-> ->]|Hne].
  2:{ exists s. split; [|exact Hcarries].
      rewrite <- Hs. by apply updateSlot_other. }
  apply (updateSlot_cases
           (fun w' => exists s', slotOf w' entity i = Some s' /\
                                 carries p it s')); [by eauto|].
  intros s0 it0 Hs0 Hit0 s1 w1.
  assert (s0 = s) as -> by congruence.
  destruct Hcarries as (Hle & Hle1 & [[Hit Hrep]|[Hnone _]]); [|congruence].
  assert (it0 = it) as -> by congruence.
  assert (Hs1 : slotOf w1 entity i = Some s1).
  { apply slotOf_putSlot_eq. by rewrite Hs. }
  assert (Hc1 : carries p it s1).
  { subst s1. unfold carries. cbn [progress item set_progress]. split_and!.
    - eapply Qle_trans; [exact Hle|]. by apply Math_min_ge.
    - apply Math_min_le_1.
    - left. split; [exact Hit|]. apply representable_Math_min; [done|].
      by apply representable_Number_round. }
  split_and!; [by eauto|by eauto|].
  intros Hone g. exists (set_item None s1). split.
  - apply slotOf_putSlot_eq. rewrite slotOf_set_game, Hs1. by eexists.
  - destruct Hc1 as (Hp & Hp1 & _). split_and!; [exact Hp|exact Hp1|].
    right. by split.
Qed.

(** So does the whole tick. *)
Lemma update_carries w entity i p it :
  roundsToFormat ->
  (forall g, (0 <= getBeltBaseSpeed g)%Q) ->
  (0 <= itemSpacingOnBelts globalConfig)%Q ->
  (0 <= deltaSeconds w)%Q ->
  (exists s, slotOf w entity i = Some s /\ carries p it s) ->
  exists s', slotOf (final (update w)) entity i = Some s' /\ carries p it s'.
Proof.
  intros Hround Hspeed Hspacing Hdelta (s & Hs & Hcarries).
  rewrite update_eq.
  pose proof (consumePending_cacheStep w) as Hcache.
  assert (Hs1 : exists s1, slotOf (final (consumePending w)) entity i = Some s1
                           /\ carries p it s1).
  { destruct Hcache as (_ & _ & _ & _ & _ & Hslots & _).
    destruct (Hslots _ _ _ Hs) as (s1 & Hs1 & _ & _ & Hi1 & Hpr1).
    exists s1. split; [exact Hs1|]. by eapply carries_frame. }
  destruct (consumePending w) as [[] w1|e w1]; cbn [final] in *;
    [|exact Hs1].
  assert (Hg : (0 <= growthOf w1)%Q).
  { apply growthOf_nonneg; try assumption.
    destruct Hcache as (_ & _ & -> & _). exact Hdelta. }
  rewrite transferItems_eq.
  apply (forEach_invariant
           (fun w' => exists s', slotOf w' entity i = Some s' /\
                                 carries p it s')); [|exact Hs1].
  intros v w2 _ Hw2. unfold bind. rewrite readEjector_eq.
  destruct (ejectorOf w2 v) as [c|]; [|exact Hw2].
  destruct (cachedConnectedSlots c) as [connected|]; [|exact Hw2].
  apply (forEach_invariant
           (fun w' => exists s', slotOf w' entity i = Some s' /\
                                 carries p it s')); [|exact Hw2].
  intros j w3 _ Hw3. by apply updateSlot_carries.
Qed.


(** *** The visit of a slot *)

Lemma sameReceiver_putSlot entity i s w v :
  sameReceiver (heap w v) (heap (putSlot entity i s w) v).
Proof.
  unfold putSlot. destruct (ejectorOf w entity); [|apply sameReceiver_refl].
  apply others_putEjector.
Qed.

Lemma Qltb_true x y : Qltb x y = true <-> (x < y)%Q.
Proof.
  unfold Qltb. rewrite negb_true_iff, <- not_true_iff_false, Qle_bool_iff.
  split; [apply Qnot_le_lt|apply Qlt_not_le].
Qed.

Lemma Qltb_false x y : Qltb x y = false <-> (y <= x)%Q.
Proof. unfold Qltb. by rewrite negb_false_iff, Qle_bool_iff. Qed.

(** What the visit of an occupied slot does when it returns. *)
Lemma updateSlot_visit growth entity i wa wb s it :
  slotOf wa entity i = Some s -> item s = Some it ->
  updateSlot growth entity i wa = Ok tt wb ->
  let p' := Math_min 1 (Number_add (progress s) growth) in
  let kept := set_progress p' s in
  let w1 := putSlot entity i kept wa in
  ((p' < 1)%Q -> wb = w1) /\
  ((1 <= p')%Q ->
   p' = 1%Q /\
   exists t d acc,
     cachedTargetEntity s = Some t /\ cachedDestSlot s = Some d /\
     ItemAcceptor (components (heap wa t)) = Some acc /\
     let r := firstAccepting handoverPriority (components (heap wa t)) it
                (index d) (game wa) in
     (canAcceptItem acc (index d) it (game wa) = false -> wb = w1) /\
     (canAcceptItem acc (index d) it (game wa) = true -> fst r = true ->
      wb = putSlot entity i (set_item None kept)
             (set_game
                (onItemAccepted acc (index d) (acceptedDirection d) it (snd r))
                w1)) /\
     (canAcceptItem acc (index d) it (game wa) = true -> fst r = false ->
      wb = set_game (snd r) w1)).
Proof.
  intros Hs Hit. rewrite updateSlot_eq, Hs, Hit. cbv zeta.
  cbn [progress set_progress].
  set (p' := Math_min 1 (Number_add (progress s) growth)).
  set (kept := set_progress p' s).
  set (w1 := putSlot entity i kept wa).
  destruct (Qltb p' 1) eqn:Hlt.
  { intros [= <-]. split; [done|]. intros Hle.
    apply Qltb_true in Hlt. by apply Qlt_not_le in Hlt. }
  intros Hrun. split.
  { intros Hp. apply Qltb_false in Hlt. by apply Qlt_not_le in Hp. }
  intros _. split; [by apply Math_min_pinned|].
  destruct (cachedTargetEntity s) as [t|]; [|discriminate].
  destruct (ItemAcceptor (components (heap wa t))) as [acc|] eqn:Hacc;
    [|discriminate].
  destruct (cachedDestSlot s) as [d|]; [|discriminate].
  exists t, d, acc. do 3 (split; [done|]). cbv zeta.
  destruct (canAcceptItem acc (index d) it (game wa)); cbn [negb] in Hrun.
  2:{ injection Hrun as <-. split_and!; [done|intros [=]|intros [=]]. }
  rewrite tryPassOverItem_eq in Hrun.
  destruct (_ ≫= _) in Hrun; [discriminate|].
  assert (Hfirst :
    firstAccepting handoverPriority (components (heap w1 t)) it (index d)
      (game w1)
    = firstAccepting handoverPriority (components (heap wa t)) it (index d)
        (game wa)).
  { subst w1. rewrite game_putSlot.
    apply firstAccepting_sameReceiver, sameReceiver_putSlot. }
  rewrite Hfirst in Hrun.
  destruct (fst (firstAccepting _ _ _ _ _)); injection Hrun as <-;
    (split_and!; [intros [=]|first [done|intros _ [=]]..]).
Qed.

Lemma transferEntity_eq growth v w :
  transferEntity growth v w =
  match ejectorOf w v with
  | None => Throw TypeError w
  | Some c =>
      match cachedConnectedSlots c with
      | None => Ok tt w
      | Some connected => forEach connected (updateSlot growth v) w
      end
  end.
Proof.
  unfold transferEntity, bind. rewrite readEjector_eq.
  destruct (ejectorOf w v) as [c|]; [|reflexivity].
  by destruct (cachedConnectedSlots c).
Qed.

Lemma transferItems_forEach growth w :
  transferItems growth w = forEach (allEntities w) (transferEntity growth) w.
Proof. reflexivity. Qed.

Lemma transferEntity_sameCache growth v :
  maintains sameCache (transferEntity growth v).
Proof.
  intros w. rewrite transferEntity_eq.
  destruct (ejectorOf w v) as [c|]; [|apply sameCache_refl].
  destruct (cachedConnectedSlots c) as [connected|]; [|apply sameCache_refl].
  apply (maintains_forEach _ sameCache_refl sameCache_trans).
  intros j. apply updateSlot_sameCache.
Qed.

(** The visit of another entity leaves slot [i] of [entity] as it is. *)
Lemma transferEntity_other growth v entity i :
  v <> entity ->
  maintains (fun w w' => slotOf w' entity i = slotOf w entity i)
    (transferEntity growth v).
Proof.
  intros Hne w. rewrite transferEntity_eq.
  destruct (ejectorOf w v) as [c|]; [|reflexivity].
  destruct (cachedConnectedSlots c) as [connected|]; [|reflexivity].
  apply slotUntouched_forEach. intros j _. apply updateSlot_other. tauto.
Qed.

(** The visits of a tick that returns, around the visit of a slot that is
    listed once in an entity that is registered once. *)
Lemma transferItems_split growth w w' entity i c before after ahead behind :
  allEntities w = before ++ entity :: after ->
  entity ∉ before -> entity ∉ after ->
  ejectorOf w entity = Some c ->
  cachedConnectedSlots c = Some (ahead ++ i :: behind) ->
  i ∉ ahead -> i ∉ behind ->
  transferItems growth w = Ok tt w' ->
  exists wa wb,
    (forEach before (transferEntity growth) ;;
     forEach ahead (updateSlot growth entity)) w = Ok tt wa /\
    updateSlot growth entity i wa = Ok tt wb /\
    (forEach behind (updateSlot growth entity) ;;
     forEach after (transferEntity growth)) wb = Ok tt w' /\
    slotOf wa entity i = slotOf w entity i /\
    slotOf w' entity i = slotOf wb entity i.
Proof.
  intros Hall Hbefore Hafter Hc Hconn Hahead Hbehind.
  rewrite transferItems_forEach, Hall. intros Hrun.
  apply forEach_app_Ok in Hrun as (wx & Hrun1 & Hrun2).
  cbn [forEach] in Hrun2. unfold bind at 1 in Hrun2.
  destruct (transferEntity growth entity wx) as [[] wy|e wy] eqn:Hentity;
    [|discriminate].
  assert (Hsx : slotOf wx entity i = slotOf w entity i).
  { change wx with (final (Ok tt wx)). rewrite <- Hrun1.
    apply slotUntouched_forEach. intros v Hv. apply transferEntity_other.
    by intros ->. }
  assert (Hcx : cachedConnectedSlots <$> ejectorOf wx entity
                = Some (Some (ahead ++ i :: behind))).
  { pose proof (maintains_forEach _ sameCache_refl sameCache_trans before _
                  (transferEntity_sameCache growth) w) as [Hcached _].
    rewrite Hrun1 in Hcached. cbn [final] in Hcached.
    rewrite Hcached, Hc. simpl. by rewrite Hconn. }
  rewrite transferEntity_eq in Hentity.
  destruct (ejectorOf wx entity) as [cx|]; [|discriminate].
  injection Hcx as Hcx. rewrite Hcx in Hentity.
  apply forEach_app_Ok in Hentity as (wa & Hrun3 & Hrun4).
  cbn [forEach] in Hrun4. unfold bind at 1 in Hrun4.
  destruct (updateSlot growth entity i wa) as [[] wb|e wb] eqn:Hvisit;
    [|discriminate].
  exists wa, wb. split_and!.
  - unfold bind. rewrite Hrun1. exact Hrun3.
  - exact Hvisit.
  - unfold bind. rewrite Hrun4. exact Hrun2.
  - rewrite <- Hsx. change wa with (final (Ok tt wa)). rewrite <- Hrun3.
    apply slotUntouched_forEach. intros j Hj. apply updateSlot_other.
    intros [_ ->]. done.
  - transitivity (slotOf wy entity i).
    + change w' with (final (Ok tt w')). rewrite <- Hrun2.
      apply slotUntouched_forEach. intros v Hv. apply transferEntity_other.
      by intros ->.
    + change wy with (final (Ok tt wy)). rewrite <- Hrun4.
      apply slotUntouched_forEach. intros j Hj. apply updateSlot_other.
      intros [_ ->]. done.
Qed.

(** C2: a slot that holds an item, with a progress that is a number of
    the format and at most 1, where the number format rounds as
    [roundsToFormat] says and the speed, the spacing and the time step
    are not negative.  In any tick of [update], whatever the tick visits
    and whether it returns or throws, the progress does not decrease and
    does not pass 1, and the item stays in the slot unless the slot is
    cleared at progress 1.  When the tick returns and the slot is listed
    once in the cache of an entity that is registered once, the tick
    visits the slot once, in the world [wa] the earlier visits have left;
    the visit sets the progress to
    [Math_min(1, progress + progressGrowth)] and, below 1, does nothing
    else; at 1 the cached target has an acceptor, and
    - when the acceptor declines, the item stays at progress 1 and
      nothing else changes;
    - when the acceptor accepts and the dispatcher hands the item over,
      the slot is cleared and the state of the collaborators is the one
      the handover and [onItemAccepted] have produced;
    - when the acceptor accepts and no capability takes the item, the
      item stays at progress 1.
    The later visits of the tick leave the slot as the visit has left
    it.  Over any number of ticks the item is in the slot with a
    progress that has not decreased and is at most 1 (so pinned at 1
    once it has reached 1), or the slot has been cleared at progress
    1. *)
Theorem update_advances_and_keeps_item
    (w : World) (entity : uid) (i : nat) (s : EjectorSlot) (it : BaseItem) :
  roundsToFormat ->
  (forall g, (0 <= getBeltBaseSpeed g)%Q) ->
  (0 <= itemSpacingOnBelts globalConfig)%Q ->
  (0 <= deltaSeconds w)%Q ->
  slotOf w entity i = Some s ->
  item s = Some it ->
  representable (progress s) ->
  (progress s <= 1)%Q ->
  (* this tick *)
  (exists s', slotOf (final (update w)) entity i = Some s' /\
     (progress s <= progress s')%Q /\ (progress s' <= 1)%Q /\
     (item s' = Some it \/ item s' = None /\ progress s' = 1%Q)) /\
  (* the visit of the slot *)
  (forall w1 w' c before after ahead behind,
     consumePending w = Ok tt w1 ->
     allEntities w1 = before ++ entity :: after ->
     entity ∉ before -> entity ∉ after ->
     ejectorOf w1 entity = Some c ->
     cachedConnectedSlots c = Some (ahead ++ i :: behind) ->
     i ∉ ahead -> i ∉ behind ->
     update w = Ok tt w' ->
     let growth := growthOf w1 in
     exists wa wb s1,
       (forEach before (transferEntity growth) ;;
        forEach ahead (updateSlot growth entity)) w1 = Ok tt wa /\
       updateSlot growth entity i wa = Ok tt wb /\
       (forEach behind (updateSlot growth entity) ;;
        forEach after (transferEntity growth)) wb = Ok tt w' /\
       slotOf wa entity i = Some s1 /\
       item s1 = Some it /\ progress s1 = progress s /\
       let p' := Math_min 1 (Number_add (progress s) growth) in
       let kept := set_progress p' s1 in
       let w2 := putSlot entity i kept wa in
       ((p' < 1)%Q -> wb = w2 /\ slotOf w' entity i = Some kept) /\
       ((1 <= p')%Q ->
        p' = 1%Q /\
        exists t d acc,
          cachedTargetEntity s1 = Some t /\ cachedDestSlot s1 = Some d /\
          ItemAcceptor (components (heap wa t)) = Some acc /\
          let r := firstAccepting handoverPriority (components (heap wa t))
                     it (index d) (game wa) in
          (canAcceptItem acc (index d) it (game wa) = false ->
           wb = w2 /\ slotOf w' entity i = Some kept) /\
          (canAcceptItem acc (index d) it (game wa) = true ->
           fst r = true ->
           wb = putSlot entity i (set_item None kept)
                  (set_game
                     (onItemAccepted acc (index d) (acceptedDirection d) it
                        (snd r)) w2) /\
           slotOf w' entity i = Some (set_item None kept)) /\
          (canAcceptItem acc (index d) it (game wa) = true ->
           fst r = false ->
           wb = set_game (snd r) w2 /\ slotOf w' entity i = Some kept))) /\
  (* any number of ticks *)
  (forall w', ticks entity i w w' ->
     exists s', slotOf w' entity i = Some s' /\
       (progress s <= progress s')%Q /\ (progress s' <= 1)%Q /\
       (item s' = Some it \/ item s' = None /\ progress s' = 1%Q)).
Proof.
  intros Hround Hspeed Hspacing Hdelta Hs Hit Hrep Hle.
  assert (Hstart : exists s0, slotOf w entity i = Some s0 /\
                              carries (progress s) it s0).
  { exists s. split; [exact Hs|]. by apply carries_start. }
  assert (Hout : forall w', (exists s', slotOf w' entity i = Some s' /\
                                        carries (progress s) it s') ->
            exists s', slotOf w' entity i = Some s' /\
              (progress s <= progress s')%Q /\ (progress s' <= 1)%Q /\
              (item s' = Some it \/ item s' = None /\ progress s' = 1%Q)).
  { intros w' (s' & Hs' & Hp & Hp1 & Hitem). exists s'.
    split_and!; try done. destruct Hitem as [[? _]|?]; [by left|by right]. }
  split_and!.
  - apply Hout. by apply update_carries.
  - intros w1 w' c before after ahead behind Hconsume Hall Hbefore Hafter
      Hc Hconn Hahead Hbehind Hrun growth.
    rewrite update_eq, Hconsume in Hrun.
    destruct (transferItems_split _ _ _ _ _ _ _ _ _ _ Hall Hbefore Hafter
                Hc Hconn Hahead Hbehind Hrun)
      as (wa & wb & Hrun1 & Hvisit & Hrun2 & Hsa & Hsb).
    pose proof (consumePending_cacheStep w) as Hcache.
    rewrite Hconsume in Hcache. cbn [final] in Hcache.
    destruct Hcache as (_ & _ & _ & _ & _ & Hslots & _).
    destruct (Hslots _ _ _ Hs) as (s1 & Hs1 & _ & _ & Hi1 & Hpr1).
    rewrite Hs1 in Hsa.
    assert (Hit1 : item s1 = Some it) by congruence.
    exists wa, wb, s1.
    split; [exact Hrun1|]. split; [exact Hvisit|]. split; [exact Hrun2|].
    split; [exact Hsa|]. split; [exact Hit1|]. split; [exact Hpr1|].
    rewrite <- Hpr1. rewrite Hsb.
    destruct (updateSlot_visit _ _ _ _ _ _ _ Hsa Hit1 Hvisit)
      as [Hbelow Hreached].
    assert (Hput : forall s2, slotOf (putSlot entity i s2 wa) entity i
                              = Some s2).
    { intros s2. apply slotOf_putSlot_eq. rewrite Hsa. by eexists. }
    cbv zeta. split.
    + intros Hp. rewrite (Hbelow Hp). split; [reflexivity|apply Hput].
    + intros Hp. destruct (Hreached Hp)
        as (Hone & t & d & acc & Ht & Hd & Hacc & Hdecline & Hpass & Hfail).
      split; [exact Hone|]. exists t, d, acc.
      split; [exact Ht|]. split; [exact Hd|]. split; [exact Hacc|].
      split; [|split].
      * intros Hcan. rewrite (Hdecline Hcan). split; [reflexivity|apply Hput].
      * intros Hcan Hfst. rewrite (Hpass Hcan Hfst). split; [reflexivity|].
        apply slotOf_putSlot_eq. rewrite slotOf_set_game, Hput. by eexists.
      * intros Hcan Hfst. rewrite (Hfail Hcan Hfst). split; [reflexivity|].
        rewrite slotOf_set_game. apply Hput.
  - intros w' Hticks. apply Hout.
    induction Hticks as [w|w w1 w2 w3 Hticks IH Hsame Hdelta2 ->];
      [exact Hstart|].
    apply update_carries; try assumption.
    rewrite Hsame. by apply IH.
Qed.

End Progress.

Section Destroyed.
Context `{Collaborators}.

(** *** The tick after an entity has been destroyed *)




End Destroyed.

(** ** The double-precision format rounds as the transfer loop needs *)

Section Binary64Facts.
Import Binary64.
Local Open Scope Q_scope.

Lemma pow2_pos e : 0 < pow2 e.
Proof. by apply Qpower_0_lt. Qed.

Lemma pow2_plus a b : pow2 (a + b) == pow2 a * pow2 b.
Proof. by apply Qpower_plus. Qed.

Lemma pow2_le a b : (a <= b)%Z -> pow2 a <= pow2 b.
Proof. intros Hab. by apply Qpower_le_compat_l. Qed.

Lemma pow2_lt_inv a b : pow2 a < pow2 b -> (a < b)%Z.
Proof. intros Hab. by apply (Qpower_lt_compat_l_inv 2). Qed.

Lemma pow2_Z n : (0 <= n)%Z -> pow2 n == inject_Z (2 ^ n).
Proof. intros Hn. symmetry. by apply (Zpower_Qpower 2). Qed.

(** *** The nearest integer *)

Lemma nearestEven_cases x :
  nearestEven x = Qfloor x \/ nearestEven x = (Qfloor x + 1)%Z.
Proof.
  unfold nearestEven. destruct (_ ?= _); [|by left|by right].
  destruct (Z.even _); [by left|by right].
Qed.

Lemma nearestEven_Z n : nearestEven (inject_Z n) = n.
Proof.
  unfold nearestEven. rewrite Qfloor_Z.
  destruct (Qcompare_spec (inject_Z n - inject_Z n) (1 # 2));
    [|reflexivity|]; exfalso; lra.
Qed.

Lemma nearestEven_mono x y : x <= y -> (nearestEven x <= nearestEven y)%Z.
Proof.
  intros Hxy. pose proof (Qfloor_resp_le x y Hxy) as Hfloor.
  destruct (Z.eq_dec (Qfloor x) (Qfloor y)) as [Heq|Hne].
  - unfold nearestEven. rewrite <- Heq.
    destruct (Qcompare_spec (x - inject_Z (Qfloor x)) (1 # 2)) as [Hx|Hx|Hx];
      destruct (Qcompare_spec (y - inject_Z (Qfloor x)) (1 # 2)) as [Hy|Hy|Hy];
      try (destruct (Z.even (Qfloor x))); try lia; exfalso; lra.
  - destruct (nearestEven_cases x) as [-> | ->],
      (nearestEven_cases y) as [-> | ->]; lia.
Qed.

Lemma nearestEven_proper x y : x == y -> nearestEven x = nearestEven y.
Proof.
  intros Hxy. apply Z.le_antisymm; apply nearestEven_mono; lra.
Qed.

(** *** The binary logarithm *)

Lemma ilog2_spec x :
  0 < x -> pow2 (ilog2 x) <= x /\ x < pow2 (ilog2 x + 1).
Proof.
  intros Hx. destruct x as [n d]. unfold ilog2. cbn [Qnum Qden].
  assert (Hn : (0 < n)%Z).
  { unfold Qlt in Hx. simpl in Hx. lia. }
  set (a := Z.log2 n). set (b := Z.log2 (Zpos d)).
  destruct (Z.log2_spec n Hn) as [Ha1 Ha2]. fold a in Ha1, Ha2.
  destruct (Z.log2_spec (Zpos d) ltac:(lia)) as [Hb1 Hb2]. fold b in Hb1, Hb2.
  assert (Ha : (0 <= a)%Z) by apply Z.log2_nonneg.
  assert (Hb : (0 <= b)%Z) by apply Z.log2_nonneg.
  assert (HN : pow2 a <= inject_Z n /\ inject_Z n < pow2 (a + 1)).
  { rewrite !pow2_Z by lia. rewrite <- Zle_Qle, <- Zlt_Qlt.
    rewrite <- Z.add_1_r in Ha2. done. }
  assert (HD : pow2 b <= inject_Z (Zpos d) /\ inject_Z (Zpos d) < pow2 (b + 1)).
  { rewrite !pow2_Z by lia. rewrite <- Zle_Qle, <- Zlt_Qlt.
    rewrite <- Z.add_1_r in Hb2. done. }
  assert (Hq : n # d == inject_Z n / inject_Z (Zpos d)).
  { apply Qmake_Qdiv. }
  assert (Hd : 0 < inject_Z (Zpos d)).
  { change 0 with (inject_Z 0). rewrite <- Zlt_Qlt. lia. }
  set (D := inject_Z (Zpos d)) in *. set (N := inject_Z n) in *.
  assert (HxD : (n # d) * D == N).
  { rewrite Hq. field. lra. }
  set (x := n # d) in *.
  assert (Hup : x < pow2 (a - b + 1)).
  { assert (Heq : pow2 (a + 1) == pow2 (a - b + 1) * pow2 b).
    { rewrite <- pow2_plus. by replace (a - b + 1 + b)%Z with (a + 1)%Z by lia. }
    pose proof (pow2_pos (a - b + 1)). pose proof (pow2_pos b). nra. }
  assert (Hlow : pow2 (a - b - 1) <= x).
  { assert (Heq : pow2 a == pow2 (a - b - 1) * pow2 (b + 1)).
    { rewrite <- pow2_plus. by replace (a - b - 1 + (b + 1))%Z with a by lia. }
    pose proof (pow2_pos (a - b - 1)). pose proof (pow2_pos (b + 1)). nra. }
  destruct (Qle_bool (pow2 (a - b)) x) eqn:Hle.
  - apply Qle_bool_iff in Hle. by split.
  - split; [exact Hlow|].
    replace (a - b - 1 + 1)%Z with (a - b)%Z by lia.
    apply Qnot_le_lt. intros Hge. apply Qle_bool_iff in Hge. congruence.
Qed.

Lemma ilog2_unique x l :
  pow2 l <= x -> x < pow2 (l + 1) -> ilog2 x = l.
Proof.
  intros Hlow Hup.
  assert (Hx : 0 < x) by (pose proof (pow2_pos l); lra).
  destruct (ilog2_spec x Hx) as [Hlow' Hup'].
  assert (l < ilog2 x + 1)%Z by (apply pow2_lt_inv; lra).
  assert (ilog2 x < l + 1)%Z by (apply pow2_lt_inv; lra).
  lia.
Qed.

Lemma ilog2_mono x y : 0 < x -> x <= y -> (ilog2 x <= ilog2 y)%Z.
Proof.
  intros Hx Hxy.
  destruct (ilog2_spec x Hx) as [Hlow _].
  destruct (ilog2_spec y ltac:(lra)) as [_ Hup].
  assert (ilog2 x < ilog2 y + 1)%Z by (apply pow2_lt_inv; lra).
  lia.
Qed.

(** *** Rounding a positive number *)

Lemma ulpExponent_mono x y :
  0 < x -> x <= y -> (ulpExponent x <= ulpExponent y)%Z.
Proof.
  intros Hx Hxy. unfold ulpExponent.
  pose proof (ilog2_mono x y Hx Hxy). lia.
Qed.

Lemma scaled_pow2 a e : pow2 a * pow2 (- e) == pow2 (a - e).
Proof. by rewrite <- pow2_plus. Qed.

(** The significand has at most 53 bits, the rounding to the next power
    of two included. *)
Lemma significand_bounds x :
  0 < x -> (0 <= nearestEven (x * pow2 (- ulpExponent x)) <= 2 ^ 53)%Z.
Proof.
  intros Hx. set (e := ulpExponent x).
  pose proof (pow2_pos (- e)) as He.
  destruct (ilog2_spec x Hx) as [_ Hup].
  split.
  - rewrite <- (nearestEven_Z 0). apply nearestEven_mono.
    change (inject_Z 0) with 0. nra.
  - rewrite <- (nearestEven_Z (2 ^ 53)%Z). apply nearestEven_mono.
    rewrite <- pow2_Z by lia.
    apply Qle_trans with (pow2 (ilog2 x + 1 - e)).
    + rewrite <- scaled_pow2. nra.
    + apply pow2_le. subst e. unfold ulpExponent. lia.
Qed.

(** A normal number has a significand of 53 bits. *)
Lemma significand_normal x :
  0 < x -> ulpExponent x = (ilog2 x - 52)%Z ->
  (2 ^ 52 <= nearestEven (x * pow2 (- ulpExponent x)))%Z.
Proof.
  intros Hx He. rewrite <- (nearestEven_Z (2 ^ 52)%Z) at 1.
  apply nearestEven_mono. rewrite <- pow2_Z by lia.
  destruct (ilog2_spec x Hx) as [Hlow _].
  pose proof (pow2_pos (- ulpExponent x)).
  apply Qle_trans with (pow2 (ilog2 x - ulpExponent x)).
  - apply pow2_le. lia.
  - rewrite <- scaled_pow2. nra.
Qed.

Lemma roundMagnitude_nonneg x : 0 < x -> 0 <= roundMagnitude x.
Proof.
  intros Hx. unfold roundMagnitude. cbv zeta.
  destruct (significand_bounds x Hx) as [Hm _].
  rewrite Zle_Qle in Hm. change (inject_Z 0) with 0 in Hm.
  pose proof (pow2_pos (ulpExponent x)). nra.
Qed.

Lemma roundMagnitude_mono x y :
  0 < x -> x <= y -> roundMagnitude x <= roundMagnitude y.
Proof.
  intros Hx Hxy. assert (Hy : 0 < y) by lra.
  pose proof (ulpExponent_mono x y Hx Hxy) as He.
  unfold roundMagnitude. cbv zeta.
  destruct (Z.eq_dec (ulpExponent x) (ulpExponent y)) as [Heq|Hne].
  - rewrite Heq. set (e := ulpExponent y).
    pose proof (pow2_pos e). pose proof (pow2_pos (- e)).
    assert (Hm : (nearestEven (x * pow2 (- e))
                  <= nearestEven (y * pow2 (- e)))%Z).
    { apply nearestEven_mono. nra. }
    rewrite Zle_Qle in Hm. nra.
  - (* the number above lies in a higher binade *)
    assert (Hnormal : ulpExponent y = (ilog2 y - 52)%Z).
    { unfold ulpExponent in *. lia. }
    destruct (significand_bounds x Hx) as [_ Hmx].
    pose proof (significand_normal y Hy Hnormal) as Hmy.
    rewrite Zle_Qle in Hmx, Hmy.
    rewrite <- pow2_Z in Hmx, Hmy by lia.
    set (ex := ulpExponent x) in *. set (ey := ulpExponent y) in *.
    set (mx := inject_Z (nearestEven (x * pow2 (- ex)))) in *.
    set (my := inject_Z (nearestEven (y * pow2 (- ey)))) in *.
    pose proof (pow2_pos ex). pose proof (pow2_pos ey).
    apply Qle_trans with (pow2 53 * pow2 ex); [nra|].
    apply Qle_trans with (pow2 52 * pow2 ey); [|nra].
    rewrite <- !pow2_plus. apply pow2_le. lia.
Qed.

Lemma roundMagnitude_proper x y :
  0 < x -> x == y -> roundMagnitude x == roundMagnitude y.
Proof.
  intros Hx Hxy.
  apply Qle_antisym; apply roundMagnitude_mono; lra.
Qed.

(** A number with a significand of at most 53 bits and an exponent of
    the format is left as it is. *)
Lemma roundMagnitude_fixed x m e :
  (0 < m <= 2 ^ 53)%Z -> (-1074 <= e)%Z ->
  x == inject_Z m * pow2 e -> roundMagnitude x == x.
Proof.
  intros [Hm0 Hm] He Hx.
  pose proof (pow2_pos e) as Hpe.
  assert (Hm0' : 0 < inject_Z m).
  { change 0 with (inject_Z 0). by rewrite <- Zlt_Qlt. }
  assert (Hpos : 0 < x) by nra.
  destruct (ilog2_spec x Hpos) as [Hlow Hup].
  unfold roundMagnitude. cbv zeta.
  destruct (Z.eq_dec m (2 ^ 53)%Z) as [->|Hne].
  - (* the significand is the power of two above *)
    rewrite <- pow2_Z, <- pow2_plus in Hx by lia.
    assert (Hl : ilog2 x = (53 + e)%Z).
    { apply ilog2_unique; [lra|]. rewrite Hx.
      apply Qpower_lt_compat_l; [lia|done]. }
    assert (He' : ulpExponent x = (e + 1)%Z).
    { unfold ulpExponent. lia. }
    rewrite He'.
    assert (Hscaled : x * pow2 (- (e + 1)) == inject_Z (2 ^ 52)).
    { rewrite Hx, scaled_pow2, <- pow2_Z by lia.
      by replace (53 + e - (e + 1))%Z with 52%Z by lia. }
    rewrite (nearestEven_proper _ _ Hscaled), nearestEven_Z.
    rewrite <- pow2_Z, <- pow2_plus, Hx by lia.
    by replace (52 + (e + 1))%Z with (53 + e)%Z by lia.
  - assert (Hlt : x < pow2 (53 + e)).
    { pose proof (pow2_plus 53 e) as Hsum.
      pose proof (pow2_Z 53 ltac:(lia)) as H53.
      assert (inject_Z m < inject_Z (2 ^ 53)) by (rewrite <- Zlt_Qlt; lia).
      nra. }
    assert (Hl : (ilog2 x < 53 + e)%Z) by (apply pow2_lt_inv; lra).
    set (e' := ulpExponent x).
    assert (He' : (-1074 <= e' <= e)%Z).
    { subst e'. unfold ulpExponent. lia. }
    assert (Hscaled : x * pow2 (- e') == inject_Z (m * 2 ^ (e - e'))).
    { rewrite inject_Z_mult, <- pow2_Z by lia.
      rewrite Hx, <- Qmult_assoc, scaled_pow2. reflexivity. }
    rewrite (nearestEven_proper _ _ Hscaled), nearestEven_Z.
    rewrite inject_Z_mult, <- pow2_Z by lia.
    rewrite <- Qmult_assoc, <- pow2_plus, Hx.
    by replace (e - e' + e')%Z with e by lia.
Qed.

(** *** The rounding of the format *)

Lemma round_eq x :
  round x ==
  match Qnum x with
  | Z0 => 0
  | Zpos _ => roundMagnitude x
  | Zneg _ => - roundMagnitude (- x)
  end.
Proof. apply Qred_correct. Qed.

Lemma Qnum_sign x :
  match Qnum x with
  | Z0 => x == 0
  | Zpos _ => 0 < x
  | Zneg _ => 0 < - x
  end.
Proof. destruct x as [[|n|n] d]; unfold Qeq, Qlt; simpl; lia. Qed.

Lemma round_mono x y : x <= y -> round x <= round y.
Proof.
  intros Hxy. rewrite !round_eq.
  pose proof (Qnum_sign x) as Hx. pose proof (Qnum_sign y) as Hy.
  destruct (Qnum x), (Qnum y); try lra.
  - pose proof (roundMagnitude_nonneg y Hy). lra.
  - by apply roundMagnitude_mono.
  - pose proof (roundMagnitude_nonneg (- x) Hx). lra.
  - pose proof (roundMagnitude_nonneg (- x) Hx).
    pose proof (roundMagnitude_nonneg y Hy). lra.
  - assert (roundMagnitude (- y) <= roundMagnitude (- x)).
    { apply roundMagnitude_mono; lra. }
    lra.
Qed.

Lemma round_proper x y : x == y -> round x == round y.
Proof. intros Hxy. apply Qle_antisym; apply round_mono; lra. Qed.

Lemma roundMagnitude_idempotent x :
  0 < x ->
  roundMagnitude x == 0 \/
  0 < roundMagnitude x /\
  roundMagnitude (roundMagnitude x) == roundMagnitude x.
Proof.
  intros Hx. destruct (significand_bounds x Hx) as [Hm0 Hm].
  destruct (Z.eq_dec (nearestEven (x * pow2 (- ulpExponent x))) 0%Z)
    as [H0|Hne].
  - left. unfold roundMagnitude. cbv zeta. rewrite H0.
    change (inject_Z 0) with 0. lra.
  - right. assert (Hfixed :
      roundMagnitude (roundMagnitude x) == roundMagnitude x).
    { apply (roundMagnitude_fixed _
               (nearestEven (x * pow2 (- ulpExponent x))) (ulpExponent x));
        [lia|unfold ulpExponent; lia|reflexivity]. }
    split; [|exact Hfixed].
    unfold roundMagnitude. cbv zeta.
    assert (0 < inject_Z (nearestEven (x * pow2 (- ulpExponent x)))).
    { change 0 with (inject_Z 0). rewrite <- Zlt_Qlt. lia. }
    pose proof (pow2_pos (ulpExponent x)). nra.
Qed.

Lemma round_idempotent x : round (round x) == round x.
Proof.
  assert (Hpos : forall y, 0 < y ->
            round (roundMagnitude y) == roundMagnitude y).
  { intros y Hy.
    destruct (roundMagnitude_idempotent y Hy) as [H0|[Hr Hfixed]].
    - rewrite (round_proper _ 0 H0), H0. reflexivity.
    - rewrite round_eq. pose proof (Qnum_sign (roundMagnitude y)) as Hs.
      destruct (Qnum (roundMagnitude y)); [lra|exact Hfixed|lra]. }
  assert (Hneg : forall y, 0 < y ->
            round (- roundMagnitude y) == - roundMagnitude y).
  { intros y Hy.
    destruct (roundMagnitude_idempotent y Hy) as [H0|[Hr Hfixed]].
    - assert (H0' : - roundMagnitude y == 0) by lra.
      rewrite (round_proper _ 0 H0'), H0'. reflexivity.
    - rewrite round_eq. pose proof (Qnum_sign (- roundMagnitude y)) as Hs.
      destruct (Qnum (- roundMagnitude y)); [lra|lra|].
      assert (Hopp : - - roundMagnitude y == roundMagnitude y) by lra.
      rewrite (roundMagnitude_proper _ _ Hs Hopp), Hfixed. reflexivity. }
  pose proof (round_eq x) as Hr. pose proof (Qnum_sign x) as Hx.
  apply Qeq_trans with (round match Qnum x with
                              | Z0 => 0
                              | Zpos _ => roundMagnitude x
                              | Zneg _ => - roundMagnitude (- x)
                              end); [by apply round_proper|].
  rewrite Hr.
  destruct (Qnum x); [reflexivity|by apply Hpos|by apply Hneg].
Qed.

Lemma Binary64_roundsToFormat : @roundsToFormat Doubles.collaborators.
Proof.
  split_and!.
  - apply round_mono.
  - reflexivity.
  - reflexivity.
  - apply round_idempotent.
Qed.

End Binary64Facts.


(** ** The theorems on the concrete game *)

Section Witnesses.
#[local] Existing Instance Demo.collaborators.

(** A signal that arrives while the game is loading is ignored. *)
Lemma checkForCacheInvalidation_ignored_witness :
  checkForCacheInvalidation 1%nat (Demo.worldAB false 0)
  = Ok tt (Demo.worldAB false 0) /\
  areaToRecompute
    (final (checkForCacheInvalidation 1%nat (Demo.worldAB false 0)))
  = areaToRecompute (Demo.worldAB false 0).
Proof.
  apply (checkForCacheInvalidation_ignored (Demo.worldAB false 0) 1%nat).
  left. reflexivity.
Defined.

(** C7 fails as stated: entity 1 carries placement geometry, the game is
    not initialized, and after the signal nothing is pending. *)
Lemma notify_before_initialization_counterexample :
  is_Some (StaticMapEntity (components (heap (Demo.worldAB false 0) 1%nat))) /\
  areaToRecompute (final (notifyAll [1%nat] (Demo.worldAB false 0))) = None.
Proof. split; [by eexists|reflexivity]. Qed.

Lemma notifyAll_covers_witness :
  exists w',
    notifyAll [1%nat; 2%nat] (Demo.worldAB true 0) = Ok tt w' /\
    areaToRecompute w' = Some (Rectangle.mk (-2) (-2) 6 5).
Proof.
  destruct (notifyAll_covers (Demo.worldAB true 0) [1%nat; 2%nat] eq_refl)
    as (_ & w' & Hrun & _ & _).
  exists w'. split; [exact Hrun|].
  vm_compute in Hrun. injection Hrun as <-. reflexivity.
Defined.

Lemma tryPassOverItem_belt_without_path_witness :
  @tryPassOverItem Demo.collaborators 7%nat 3%nat 0%nat Demo.worldBelts
  = Throw (AssertionError "belt has no path") Demo.worldBelts.
Proof.
  apply (@tryPassOverItem_belt_without_path Demo.collaborators
           7%nat 3%nat 0%nat Demo.worldBelts None); reflexivity.
Defined.

(** The belt of entity 4 is full, its storage takes the item. *)
Lemma tryPassOverItem_priority_witness :
  exists w',
    @tryPassOverItem Demo.collaborators 7%nat 4%nat 0%nat Demo.worldBelts
    = Ok true w' /\
             Demo.stored (game w') = [7%nat].
Proof.
  eexists. split.
  - apply (@tryPassOverItem_priority Demo.collaborators
             7%nat 4%nat 0%nat Demo.worldBelts).
    intros beltComp. vm_compute. intros [= <-]. by eexists.
  - reflexivity.
Defined.



(** The hypothesis that the game is initialized is needed.  In a game
    that is loading the signal is dropped; were a cache there, the
    reference to the destroyed entity would stay, and the transfer loop,
    which does not look at [destroyed], would hand the item over to the
    destroyed storage. *)
Example update_stale_reference_while_loading :
  gameInitialized (Demo.staleAB 1) = false /\
  destroyed (heap (Demo.staleAB 1) 2%nat) = true /\
  (cachedTargetEntity <$> slotOf (Demo.staleAB 1) 1%nat 0%nat)
  = Some (Some 2%nat) /\
  (item <$> slotOf (final (update (Demo.staleAB 1))) 1%nat 0%nat)
  = Some None /\
  Demo.stored (game (final (update (Demo.staleAB 1)))) = [7%nat].
Proof. by vm_compute. Qed.

(** The slot of the ejector on (0,0) finds the storage on (1,0). *)
Lemma recomputeSingleEntityCache_connects_witness :
  exists w',
    recomputeSingleEntityCache 1%nat (Demo.worldAB true 0) = Ok tt w' /\
    ejectorOf w' 1%nat
    = Some {| slots := [Demo.connectedSlotA 0];
              cachedConnectedSlots := Some [0%nat] |}.
Proof.
  destruct (@recomputeSingleEntityCache_connects Demo.collaborators
              (Demo.worldAB true 0) 1%nat
              {| slots := [Demo.slotA 0]; cachedConnectedSlots := None |}
              {| Demo.origin := Vector.mk 0 0; Demo.size := Vector.mk 1 1 |}
              eq_refl eq_refl)
    as (w' & Hrun & Hupd).
  - intros s t Hs. apply list_elem_of_singleton in Hs as ->.
    vm_compute. intros [= <-] _. by eexists.
  - exists w'. split; [exact Hrun|].
    destruct Hupd as (_ & _ & _ & _ & _ & _ & Hheap & _).
    unfold ejectorOf. rewrite Hheap. reflexivity.
Defined.

(** C6 fails as stated: the ejector alone on the map has no connection;
    before the recomputation its cache is in the cleared state, and the
    recomputation leaves the very same component: "computed, no
    connection" and "not computed" are one state. *)
Lemma computed_empty_is_uncomputed_counterexample :
  recomputeSingleEntityCache 1%nat Demo.worldA
  = Ok tt (final (recomputeSingleEntityCache 1%nat Demo.worldA)) /\
  ejectorOf (final (recomputeSingleEntityCache 1%nat Demo.worldA)) 1%nat
  = ejectorOf Demo.worldA 1%nat /\
  (cachedConnectedSlots <$> ejectorOf Demo.worldA 1%nat) = Some None.
Proof. by vm_compute. Qed.

Lemma recomputeSingleEntityCache_null_or_connected_witness :
  exists c',
    ejectorOf (final (recomputeSingleEntityCache 1%nat (Demo.worldAB true 0)))
      1%nat = Some c' /\
    cachedConnectedSlots c' <> Some [] /\
    (cachedConnectedSlots c' = None <->
     forall s', s' ∈ slots c' -> cachedTargetEntity s' = None).
Proof.
  apply (@recomputeSingleEntityCache_null_or_connected Demo.collaborators
           (Demo.worldAB true 0)
           (final (recomputeSingleEntityCache 1%nat (Demo.worldAB true 0)))
           1%nat).
  by vm_compute.
Defined.

Lemma recomputeAreaCache_idempotent_witness :
  exists w2,
    recomputeAreaCache (Rectangle.mk (-2) (-2) 6 5)
      (final (recomputeAreaCache (Rectangle.mk (-2) (-2) 6 5)
                (Demo.worldAB true 0)))
    = Ok 0 w2 /\
    forall v, heap w2 v
              = heap (final (recomputeAreaCache (Rectangle.mk (-2) (-2) 6 5)
                               (Demo.worldAB true 0))) v.
Proof.
  destruct (@recomputeAreaCache_idempotent Demo.collaborators
              (Rectangle.mk (-2) (-2) 6 5) (Demo.worldAB true 0)
              (final (recomputeAreaCache (Rectangle.mk (-2) (-2) 6 5)
                        (Demo.worldAB true 0))) 0)
    as (w2 & Hrun & Hheap & _).
  - by vm_compute.
  - exists w2. by split.
Defined.

(** Scenario 1 of the spec, run: the two signals leave one pending
    rectangle; the first tick consumes it and connects the slot; with a
    growth of one quarter per tick the item is handed over in the fourth
    tick, the accept hook having run once. *)
Example scenario_pending_area :
  areaToRecompute Demo.afterAB = Some (Rectangle.mk (-2) (-2) 6 5).
Proof. reflexivity. Qed.

Example scenario_connected :
  (cacheOf <$> slotOf (final (update Demo.afterAB)) 1%nat 0%nat)
  = Some (Some {| index := 0%nat; acceptedDirection := enumDirection.left |},
          Some 2%nat) /\
  areaToRecompute (final (update Demo.afterAB)) = None.
Proof. by vm_compute. Qed.

Example scenario_third_tick :
  let w3 := final (update (final (update (final (update Demo.afterAB))))) in
  (item <$> slotOf w3 1%nat 0%nat) = Some (Some 7%nat) /\
  Demo.stored (game w3) = [].
Proof. by vm_compute. Qed.

Example scenario_fourth_tick :
  let w4 := final (update (final (update (final (update
              (final (update Demo.afterAB))))))) in
  (item <$> slotOf w4 1%nat 0%nat) = Some None /\
  (progress <$> slotOf w4 1%nat 0%nat) = Some 1%Q /\
  Demo.stored (game w4) = [7%nat] /\
  Demo.accepted (game w4) = [0%nat].
Proof. by vm_compute. Qed.

(** The ejector, then the storage, are placed on the empty map. *)
Lemma demo_edits : rtc edit Demo.emptyWorld Demo.afterAB.
Proof.
  eapply rtc_l.
  { apply (entity_added Demo.emptyWorld 1%nat (Demo.entityA 0) Demo.placementA).
    - reflexivity.
    - reflexivity.
    - reflexivity.
    - reflexivity.
    - intros x y. discriminate.
    - apply not_elem_of_nil.
    - intros c s [= <-] Hs. apply list_elem_of_singleton in Hs as ->.
      unfold Rectangle.containsTile. vm_compute. repeat split; discriminate. }
  eapply rtc_l; [|apply rtc_refl].
  apply (entity_added Demo.afterA 2%nat Demo.entityB Demo.placementB).
  - reflexivity.
  - reflexivity.
  - reflexivity.
  - intros x y [Hx Hy]. change (Rectangle.x _) with 1 in Hx.
    change (Rectangle.right _) with 2 in Hx.
    change (tiles Demo.afterA x y)
      with (if decide (Rectangle.containsTile (Rectangle.mk 0 0 1 1) x y)
            then Some 1%nat else None).
    rewrite decide_False; [done|].
    unfold Rectangle.containsTile, Rectangle.right. simpl. lia.
  - intros x y.
    change (tiles Demo.afterA x y)
      with (if decide (Rectangle.containsTile (Rectangle.mk 0 0 1 1) x y)
            then Some 1%nat else None).
    by destruct (decide _).
  - change (allEntities Demo.afterA) with [1%nat].
    rewrite list_elem_of_singleton. discriminate.
  - intros c s [=].
Defined.

(** After the two edits the recomputation of the pending area and the
    full recomputation leave the same cache. *)
Lemma incremental_recompute_is_full_witness :
  exists wInc wFull,
    recomputeCache Demo.afterAB = Ok tt wInc /\
    recomputeCache (set_areaToRecompute None Demo.afterAB) = Ok tt wFull /\
    (forall v, heap wInc v = heap wFull v) /\
    areaToRecompute wInc = None /\
    (is_Some (areaToRecompute Demo.afterAB) ->
     sameCache wFull (final (update Demo.afterAB))).
Proof.
  apply (@incremental_recompute_is_full Demo.collaborators
           Demo.emptyWorld Demo.afterAB).
  - split.
    + intros v Hv. by apply elem_of_nil in Hv.
    + intros x y v. discriminate.
  - intros v Hv. by apply elem_of_nil in Hv.
  - reflexivity.
  - exact demo_edits.
Defined.

End Witnesses.

(** ** Further theorems on the concrete games *)

Section MoreWitnesses.
#[local] Existing Instance Demo.collaborators.

(** The storage, the ejector and the ejector once more are signalled:
    the same area is pending as after one signal for each. *)
Lemma notifyAll_same_entities_witness :
  notifyAll [2%nat; 1%nat; 1%nat] (Demo.worldAB true 0)
  = notifyAll [1%nat; 2%nat] (Demo.worldAB true 0).
Proof.
  apply (notifyAll_same_entities (Demo.worldAB true 0)
           [1%nat; 2%nat] [2%nat; 1%nat; 1%nat]).
  intros entity. rewrite !elem_of_cons, elem_of_nil. tauto.
Defined.

(** A rectangle around the expanded bounds of the two entities encloses
    the area that is pending after their signals. *)
Lemma notifyAll_least_witness :
  encloses (Rectangle.mk (-10) (-10) 30 30) (Rectangle.mk (-2) (-2) 6 5).
Proof.
  apply (proj1 (notifyAll_least (Demo.worldAB true 0)
                  (final (notifyAll [1%nat; 2%nat] (Demo.worldAB true 0)))
                  [1%nat; 2%nat] eq_refl eq_refl)
           (Rectangle.mk (-10) (-10) 30 30) (Rectangle.mk (-2) (-2) 6 5)).
  - intros area [=].
  - intros entity staticComp Hin.
    rewrite !elem_of_cons, elem_of_nil in Hin.
    destruct Hin as [->|[->|[]]]; intros [= <-];
      unfold encloses; vm_compute; repeat split; discriminate.
  - reflexivity.
Defined.

Lemma recomputeAreaCache_empty_area_witness :
  recomputeAreaCache (Rectangle.mk 3 3 0 4) (Demo.worldAB true 0)
  = Ok 0 (Demo.worldAB true 0).
Proof.
  apply (recomputeAreaCache_empty_area (Rectangle.mk 3 3 0 4)
           (Demo.worldAB true 0)).
  left. simpl. lia.
Defined.

(** The ejector alone on the map has no connection: its item stays at
    progress 0. *)
Lemma update_unconnected_slot_witness :
  (progress <$> slotOf (final (update Demo.worldA)) 1%nat 0%nat) = Some 0%Q /\
  (item <$> slotOf (final (update Demo.worldA)) 1%nat 0%nat) = Some (Some 7%nat).
Proof.
  destruct (update_unconnected_slot Demo.worldA 1%nat 0%nat)
    as (_ & Hitem & Hprogress).
  - right. intros c connected [= <-]. discriminate.
  - split; [exact Hprogress|exact Hitem].
Defined.

(** The slot of the ejector is listed, its target is a belt on a path
    with a storage: the tick returns; the path is full and the storage
    has taken the item. *)
Lemma update_does_not_throw_witness :
  exists w',
    update Conveyor.world = Ok tt w' /\
    areaToRecompute w' = None /\ cacheSound w' /\ pathsAssigned w'.
Proof.
  apply (update_does_not_throw Conveyor.world).
  - intros v Hv. apply list_elem_of_singleton in Hv as ->.
    exists {| slots := [Demo.connectedSlotA (3 # 4)];
              cachedConnectedSlots := Some [0%nat] |}.
    split; [reflexivity|]. intros connected j [= <-] Hj.
    apply list_elem_of_singleton in Hj as ->.
    exists (Demo.connectedSlotA (3 # 4)), 2%nat,
      {| index := 0%nat; acceptedDirection := enumDirection.left |}.
    split_and!; try reflexivity. by eexists.
  - intros v beltComp g. destruct v as [|[|[|v]]]; try discriminate.
    intros [= <-]. by eexists.
  - intros [area [=]].
Defined.

Example update_conveyor :
  Demo.stored (game (final (update Conveyor.world))) = [7%nat] /\
  (item <$> slotOf (final (update Conveyor.world)) 1%nat 0%nat) = Some None.
Proof. by vm_compute. Qed.

(** The cache the recomputation leaves for the ejector next to the
    storage. *)
Lemma recomputeSingleEntityCache_cache_wellformed_witness :
  exists c',
    ejectorOf (final (recomputeSingleEntityCache 1%nat (Demo.worldAB true 0)))
      1%nat = Some c' /\
    length (slots c') = 1%nat /\
    StronglySorted lt (default [] (cachedConnectedSlots c')).
Proof.
  destruct (recomputeSingleEntityCache_cache_wellformed (Demo.worldAB true 0)
              (final (recomputeSingleEntityCache 1%nat (Demo.worldAB true 0)))
              1%nat)
    as (c & c' & Hc & Hc' & Hlen & Hsorted & _).
  - by vm_compute.
  - exists c'. injection Hc as <-. by split_and!.
Defined.

Lemma recomputeAreaCache_recomputes_each_witness :
  exists w1,
    recomputeSingleEntityCache 1%nat (Demo.worldAB true 0) = Ok tt w1 /\
    heap (final (recomputeAreaCache (Rectangle.mk (-2) (-2) 6 5)
                   (Demo.worldAB true 0))) 1%nat
    = heap w1 1%nat.
Proof.
  apply (proj1 (proj2 (recomputeAreaCache_recomputes_each
                         (Rectangle.mk (-2) (-2) 6 5) (Demo.worldAB true 0)
                         (final (recomputeAreaCache (Rectangle.mk (-2) (-2) 6 5)
                                   (Demo.worldAB true 0))) 0
                         ltac:(by vm_compute)))
           1%nat 0 0).
  - unfold Rectangle.containsTile, Rectangle.right, Rectangle.bottom.
    simpl. lia.
  - reflexivity.
  - by eexists.
Defined.

(** The ejector registered twice. *)
Lemma recomputeCache_full_order_witness :
  exists w2,
    recomputeCache (set_allEntities [1%nat; 1%nat] (Demo.worldAB true 0))
    = Ok tt w2 /\
    forall v, heap w2 v = heap (final (recomputeCache (Demo.worldAB true 0))) v.
Proof.
  apply (recomputeCache_full_order (Demo.worldAB true 0)
           (final (recomputeCache (Demo.worldAB true 0))) [1%nat; 1%nat]).
  - reflexivity.
  - intros v. change (allEntities (Demo.worldAB true 0)) with [1%nat].
    rewrite !elem_of_cons, elem_of_nil. tauto.
  - by vm_compute.
Defined.

Lemma recomputeCache_sound_witness :
  cacheSound (final (recomputeCache (Demo.worldAB true 0))).
Proof.
  apply (recomputeCache_sound (Demo.worldAB true 0)).
  - intros [area [=]].
  - by vm_compute.
Defined.

(** The storage is signalled: the ejector on the tile next to it is
    recomputed. *)
Lemma signal_recomputes_neighbourhood_witness :
  exists w1,
    recomputeSingleEntityCache 1%nat (Demo.worldAB true 0) = Ok tt w1 /\
    heap (final ((checkForCacheInvalidation 2%nat ;; recomputeCache)
                   (Demo.worldAB true 0))) 1%nat
    = heap w1 1%nat.
Proof.
  apply (proj1 (signal_recomputes_neighbourhood (Demo.worldAB true 0)
                  (final ((checkForCacheInvalidation 2%nat ;; recomputeCache)
                            (Demo.worldAB true 0)))
                  2%nat Demo.placementB eq_refl eq_refl eq_refl
                  ltac:(by vm_compute))
           1%nat 0 0).
  - unfold Rectangle.right, Rectangle.bottom. simpl. lia.
  - reflexivity.
  - by eexists.
Defined.

Lemma update_recomputes_first_witness :
  update Demo.afterAB = (recomputeCache ;; update) Demo.afterAB.
Proof.
  apply (update_recomputes_first Demo.afterAB). by eexists.
Defined.

(** The ejector is the one entity with an ejector component in the area
    that is pending after it and the storage have been placed. *)
Lemma recomputeCache_area_is_full_witness :
  exists w2,
    recomputeCache (set_areaToRecompute None Demo.afterAB) = Ok tt w2 /\
    forall v, heap w2 v = heap (final (recomputeCache Demo.afterAB)) v.
Proof.
  apply (recomputeCache_area_is_full Demo.afterAB
           (final (recomputeCache Demo.afterAB)) (Rectangle.mk (-2) (-2) 6 5)).
  - reflexivity.
  - intros v. change (allEntities Demo.afterAB) with [1%nat].
    rewrite list_elem_of_singleton. split.
    + intros ->. exists 0, 0. split_and!; [|reflexivity|by eexists].
      unfold Rectangle.containsTile, Rectangle.right, Rectangle.bottom.
      simpl. lia.
    + intros (x & y & _ & Htile & Hej).
      change (tiles Demo.afterAB x y)
        with (if decide (Rectangle.containsTile (Rectangle.mk 1 0 1 1) x y)
              then Some 2%nat
              else if decide (Rectangle.containsTile (Rectangle.mk 0 0 1 1) x y)
                   then Some 1%nat else None) in Htile.
      repeat destruct (decide _); simplify_eq; [|done].
      by destruct Hej.
  - by vm_compute.
Defined.

End MoreWitnesses.

Section CanvasWitnesses.
#[local] Existing Instance Canvas.collaborators.
#[local] Existing Instance Canvas.drawing.

(** The empty slot of the building stays empty. *)
Lemma update_empty_slot_witness :
  exists s',
    slotOf (final (update Canvas.world)) 1%nat 1%nat = Some s' /\
    item s' = None /\ progress s' = (1 # 4)%Q /\
    pos s' = Vector.mk 0 0 /\ direction s' = enumDirection.top.
Proof.
  apply (update_empty_slot Canvas.world 1%nat 1%nat Canvas.emptySlot);
    reflexivity.
Defined.



End CanvasWitnesses.

Section CanvasExamples.
#[local] Existing Instance Canvas.collaborators.

(** Entity 3 has an ejector component and no [StaticMapEntity]
    component: the recomputation throws, and the cache it had is gone. *)
Example recomputeSingleEntityCache_unplaced :
  (cachedConnectedSlots <$> ejectorOf Canvas.world 3%nat) = Some (Some [0%nat]) /\
  (exists w', recomputeSingleEntityCache 3%nat Canvas.world
              = Throw TypeError w') /\
  (cachedConnectedSlots
     <$> ejectorOf (final (recomputeSingleEntityCache 3%nat Canvas.world))
           3%nat) = Some None.
Proof. split_and!; [reflexivity|by eexists|reflexivity]. Qed.

(** Its slot 0 is listed and has no cached target: a visit that leaves
    the item on its way returns, a visit that takes it to progress 1
    throws. *)
Example updateSlot_without_target :
  (exists w', updateSlot (1 # 4) 3%nat 0%nat Canvas.world = Ok tt w') /\
  (exists w', updateSlot (1 # 2) 3%nat 0%nat Canvas.world
              = Throw TypeError w').
Proof.
  split.
  - exists (final (updateSlot (1 # 4) 3%nat 0%nat Canvas.world)).
    by vm_compute.
  - exists (final (updateSlot (1 # 2) 3%nat 0%nat Canvas.world)).
    by vm_compute.
Qed.

(** Entity 2 is placed and has no ejector component: off the screen it
    is passed over, on the screen drawing it throws. *)
Example drawSingleEntity_plain :
  @drawSingleEntity Canvas.collaborators Canvas.drawing false 2%nat
    Canvas.world = Ok tt Canvas.world /\
  @drawSingleEntity Canvas.collaborators Canvas.drawing true 2%nat
    Canvas.world = Throw TypeError Canvas.world.
Proof. split; reflexivity. Qed.

End CanvasExamples.
(** ** The transfer loop in double precision *)

Section DoubleWitnesses.
#[local] Existing Instance Doubles.collaborators.

(** The growth of a tick is the number of the format nearest to one
    tenth. *)
Example Doubles_growth :
  growthOf (Doubles.world 0) = Doubles.tenth /\
  Doubles.tenth = (3602879701896397 # 36028797018963968)%Q.
Proof. split; reflexivity. Qed.

(** Ten ticks of one tenth do not take the progress from 0 to 1: the
    sums are rounded, and the item is still on its way, one unit in the
    last place below 1.  The eleventh tick takes it to 1 and hands it
    over. *)
Example Doubles_ten_ticks :
  slotOf (Doubles.after 10 (Doubles.world 0)) 1%nat 0%nat
  = Some (Doubles.slot Doubles.almost) /\
  Demo.stored (game (Doubles.after 10 (Doubles.world 0))) = [] /\
  slotOf (Doubles.after 11 (Doubles.world 0)) 1%nat 0%nat
  = Some (set_item None (Doubles.slot 1)) /\
  Demo.stored (game (Doubles.after 11 (Doubles.world 0))) = [7%nat].
Proof. repeat split; reflexivity. Qed.

(** The item is one unit in the last place below 1: the visit takes the
    slot to 1, the acceptor of the storage accepts, the storage takes
    the item and the slot is cleared. *)
Lemma update_advances_and_keeps_item_witness :
  (exists s',
     slotOf (final (update (Doubles.world Doubles.almost))) 1%nat 0%nat
     = Some s' /\
     (Doubles.almost <= progress s')%Q /\ (progress s' <= 1)%Q /\
     (item s' = Some 7%nat \/ item s' = None /\ progress s' = 1%Q)) /\
  (exists wb,
     updateSlot (growthOf (Doubles.world Doubles.almost)) 1%nat 0%nat
       (Doubles.world Doubles.almost)
     = Ok tt wb /\
     Demo.stored (game wb) = [7%nat] /\ Demo.accepted (game wb) = [0%nat] /\
     slotOf (final (update (Doubles.world Doubles.almost))) 1%nat 0%nat
     = Some (set_item None (Doubles.slot 1))).
Proof.
  destruct (@update_advances_and_keeps_item Doubles.collaborators
              (Doubles.world Doubles.almost) 1%nat 0%nat
              (Doubles.slot Doubles.almost) 7%nat
              Binary64_roundsToFormat
              (fun _ => ltac:(apply Qle_bool_iff; reflexivity))
              ltac:(apply Qle_bool_iff; reflexivity)
              ltac:(apply Qle_bool_iff; reflexivity)
              eq_refl eq_refl
              ltac:(apply Qeq_bool_iff; reflexivity)
              ltac:(apply Qle_bool_iff; reflexivity))
    as (Htick & Hvisit & _).
  split; [exact Htick|].
  destruct (Hvisit (Doubles.world Doubles.almost)
              (final (update (Doubles.world Doubles.almost)))
              {| slots := [Doubles.slot Doubles.almost];
                 cachedConnectedSlots := Some [0%nat] |}
              [] [] [] [] eq_refl eq_refl
              ltac:(apply not_elem_of_nil) ltac:(apply not_elem_of_nil)
              eq_refl eq_refl
              ltac:(apply not_elem_of_nil) ltac:(apply not_elem_of_nil)
              eq_refl)
    as (wa & wb & s1 & Hbefore & Hrun & _ & Hs1 & _ & _ & _ & Hreached).
  injection Hbefore as <-. injection Hs1 as <-.
  destruct (Hreached ltac:(apply Qle_bool_iff; reflexivity))
    as (_ & t & d & acc & [= <-] & [= <-] & [= <-] & _ & Hpass & _).
  destruct (Hpass eq_refl eq_refl) as [Hwb Hslot].
  exists wb. split; [exact Hrun|]. rewrite Hwb.
  split_and!; [reflexivity|reflexivity|]. rewrite Hslot. reflexivity.
Defined.

End DoubleWitnesses.

